(** * WATTx explorer: the indexer, its store and the token helpers

    A shallow embedding of
    - [src/server.js] (first part): [decodeUint256], [decodeAddress],
      [formatTokenAmount] and the holders derivation of
      [GET /api/token/:addr/holders];
    - the store of the backend ([db.js], third part of [src/server.js]);
    - the node client ([rpc.js]) as far as the indexer calls it;
    - [src/backend/src/indexer.js]: [Indexer].

    JavaScript strings are modelled by [string] (hex text and decimal text
    are ASCII), integers and BigInts by [Z] and [N], SQL tables keyed by a
    primary key by [gmap], tables with an AUTOINCREMENT id by the list of
    their rows in insertion order.

    Numbers of the engine are doubles: they hold the integers up to
    [2^53 - 1 = 9007199254740991] exactly, and the model counts in [Z].
    What is proved of counters and of numbers read from text is stated
    within that bound. *)

From Stdlib Require Import ZArith Ascii String List Lia.
From stdpp Require Import base numbers option list gmap strings pretty sorting.

Local Open Scope Z_scope.

(** ** JavaScript primitives used by the sources *)
Module JS.

Definition chars (s : string) : list ascii := list_ascii_of_string s.
Definition of_chars (l : list ascii) : string := string_of_list_ascii l.

(** [s.length] *)
Definition strlen (s : string) : Z := Z.of_nat (String.length s).

(** A string is truthy when it is not empty. *)
Definition truthy (s : string) : bool :=
  match s with EmptyString => false | String _ _ => true end.

(** [a || b] on strings. *)
Definition or_str (a b : string) : string := if truthy a then a else b.

(** [o || null] on a possibly absent string: the empty string is falsy. *)
Definition or_null (o : option string) : option string :=
  match o with
  | Some s => if truthy s then Some s else None
  | None => None
  end.

(** [o || d] on a possibly absent string. *)
Definition or_default (o : option string) (d : string) : string :=
  match or_null o with Some s => s | None => d end.

(** Relative index of [String.prototype.slice]: negative counts from the
    end, everything is clamped to [0, len]. *)
Definition rel_index (i len : Z) : Z :=
  if i <? 0 then Z.max (len + i) 0 else Z.min i len.

(** [s.slice(start, end)] *)
Definition slice (s : string) (start end_ : Z) : string :=
  let len := strlen s in
  let from := rel_index start len in
  let to := rel_index end_ len in
  of_chars (take (Z.to_nat (to - from)) (drop (Z.to_nat from) (chars s))).

(** [s.slice(start)] *)
Definition slice_from (s : string) (start : Z) : string :=
  slice s start (strlen s).

(** [s.padStart(target, c)] for a one-character filler [c]. *)
Definition padStart (s : string) (target : Z) (c : ascii) : string :=
  of_chars (replicate (Z.to_nat (target - strlen s)) c) +:+ s.

(** [s.replace(/0+$/, '')] *)
Fixpoint strip_trailing_zeros (s : string) : string :=
  match s with
  | EmptyString => EmptyString
  | String c r =>
      match strip_trailing_zeros r with
      | EmptyString => if Ascii.eqb c "0" then EmptyString else String c EmptyString
      | r' => String c r'
      end
  end.

(** [s.replace(/\.$/, '')] *)
Fixpoint strip_final_dot (s : string) : string :=
  match s with
  | EmptyString => EmptyString
  | String c EmptyString => if Ascii.eqb c "." then EmptyString else s
  | String c r => String c (strip_final_dot r)
  end.

(** [c.toLowerCase()] on ASCII. *)
Definition lower_char (c : ascii) : ascii :=
  let n := N_of_ascii c in
  if ((65 <=? n) && (n <=? 90))%N then ascii_of_N (n + 32) else c.

(** [s.toLowerCase()] *)
Fixpoint toLowerCase (s : string) : string :=
  match s with
  | EmptyString => EmptyString
  | String c r => String (lower_char c) (toLowerCase r)
  end.

(** [s.includes(needle)] *)
Fixpoint includes (needle s : string) : bool :=
  String.prefix needle s ||
  match s with
  | EmptyString => false
  | String _ r => includes needle r
  end.

(** Value of a hexadecimal digit. *)
Definition hex_digit (c : ascii) : option N :=
  let n := N_of_ascii c in
  if ((48 <=? n) && (n <=? 57))%N then Some (n - 48)%N
  else if ((97 <=? n) && (n <=? 102))%N then Some (n - 87)%N
  else if ((65 <=? n) && (n <=? 70))%N then Some (n - 55)%N
  else None.

Fixpoint hex_go (acc : N) (s : string) : option N :=
  match s with
  | EmptyString => Some acc
  | String c r =>
      match hex_digit c with
      | Some d => hex_go (16 * acc + d) r
      | None => None
      end
  end.

(** [BigInt('0x' + s)]: the value of the hexadecimal digits of [s];
    [None] stands for the SyntaxError raised on anything else, the empty
    string included. White space behind the digits, which [BigInt]
    skips, is not told apart from other characters here; the data of the
    logs carry none. *)
Definition bigint_of_hex (s : string) : option N :=
  match s with
  | EmptyString => None
  | _ => hex_go 0 s
  end.

(** Value of a decimal digit. *)
Definition dec_digit (c : ascii) : option N :=
  let n := N_of_ascii c in
  if ((48 <=? n) && (n <=? 57))%N then Some (n - 48)%N else None.

(** The longest prefix of decimal digits, read as a number. *)
Fixpoint dec_go (acc : N) (s : string) : N :=
  match s with
  | EmptyString => acc
  | String c r =>
      match dec_digit c with
      | Some d => dec_go (10 * acc + d) r
      | None => acc
      end
  end.

(** The longest prefix of hexadecimal digits, read as a number. *)
Fixpoint hex_prefix_go (acc : N) (s : string) : N :=
  match s with
  | EmptyString => acc
  | String c r =>
      match hex_digit c with
      | Some d => hex_prefix_go (16 * acc + d) r
      | None => acc
      end
  end.

(** A JavaScript number that holds an integer, or NaN. *)
Inductive num := Int (z : Z) | NaN.

Fixpoint skip_space (s : string) : string :=
  match s with
  | String c r => if Ascii.is_space c then skip_space r else s
  | EmptyString => EmptyString
  end.

(** Digits of [parseInt] after the sign: a [0x] prefix switches to
    base 16; no digit at all is NaN. *)
Definition parse_magnitude (s : string) : option N :=
  match s with
  | String "0" (String x r) =>
      if Ascii.eqb x "x" || Ascii.eqb x "X" then
        match r with
        | String c _ =>
            match hex_digit c with
            | Some _ => Some (hex_prefix_go 0 r)
            | None => None
            end
        | EmptyString => None
        end
      else Some (dec_go 0 s)
  | String c _ =>
      match dec_digit c with
      | Some _ => Some (dec_go 0 s)
      | None => None
      end
  | EmptyString => None
  end.

(** [parseInt(s)]. Every digit counts here; the engine rounds a result
    above [2^53] to the nearest double. *)
Definition parseInt (s : string) : num :=
  let s := skip_space s in
  let '(neg, body) :=
    match s with
    | String "-" r => (true, r)
    | String "+" r => (false, r)
    | _ => (false, s)
    end in
  match parse_magnitude body with
  | Some n => Int (if neg then - Z.of_N n else Z.of_N n)
  | None => NaN
  end.

(** [n.toString()] of an integer, and of a BigInt. *)
Definition toString (z : Z) : string := pretty z.

(** Digits of [parseInt(s, 16)] after the sign: an optional [0x], then
    the longest prefix of hexadecimal digits; no digit at all is NaN. *)
Definition parse_magnitude16 (s : string) : option N :=
  let body :=
    match s with
    | String "0" (String x r) =>
        if Ascii.eqb x "x" || Ascii.eqb x "X" then r else s
    | _ => s
    end in
  match body with
  | String c _ =>
      match hex_digit c with
      | Some _ => Some (hex_prefix_go 0 body)
      | None => None
      end
  | EmptyString => None
  end.

(** [parseInt(s, 16)] *)
Definition parseInt16 (s : string) : num :=
  let s := skip_space s in
  let '(neg, body) :=
    match s with
    | String "-" r => (true, r)
    | String "+" r => (false, r)
    | _ => (false, s)
    end in
  match parse_magnitude16 body with
  | Some n => Int (if neg then - Z.of_N n else Z.of_N n)
  | None => NaN
  end.

(** [s.slice(start, end)] where [end] is a number that may be NaN, which
    counts as 0. *)
Definition slice_to (s : string) (start : Z) (end_ : num) : string :=
  match end_ with
  | Int e => slice s start e
  | NaN => slice s start 0
  end.

(** [n || d] on a number: 0 and NaN are falsy. *)
Definition or_num (n : num) (d : Z) : Z :=
  match n with
  | Int 0 => d
  | Int z => z
  | NaN => d
  end.

(** [parseInt(q)] of a value that may be undefined, whose text is
    ["undefined"]. *)
Definition parseInt_opt (q : option string) : num :=
  parseInt (default "undefined" q).

(** [s.startsWith(p)] *)
Definition startsWith (p s : string) : bool := String.prefix p s.

(** [/^\d+$/.test(s)] *)
Definition is_digits (s : string) : bool :=
  truthy s && forallb (λ c, bool_decide (is_Some (dec_digit c))) (chars s).

(** [s.trim()], on ASCII white space. *)
Definition trim (s : string) : string :=
  let s := skip_space s in
  of_chars (reverse (chars (skip_space (of_chars (reverse (chars s)))))).

(** [Buffer.from(s, 'hex')]: the bytes of the pairs of hexadecimal
    digits, up to the first pair that is none; a last single character is
    dropped. *)
Fixpoint hex_bytes (s : string) : list Byte.byte :=
  match s with
  | String a (String b r) =>
      match hex_digit a, hex_digit b with
      | Some x, Some y =>
          match Byte.of_N (16 * x + y) with
          | Some byte => byte :: hex_bytes r
          | None => []
          end
      | _, _ => []
      end
  | _ => []
  end.

End JS.

(** ** [src/server.js], first part: the stand-alone explorer *)
Module Server.
Import JS.

(** ERC-20 event signature, as the node reports it (no [0x]). *)
Definition TRANSFER_TOPIC : string :=
  "ddf252ad1be2c89b69c2b068fc378daa952ba7f163c4a11628f55a4df523b3ef".

(** [decodeUint256(hex)]; [None] is the SyntaxError of [BigInt]. *)
Definition decodeUint256 (hex : option string) : option string :=
  match or_null hex with
  | None => Some "0"
  | Some h =>
      if String.eqb h "0x" then Some "0"
      else n ← bigint_of_hex h; Some (toString (Z.of_N n))
  end.

(** [decodeAddress(hex)] *)
Definition decodeAddress (hex : option string) : string :=
  match or_null hex with
  | None => ""
  | Some h => if strlen h <? 40 then "" else slice_from h (-40)
  end.

(** [formatTokenAmount(amount, decimals)] *)
Definition formatTokenAmount (amount : string) (decimals : Z) : string :=
  let str := padStart amount (decimals + 1) "0" in
  let whole := or_str (slice str 0 (- decimals)) "0" in
  let frac := slice_from str (- decimals) in
  let formatted :=
    if truthy frac then whole +:+ "." +:+ strip_trailing_zeros frac
    else whole in
  strip_final_dot formatted.

(** A log entry of a [searchlogs] result, and a result. *)
Record Log := { topics : option (list string); data : option string }.
Record SearchResult := { log : option (list Log) }.

Definition ZERO_ADDRESS : string := "0000000000000000000000000000000000000000".

(** The [balances] object: its own properties in insertion order. The keys
    are outputs of [decodeAddress] (forty characters or none), so none is
    an array index and none reaches a property of [Object.prototype]. *)
Definition Balances : Type := list (string * Z).

(** [balances[k] || BigInt(0)] *)
Fixpoint bal_get (b : Balances) (k : string) : Z :=
  match b with
  | [] => 0
  | (k', v) :: b' => if String.eqb k' k then v else bal_get b' k
  end.

(** [balances[k] = v] *)
Fixpoint bal_set (b : Balances) (k : string) (v : Z) : Balances :=
  match b with
  | [] => [(k, v)]
  | (k', v') :: b' =>
      if String.eqb k' k then (k', v) :: b' else (k', v') :: bal_set b' k v
  end.

(** [log.topics && log.topics[0] === TRANSFER_TOPIC] *)
Definition isTransferLog (l : Log) : bool :=
  match topics l with
  | Some ts =>
      match ts !! 0%nat with
      | Some t0 => String.eqb t0 TRANSFER_TOPIC
      | None => false
      end
  | None => false
  end.

Definition topic (l : Log) (i : nat) : option string :=
  ts ← topics l; ts !! i.

(** Body of the inner loop; [None] is the SyntaxError of [BigInt], which
    ends the request with status 500. *)
Definition applyLog (balances : Balances) (l : Log) : option Balances :=
  if isTransferLog l then
    let from := decodeAddress (topic l 1) in
    let to := decodeAddress (topic l 2) in
    value ← bigint_of_hex (or_default (data l) "0");
    let balances :=
      if String.eqb from ZERO_ADDRESS then balances
      else bal_set balances from (bal_get balances from - Z.of_N value) in
    let balances :=
      if String.eqb to ZERO_ADDRESS then balances
      else bal_set balances to (bal_get balances to + Z.of_N value) in
    Some balances
  else Some balances.

(** [for (const log of (result.log || []))] *)
Fixpoint scanLogs (balances : Balances) (logs : list Log) : option Balances :=
  match logs with
  | [] => Some balances
  | l :: logs => balances ← applyLog balances l; scanLogs balances logs
  end.

(** [for (const result of results)] *)
Fixpoint scanResults (balances : Balances) (results : list SearchResult)
  : option Balances :=
  match results with
  | [] => Some balances
  | r :: results =>
      balances ← scanLogs balances (default [] (log r));
      scanResults balances results
  end.

(** The comparator [(a, b) => (BigInt(b[1]) > BigInt(a[1]) ? 1 : -1)]. *)
Definition compareHolders (a b : string * Z) : Z :=
  if a.2 <? b.2 then 1 else -1.

(** [Array.prototype.sort]: an insertion sort that moves [x] behind [y]
    when the comparator is positive. The order the engine produces for
    equal balances is its own; a permutation it always is. *)
Fixpoint sort_insert (x : string * Z) (l : list (string * Z)) : list (string * Z) :=
  match l with
  | [] => [x]
  | y :: l' => if 0 <? compareHolders x y then y :: sort_insert x l' else x :: l
  end.

Definition sortHolders (l : list (string * Z)) : list (string * Z) :=
  foldr sort_insert [] l.

Record Holder := {
  address : string;
  addressBase58 : string;
  balance : string;
  balanceFormatted : string
}.

Record HoldersResponse := {
  totalHolders : Z;
  decimals : Z;
  holders : list Holder
}.

(** [GET /api/token/:addr/holders], from the reply of [searchlogs] on:
    [decimals] is the parsed reply of the decimals call and [hexToBase58]
    the address conversion, which falls back to its argument. The reply
    repeats the token address, which is left out here. *)
Definition tokenHolders (results : list SearchResult) (decimals : Z)
    (hexToBase58 : string → string) : option HoldersResponse :=
  balances ← scanResults [] results;
  let holders :=
    (λ e : string * Z,
       {| address := e.1;
          addressBase58 := hexToBase58 e.1;
          balance := toString e.2;
          balanceFormatted := formatTokenAmount (toString e.2) decimals |})
    <$> sortHolders (filter (λ e : string * Z, 0 < e.2) balances) in
  Some {| totalHolders := Z.of_nat (length holders);
          decimals := decimals;
          holders := holders |}.


(** *** The amount a formatted token amount is meant to be

    [amount / 10^decimals] in base ten: the quotient, and behind a point
    the remainder on [decimals] digits without its trailing zeros; the
    quotient alone when the remainder is zero. *)
Definition amountText (amount : N) (decimals : nat) : string :=
  let q := (amount / 10 ^ N.of_nat decimals)%N in
  let r := (amount mod 10 ^ N.of_nat decimals)%N in
  if (r =? 0)%N then toString (Z.of_N q)
  else toString (Z.of_N q) +:+ "." +:+
       strip_trailing_zeros (padStart (toString (Z.of_N r)) (Z.of_nat decimals) "0").

(** The last [k] decimal digits of [x], most significant first. *)
Fixpoint fixedDigits (k : nat) (x : N) : list ascii :=
  match k with
  | O => []
  | S k => fixedDigits k (x / 10) ++ [pretty_N_char (x mod 10)]
  end.

(** *** The ledger the holders are meant to come from

    A Transfer event: sender, recipient, amount. *)
Record Transfer := { sender : string; recipient : string; amount : Z }.

(** All log entries of a reply, in order. *)
Definition allLogs (results : list SearchResult) : list Log :=
  results ≫= (λ r, default [] (log r)).

(** The amount of a log entry whose data is hexadecimal (or absent). *)
Definition logAmount (l : Log) : Z :=
  Z.of_N (default 0%N (bigint_of_hex (or_default (data l) "0"))).

(** The Transfer events among log entries, in order. *)
Definition transfersOf (logs : list Log) : list Transfer :=
  (λ l, {| sender := decodeAddress (topic l 1);
           recipient := decodeAddress (topic l 2);
           amount := logAmount l |})
  <$> filter (λ l, isTransferLog l = true) logs.

(** What one event adds to the balance of [a]. *)
Definition delta (a : string) (t : Transfer) : Z :=
  (if String.eqb (recipient t) a then amount t else 0)
  - (if String.eqb (sender t) a then amount t else 0).

(** The sum of the signed deltas of [a] over the events. *)
Definition ledger (a : string) (ts : list Transfer) : Z :=
  foldr (λ t acc, delta a t + acc) 0 ts.

End Server.


(** ** The store of the backend ([db.js]) *)
Module Db.

(** Rows list the columns the statements write. The column [created_at]
    of [blocks], [transactions], [tokens] and [contracts], which the store
    fills in with its clock at every insert (so also when INSERT OR REPLACE
    puts a row in the place of another), is left out: equal rows here are
    rows equal in the columns written. *)
Module Blocks.
Record row := {
  height : Z;
  hash : string;
  parent_hash : option string;
  timestamp : Z;
  miner : option string;
  difficulty : string;
  gas_limit : string;
  gas_used : string;
  tx_count : Z;
  size : Z;
  nonce : string;
  is_pos : Z;
  block_reward : string
}.
End Blocks.

Module Transactions.
Record row := {
  hash : string;
  block_height : Z;
  block_hash : string;
  tx_index : Z;
  from_address : option string;
  to_address : option string;
  value : string;
  gas : string;
  gas_price : string;
  gas_used : string;
  nonce : Z;
  input : string;
  status : Z;
  contract_address : option string;
  timestamp : Z
}.
End Transactions.

Module EventLogs.
Record row := {
  tx_hash : string;
  log_index : Z;
  address : option string;
  topic0 : option string;
  topic1 : option string;
  topic2 : option string;
  topic3 : option string;
  data : string;
  block_height : Z;
  timestamp : Z;
  decoded_name : option string;
  decoded_args : option string
}.
End EventLogs.

Module Tokens.
Record row := {
  address : string;
  name : string;
  symbol : string;
  decimals : Z;
  total_supply : string;
  owner : option string
}.
End Tokens.

Module TokenTransfers.
Record row := {
  tx_hash : string;
  log_index : Z;
  token_address : string;
  from_address : string;
  to_address : string;
  value : option string;
  block_height : Z;
  timestamp : Z
}.
End TokenTransfers.

(** The tables the indexer touches. [event_logs] and [token_transfers]
    have an AUTOINCREMENT id and no other key: a row's id is its
    position in the list, counted from one. *)
Record Store := {
  blocks : gmap Z Blocks.row;
  transactions : gmap string Transactions.row;
  event_logs : list EventLogs.row;
  tokens : gmap string Tokens.row;
  token_transfers : list TokenTransfers.row;
  indexer_state : gmap string string
}.

Definition empty : Store :=
  {| blocks := ∅; transactions := ∅; event_logs := []; tokens := ∅;
     token_transfers := []; indexer_state := ∅ |}.

(** [INSERT OR REPLACE INTO blocks]: the row of the same height and any
    row of the same (UNIQUE) hash give way to the new one. *)
Definition insertBlock (r : Blocks.row) (s : Store) : Store :=
  {| blocks :=
       <[Blocks.height r := r]>
         (filter (λ kr : Z * Blocks.row, Blocks.hash kr.2 ≠ Blocks.hash r) (blocks s));
     transactions := transactions s; event_logs := event_logs s;
     tokens := tokens s; token_transfers := token_transfers s;
     indexer_state := indexer_state s |}.

(** [INSERT OR REPLACE INTO transactions] *)
Definition insertTx (r : Transactions.row) (s : Store) : Store :=
  {| blocks := blocks s;
     transactions := <[Transactions.hash r := r]> (transactions s);
     event_logs := event_logs s; tokens := tokens s;
     token_transfers := token_transfers s; indexer_state := indexer_state s |}.

(** [INSERT INTO event_logs] *)
Definition insertLog (r : EventLogs.row) (s : Store) : Store :=
  {| blocks := blocks s; transactions := transactions s;
     event_logs := event_logs s ++ [r];
     tokens := tokens s; token_transfers := token_transfers s;
     indexer_state := indexer_state s |}.

(** [INSERT OR REPLACE INTO tokens] *)
Definition insertToken (r : Tokens.row) (s : Store) : Store :=
  {| blocks := blocks s; transactions := transactions s;
     event_logs := event_logs s;
     tokens := <[Tokens.address r := r]> (tokens s);
     token_transfers := token_transfers s; indexer_state := indexer_state s |}.

(** [INSERT INTO token_transfers] *)
Definition insertTransfer (r : TokenTransfers.row) (s : Store) : Store :=
  {| blocks := blocks s; transactions := transactions s;
     event_logs := event_logs s; tokens := tokens s;
     token_transfers := token_transfers s ++ [r];
     indexer_state := indexer_state s |}.

(** *** The foreign keys

    [better-sqlite3] opens a database with its foreign keys enforced. The
    schema has four: a Transaction row names a Block row by its height, an
    EventLog row a Transaction row by its hash, a TokenTransfer row a
    Transaction row by its hash and a Token row by its address. A
    statement that would leave a row without the row it names fails with
    [FOREIGN KEY constraint failed] and writes nothing. The predicates
    below tell when a statement passes; the tables after it are given by
    the functions above. *)

(** Some Transaction row names the block of [height]. *)
Definition blockReferenced (height : Z) (s : Store) : Prop :=
  map_Exists (λ _ r, Transactions.block_height r = height) (transactions s).

(** [insertBlock] replaces the row of its height, which leaves every
    Transaction row its block. The row of another height that it removes
    for its hash must not be named by a Transaction row. *)
Definition insertBlock_ok (r : Blocks.row) (s : Store) : bool :=
  bool_decide
    (map_Forall (λ k row, Blocks.hash row = Blocks.hash r →
                          k ≠ Blocks.height r → ¬ blockReferenced k s)
                (blocks s)).

(** [insertTx] needs the Block row of [block_height]. The rows that name
    the transaction it replaces keep naming the new row. *)
Definition insertTx_ok (r : Transactions.row) (s : Store) : bool :=
  bool_decide (is_Some (blocks s !! Transactions.block_height r)).

(** [insertLog] needs the Transaction row of [tx_hash]. *)
Definition insertLog_ok (r : EventLogs.row) (s : Store) : bool :=
  bool_decide (is_Some (transactions s !! EventLogs.tx_hash r)).

(** [insertTransfer] needs the Transaction row of [tx_hash] and the Token
    row of [token_address]. *)
Definition insertTransfer_ok (r : TokenTransfers.row) (s : Store) : bool :=
  bool_decide (is_Some (transactions s !! TokenTransfers.tx_hash r)) &&
  bool_decide (is_Some (tokens s !! TokenTransfers.token_address r)).

(** [SELECT value FROM indexer_state WHERE key = ?] *)
Definition getIndexerState (key : string) (s : Store) : option string :=
  indexer_state s !! key.

(** [INSERT OR REPLACE INTO indexer_state] *)
Definition setIndexerState (key value : string) (s : Store) : Store :=
  {| blocks := blocks s; transactions := transactions s;
     event_logs := event_logs s; tokens := tokens s;
     token_transfers := token_transfers s;
     indexer_state := <[key := value]> (indexer_state s) |}.

(** [SELECT * FROM tokens WHERE address = ?] *)
Definition getToken (address : string) (s : Store) : option Tokens.row :=
  tokens s !! address.

(** [SELECT * FROM blocks WHERE height = ?] *)
Definition getBlock (height : Z) (s : Store) : option Blocks.row :=
  blocks s !! height.

(** [SELECT * FROM blocks WHERE hash = ?], first row. *)
Definition getBlockByHash (hash : string) (s : Store) : option Blocks.row :=
  head (filter (λ r, Blocks.hash r = hash) (map_to_list (blocks s)).*2).

(** [SELECT * FROM transactions WHERE hash = ?] *)
Definition getTx (hash : string) (s : Store) : option Transactions.row :=
  transactions s !! hash.

(** [LIMIT limit OFFSET offset] on the rows of a query, in their order:
    a negative limit is no limit, a negative offset is none. *)
Definition sql_limit {A} (limit offset : Z) (rows : list A) : list A :=
  let rows := drop (Z.to_nat offset) rows in
  if limit <? 0 then rows else take (Z.to_nat limit) rows.

(** [ORDER BY height DESC] on the blocks table: the row of the higher
    key comes first. *)
Definition higher (a b : Z * Blocks.row) : Prop := b.1 ≤ a.1.

#[export] Instance higher_dec a b : Decision (higher a b) := decide (b.1 ≤ a.1).

(** The rows of the blocks table by descending height, the primary key. *)
Definition blocksDescending (s : Store) : list (Z * Blocks.row) :=
  merge_sort higher (map_to_list (blocks s)).

(** [SELECT * FROM blocks ORDER BY height DESC LIMIT ?] *)
Definition getLatestBlocks (limit : Z) (s : Store) : list Blocks.row :=
  sql_limit limit 0 (blocksDescending s).*2.

(** The table of verified contracts. *)
Module Contracts.
Record row := {
  address : string;
  name : string;
  source_code : string;
  abi : string;
  compiler_version : string;
  optimization : Z;
  constructor_args : string;
  verified_at : Z
}.
End Contracts.

(** [INSERT OR REPLACE INTO contracts] *)
Definition insertContract (r : Contracts.row) (contracts : gmap string Contracts.row)
  : gmap string Contracts.row :=
  <[Contracts.address r := r]> contracts.

(** [SELECT * FROM contracts WHERE address = ?]; a null parameter matches
    no row. *)
Definition getContract (address : option string)
    (contracts : gmap string Contracts.row) : option Contracts.row :=
  a ← address; contracts !! a.

End Db.

(** Numbers of the node's replies that are not integers ([difficulty],
    an output's [value]) are IEEE doubles; their type and the two renderings
    the indexer takes of them are kept abstract. *)
Class JsNumber (Num : Type) := {
  (** [n.toString()] *)
  number_toString : Num → string;
  (** [Math.round((v || 0) * 1e8).toString()] *)
  number_satoshis : option Num → string
}.

(** ** The node client ([rpc.js]), as the indexer sees it *)
Module Rpc.

(** An awaited call resolves with a value or rejects. *)
Inductive reply (A : Type) : Type :=
| Reply (a : A)
| Failure.
Arguments Reply {A} a.
Arguments Failure {A}.

Module ScriptPubKey.
Record t := {
  type : option string;
  address : option string;
  addresses : option (list string);
  hex : option string
}.
End ScriptPubKey.

Module Vout.
Record t (Num : Type) := {
  value : option Num;
  scriptPubKey : option ScriptPubKey.t
}.
Arguments value {Num} _.
Arguments scriptPubKey {Num} _.
End Vout.

Module Tx.
Record t (Num : Type) := {
  txid : string;
  vout : option (list (Vout.t Num))
}.
Arguments txid {Num} _.
Arguments vout {Num} _.
End Tx.

(** An entry of [block.tx]: an object at verbosity 2, else an id. *)
Inductive TxEntry (Num : Type) : Type :=
| TxId (id : string)
| TxObject (tx : Tx.t Num).
Arguments TxId {Num} id.
Arguments TxObject {Num} tx.

Module Block.
Record t (Num : Type) := {
  height : Z;
  hash : string;
  previousblockhash : option string;
  time : Z;
  miner : option string;
  difficulty : option Num;
  tx : option (list (TxEntry Num));
  size : option Z;
  nonce : option Z;
  flags : option string
}.
Arguments height {Num} _.
Arguments hash {Num} _.
Arguments previousblockhash {Num} _.
Arguments time {Num} _.
Arguments miner {Num} _.
Arguments difficulty {Num} _.
Arguments tx {Num} _.
Arguments size {Num} _.
Arguments nonce {Num} _.
Arguments flags {Num} _.
End Block.

Module Log.
Record t := {
  address : option string;
  topics : option (list string);
  data : option string
}.
End Log.

Module Receipt.
Record t := {
  log : option (list Log.t);
  contractAddress : option string
}.
End Receipt.

(** Replies of the node to the methods the indexer calls. [getBlock]
    stands for [getBlock(height, 2)] (a [getblockhash] followed by a
    [getblock]); a null result is [None]. The token calls reply with what
    the node documents for them: text for the name, the symbol and the
    total supply, a number for the decimals. *)
Record Node (Num : Type) := {
  getBlockCount : reply Z;
  getBlock : Z → reply (option (Block.t Num));
  getTransactionReceipt : string → reply (option (list Receipt.t));
  getTokenName : string → reply string;
  getTokenSymbol : string → reply string;
  getTokenDecimals : string → reply Z;
  getTokenTotalSupply : string → reply string
}.
Arguments getBlockCount {Num} _.
Arguments getBlock {Num} _ _.
Arguments getTransactionReceipt {Num} _ _.
Arguments getTokenName {Num} _ _.
Arguments getTokenSymbol {Num} _ _.
Arguments getTokenDecimals {Num} _ _.
Arguments getTokenTotalSupply {Num} _ _.

(** The calls issued to the node, for the record. *)
Inductive Call :=
| GetBlockCount
| GetBlock (height : Z)
| GetTransactionReceipt (txid : string)
| GetTokenName (address : string)
| GetTokenSymbol (address : string)
| GetTokenDecimals (address : string)
| GetTokenTotalSupply (address : string).

End Rpc.

(** ** [src/backend/src/indexer.js]

    Computations of the indexer take a world (the store, the calls issued
    to the node, the calls of async functions left waiting) to an outcome,
    a return or a throw, and a world. [sync()] loops while [isRunning];
    one turn of its loop is [sync_step]. *)
Module Indexer.
Import JS.

Definition batchSize : Z := 10.

Definition TRANSFER_TOPIC : string :=
  "0xddf252ad1be2c89b69c2b068fc378daa952ba7f163c4a11628f55a4df523b3ef".

(** What is thrown: a rejected call to the node, a TypeError of the
    engine, an error of a statement of the store. *)
Inductive exn := RpcError | TypeError | SqliteError.

Inductive result (A : Type) : Type :=
| Return (a : A)
| Throw (e : exn).
Arguments Return {A} a.
Arguments Throw {A} e.

(** What [detectToken] returns: the stored row, the object built from the
    probes, or null. *)
Inductive Detected :=
| Existing (row : Db.Tokens.row)
| Probed (address name symbol : string) (decimals : Z) (totalSupply : string)
| Null.

(** One step of the loop of [sync]. *)
Inductive Step :=
| Idle                       (* cursor at the chain height: sleep(2000) *)
| Indexed (endBlock : num)   (* the batch went through *)
| Backoff (e : exn).         (* caught: sleep(5000) *)

(** [lastIndexed >= chainHeight] *)
Definition num_ge (a : num) (b : Z) : bool :=
  match a with Int x => b <=? x | NaN => false end.

(** [lastIndexed + 1], exact up to [2^53 - 1] *)
Definition num_succ (a : num) : num :=
  match a with Int x => Int (x + 1) | NaN => NaN end.

(** [Math.min(startBlock + this.batchSize - 1, chainHeight)] *)
Definition batch_end (startBlock : num) (chainHeight : Z) : num :=
  match startBlock with
  | Int x => Int (Z.min (x + batchSize - 1) chainHeight)
  | NaN => NaN
  end.

(** The heights [for (height = startBlock; height <= endBlock; height++)]
    runs through, for bounds up to [2^53 - 1]. *)
Definition heights (startBlock endBlock : num) : list Z :=
  match startBlock, endBlock with
  | Int a, Int b => seqZ a (b - a + 1)
  | _, _ => []
  end.

(** [height.toString()] *)
Definition num_toString (a : num) : string :=
  match a with Int x => toString x | NaN => "NaN" end.

(** [getLastIndexedBlock()] *)
Definition getLastIndexedBlock (s : Db.Store) : num :=
  match Db.getIndexerState "last_block" s with
  | Some value => parseInt value
  | None => Int (-1)
  end.

(** The heights of the blocks fetched by a sequence of calls. *)
Definition fetched (cs : list Rpc.Call) : list Z :=
  omap (λ c, match c with Rpc.GetBlock height => Some height | _ => None end) cs.

(** The value [promise.catch(() => placeholder)] resolves with. *)
Definition settled {A} (r : Rpc.reply A) (placeholder : A) : A :=
  match r with Rpc.Reply a => a | Rpc.Failure => placeholder end.

Section WithNode.
Context {Num : Type} `{!JsNumber Num} (node : Rpc.Node Num).

(** A call of [indexReceipt] that [indexTransaction] made and did not
    await. *)
Record Deferred := { d_txid : string; d_block : Rpc.Block.t Num }.

(** The store, the calls issued to the node so far, and the calls of
    [indexReceipt] that wait for their turn. *)
Record World := {
  store : Db.Store;
  calls : list Rpc.Call;
  pending : list Deferred
}.

Definition M (A : Type) : Type := World → result A * World.

Definition ret {A} (a : A) : M A := λ w, (Return a, w).

Definition bind {A B} (m : M A) (k : A → M B) : M B := λ w,
  match m w with
  | (Return a, w') => k a w'
  | (Throw e, w') => (Throw e, w')
  end.

Definition throw {A} (e : exn) : M A := λ w, (Throw e, w).

(** [try { body } catch (e) { handler }] *)
Definition try_catch {A} (body : M A) (handler : exn → M A) : M A := λ w,
  match body w with
  | (Return a, w') => (Return a, w')
  | (Throw e, w') => handler e w'
  end.

Definition read_store : M Db.Store := λ w, (Return (store w), w).

(** Run a prepared statement that has no constraint to fail on. *)
Definition run (f : Db.Store → Db.Store) : M unit := λ w,
  (Return tt, {| store := f (store w); calls := calls w; pending := pending w |}).

(** Run a prepared statement under the foreign keys: it writes when it
    passes them, and else throws and writes nothing. *)
Definition statement (ok : Db.Store → bool) (f : Db.Store → Db.Store) : M unit :=
  λ w,
  if ok (store w) then
    (Return tt, {| store := f (store w); calls := calls w; pending := pending w |})
  else (Throw SqliteError, w).

(** The request of a call to the node goes out. *)
Definition request (c : Rpc.Call) : M unit := λ w,
  (Return tt, {| store := store w; calls := calls w ++ [c]; pending := pending w |}).

(** The promise of a call settles: it resolves, or it rejects. *)
Definition promised {A} (r : Rpc.reply A) : M A := λ w,
  match r with
  | Rpc.Reply a => (Return a, w)
  | Rpc.Failure => (Throw RpcError, w)
  end.

(** [await this.rpc.method(...)]: the request goes out and the promise
    settles. *)
Definition await {A} (c : Rpc.Call) (r : Rpc.reply A) : M A := λ w,
  let w' := {| store := store w; calls := calls w ++ [c]; pending := pending w |} in
  match r with
  | Rpc.Reply a => (Return a, w')
  | Rpc.Failure => (Throw RpcError, w')
  end.

(** [this.rpc.method(...).catch(() => placeholder)] *)
Definition probe {A} (c : Rpc.Call) (r : Rpc.reply A) (placeholder : A) : M A :=
  try_catch (await c r) (λ _, ret placeholder).

(** The rest of a call of an async function that is not awaited. *)
Definition defer (d : Deferred) : M unit := λ w,
  (Return tt, {| store := store w; calls := calls w; pending := pending w ++ [d] |}).

(** [db.transaction(body)()]: a throw inside rolls the store back. *)
Definition db_transaction {A} (body : M A) : M A := λ w,
  match body w with
  | (Return a, w') => (Return a, w')
  | (Throw e, w') =>
      (Throw e, {| store := store w; calls := calls w'; pending := pending w' |})
  end.

#[export] Instance M_ret : MRet M := @ret.
#[export] Instance M_bind : MBind M := λ A B k m, bind m k.

(** [for (let i = i0; i < l.length; i++) body(i, l[i])] *)
Fixpoint for_each {A} (body : Z → A → M unit) (i : Z) (l : list A) : M unit :=
  match l with
  | [] => ret tt
  | x :: l' => body i x;; for_each body (i + 1) l'
  end.

(** [setLastIndexedBlock(height)] *)
Definition setLastIndexedBlock (height : num) : M unit :=
  run (Db.setIndexerState "last_block" (num_toString height)).

(** [detectToken(address)] *)
Definition detectToken (address : string) : M Detected :=
  s ← read_store;
  match Db.getToken (toLowerCase address) s with
  | Some existing => ret (Existing existing)
  | None =>
      try_catch
        (name ← probe (Rpc.GetTokenName address)
                   (Rpc.getTokenName node address) "Unknown";
         symbol ← probe (Rpc.GetTokenSymbol address)
                     (Rpc.getTokenSymbol node address) "???";
         decimals ← probe (Rpc.GetTokenDecimals address)
                       (Rpc.getTokenDecimals node address) 18;
         totalSupply ← probe (Rpc.GetTokenTotalSupply address)
                          (Rpc.getTokenTotalSupply node address) "0";
         run (Db.insertToken
                {| Db.Tokens.address := toLowerCase address;
                   Db.Tokens.name := name;
                   Db.Tokens.symbol := symbol;
                   Db.Tokens.decimals := decimals;
                   Db.Tokens.total_supply := totalSupply;
                   Db.Tokens.owner := None |});;
         ret (Probed address name symbol decimals totalSupply))
        (λ _, ret Null)
  end.

(** The row [indexLog] writes to the event logs for a log entry. *)
Definition eventRow (txid : string) (log : Rpc.Log.t)
    (block : Rpc.Block.t Num) (logIndex : Z) : Db.EventLogs.row :=
  let topics := default [] (Rpc.Log.topics log) in
  {| Db.EventLogs.tx_hash := txid;
     Db.EventLogs.log_index := logIndex;
     Db.EventLogs.address := or_null (toLowerCase <$> Rpc.Log.address log);
     Db.EventLogs.topic0 := or_null (topics !! 0%nat);
     Db.EventLogs.topic1 := or_null (topics !! 1%nat);
     Db.EventLogs.topic2 := or_null (topics !! 2%nat);
     Db.EventLogs.topic3 := or_null (topics !! 3%nat);
     Db.EventLogs.data := or_default (Rpc.Log.data log) "0x";
     Db.EventLogs.block_height := Rpc.Block.height block;
     Db.EventLogs.timestamp := Rpc.Block.time block;
     Db.EventLogs.decoded_name := None;
     Db.EventLogs.decoded_args := None |}.

(** The row [indexLog] writes for a Transfer log of the token
    [tokenAddress] with the topics [topic1] and [topic2]. The [data] of
    the log is bound as it is; when there is none the statement binds
    NULL. *)
Definition transferRow (txid : string) (log : Rpc.Log.t)
    (block : Rpc.Block.t Num) (logIndex : Z) (tokenAddress topic1 topic2 : string)
  : Db.TokenTransfers.row :=
  let from := "0x" +:+ toLowerCase (slice_from topic1 (-40)) in
  let to := "0x" +:+ toLowerCase (slice_from topic2 (-40)) in
  let value := Rpc.Log.data log in
  {| Db.TokenTransfers.tx_hash := txid;
     Db.TokenTransfers.log_index := logIndex;
     Db.TokenTransfers.token_address := tokenAddress;
     Db.TokenTransfers.from_address := from;
     Db.TokenTransfers.to_address := to;
     Db.TokenTransfers.value := value;
     Db.TokenTransfers.block_height := Rpc.Block.height block;
     Db.TokenTransfers.timestamp := Rpc.Block.time block |}.

(** [indexLog(txid, log, block, logIndex)] *)
Definition indexLog (txid : string) (log : Rpc.Log.t)
    (block : Rpc.Block.t Num) (logIndex : Z) : M unit :=
  let topics := default [] (Rpc.Log.topics log) in
  let row := eventRow txid log block logIndex in
  statement (Db.insertLog_ok row) (Db.insertLog row);;
  match topics with
  | topic0 :: topic1 :: topic2 :: _ =>
      if String.eqb topic0 TRANSFER_TOPIC then
        tokenAddress ←
          match Rpc.Log.address log with
          | Some a => ret (toLowerCase a)
          | None => throw TypeError
          end;
        detectToken tokenAddress;;
        let row := transferRow txid log block logIndex tokenAddress topic1 topic2 in
        statement (Db.insertTransfer_ok row) (Db.insertTransfer row)
      else ret tt
  | _ => ret tt
  end.

(** The body of [indexReceipt(txid, block)], with [fetch] for
    [await this.rpc.getTransactionReceipt(txid)]. *)
Definition indexReceiptWith (fetch : M (option (list Rpc.Receipt.t)))
    (txid : string) (block : Rpc.Block.t Num) : M unit :=
  try_catch
    (receipts ← fetch;
     match receipts with
     | None => ret tt
     | Some receipts =>
         for_each
           (λ _ receipt,
              match Rpc.Receipt.log receipt with
              | Some logs =>
                  for_each (λ i log, indexLog txid log block i) 0 logs
              | None => ret tt
              end;;
              match or_null (Rpc.Receipt.contractAddress receipt) with
              | Some a => detectToken a;; ret tt
              | None => ret tt
              end)
           0 receipts
     end)
    (λ _, ret tt).

(** [await this.indexReceipt(txid, block)] *)
Definition indexReceipt (txid : string) (block : Rpc.Block.t Num) : M unit :=
  indexReceiptWith
    (await (Rpc.GetTransactionReceipt txid) (Rpc.getTransactionReceipt node txid))
    txid block.

(** [this.indexReceipt(txid, block)] without await: the call runs up to its
    first await, inside the node client, where the request goes out; the
    rest of it waits. *)
Definition start_indexReceipt (txid : string) (block : Rpc.Block.t Num) : M unit :=
  request (Rpc.GetTransactionReceipt txid);;
  defer {| d_txid := txid; d_block := block |}.

(** The rest of such a call, once the reply of the node is there. It
    catches whatever it raises. *)
Definition resume (d : Deferred) (w : World) : World :=
  (indexReceiptWith (promised (Rpc.getTransactionReceipt node (d_txid d)))
     (d_txid d) (d_block d) w).2.

(** The primary recipient: the first output's [address], else the
    first of its [addresses]. *)
Definition primaryRecipient (tx : Rpc.Tx.t Num) : option string :=
  match Rpc.Tx.vout tx with
  | Some (vout :: _) =>
      spk ← Rpc.Vout.scriptPubKey vout;
      match or_null (Rpc.ScriptPubKey.address spk) with
      | Some a => Some a
      | None =>
          match Rpc.ScriptPubKey.addresses spk with
          | Some (a :: _) => or_null (Some a)
          | _ => None
          end
      end
  | _ => None
  end.

(** The value of the first output, in satoshis. *)
Definition primaryValue (tx : Rpc.Tx.t Num) : string :=
  match Rpc.Tx.vout tx with
  | Some (vout :: _) => number_satoshis (Rpc.Vout.value vout)
  | _ => "0"
  end.

(** One turn of the loop over the outputs: [(contractAddress, inputData)]. *)
Definition contractStep (acc : option string * string) (vout : Rpc.Vout.t Num)
  : option string * string :=
  match Rpc.Vout.scriptPubKey vout with
  | Some spk =>
      match Rpc.ScriptPubKey.type spk with
      | Some ty =>
          if String.eqb ty "create" then
            (or_null (Rpc.ScriptPubKey.address spk), acc.2)
          else if String.eqb ty "call" then
            (acc.1, or_default (Rpc.ScriptPubKey.hex spk) "0x")
          else acc
      | None => acc
      end
  | None => acc
  end.

(** The loop over the outputs. *)
Definition contractScan (tx : Rpc.Tx.t Num) : option string * string :=
  foldl contractStep (None, "0x") (default [] (Rpc.Tx.vout tx)).

(** The row [indexTransaction] writes for a transaction. *)
Definition txRow (tx : Rpc.Tx.t Num) (block : Rpc.Block.t Num) (txIndex : Z)
  : Db.Transactions.row :=
  let fromAddress : option string := None in
  let toAddress := primaryRecipient tx in
  let value := primaryValue tx in
  let contractAddress := (contractScan tx).1 in
  let inputData := (contractScan tx).2 in
  {| Db.Transactions.hash := Rpc.Tx.txid tx;
     Db.Transactions.block_height := Rpc.Block.height block;
     Db.Transactions.block_hash := Rpc.Block.hash block;
     Db.Transactions.tx_index := txIndex;
     Db.Transactions.from_address := or_null (toLowerCase <$> fromAddress);
     Db.Transactions.to_address := or_null (toLowerCase <$> toAddress);
     Db.Transactions.value := value;
     Db.Transactions.gas := "0";
     Db.Transactions.gas_price := "0";
     Db.Transactions.gas_used := "0";
     Db.Transactions.nonce := 0;
     Db.Transactions.input := inputData;
     Db.Transactions.status := 1;
     Db.Transactions.contract_address := or_null (toLowerCase <$> contractAddress);
     Db.Transactions.timestamp := Rpc.Block.time block |}.

(** [indexTransaction(tx, block, txIndex)]. The look at [tx.vin] has no
    effect. The call of [indexReceipt] at the end is not awaited: its
    rest goes on after the surrounding transaction of the store has
    committed. *)
Definition indexTransaction (tx : Rpc.Tx.t Num) (block : Rpc.Block.t Num)
    (txIndex : Z) : M unit :=
  let row := txRow tx block txIndex in
  statement (Db.insertTx_ok row) (Db.insertTx row);;
  start_indexReceipt (Rpc.Tx.txid tx) block.

(** The row [indexBlock] writes for a block. *)
Definition blockRow (height : Z) (block : Rpc.Block.t Num) : Db.Blocks.row :=
  let isPos :=
    match Rpc.Block.flags block with
    | Some flags => if includes "proof-of-stake" flags then 1 else 0
    | None => 0
    end in
  {| Db.Blocks.height := height;
     Db.Blocks.hash := Rpc.Block.hash block;
     Db.Blocks.parent_hash := or_null (Rpc.Block.previousblockhash block);
     Db.Blocks.timestamp := Rpc.Block.time block;
     Db.Blocks.miner := or_null (Rpc.Block.miner block);
     Db.Blocks.difficulty :=
       or_default (number_toString <$> Rpc.Block.difficulty block) "0";
     Db.Blocks.gas_limit := "0";
     Db.Blocks.gas_used := "0";
     Db.Blocks.tx_count :=
       match Rpc.Block.tx block with
       | Some txs => Z.of_nat (length txs)
       | None => 0
       end;
     Db.Blocks.size := default 0 (Rpc.Block.size block);
     Db.Blocks.nonce := or_default (toString <$> Rpc.Block.nonce block) "0";
     Db.Blocks.is_pos := isPos;
     Db.Blocks.block_reward := "0" |}.

(** [indexBlock(height)] *)
Definition indexBlock (height : Z) : M unit :=
  block ← await (Rpc.GetBlock height) (Rpc.getBlock node height);
  match block with
  | None => ret tt
  | Some block =>
      let row := blockRow height block in
      db_transaction
        (statement (Db.insertBlock_ok row) (Db.insertBlock row);;
         match Rpc.Block.tx block with
         | Some txs =>
             for_each
               (λ i tx,
                  match tx with
                  | Rpc.TxObject tx => indexTransaction tx block i
                  | Rpc.TxId _ => ret tt
                  end)
               0 txs
         | None => ret tt
         end)
  end.

(** The transactions table after the loop of [indexBlock] over the
    entries of [block.tx], counted from [i]. *)
Fixpoint txsInserted (block : Rpc.Block.t Num) (i : Z) (txs : list (Rpc.TxEntry Num))
    (m : gmap string Db.Transactions.row) : gmap string Db.Transactions.row :=
  match txs with
  | [] => m
  | Rpc.TxObject tx :: txs =>
      txsInserted block (i + 1) txs (<[Rpc.Tx.txid tx := txRow tx block i]> m)
  | Rpc.TxId _ :: txs => txsInserted block (i + 1) txs m
  end.

(** One turn of [while (this.isRunning)] in [sync()]. *)
Definition sync_step : World → Step * World := λ w,
  let body : M Step :=
    chainHeight ← await Rpc.GetBlockCount (Rpc.getBlockCount node);
    s ← read_store;
    let lastIndexed := getLastIndexedBlock s in
    if num_ge lastIndexed chainHeight then ret Idle
    else
      let startBlock := num_succ lastIndexed in
      let endBlock := batch_end startBlock chainHeight in
      for_each (λ _ height, indexBlock height) 0 (heights startBlock endBlock);;
      setLastIndexedBlock endBlock;;
      ret (Indexed endBlock) in
  match body w with
  | (Return st, w') => (st, w')
  | (Throw e, w') => (Backoff e, w')
  end.

(** The calls of [indexReceipt] left waiting run to their end, one after
    the other, oldest first. The event loop may run them in another order
    and between two fetches of [sync]; none of them touches the blocks,
    the transactions or the cursor, and none removes a row. *)
Definition settle (w : World) : World :=
  let w0 := {| store := store w; calls := calls w; pending := [] |} in
  foldl (λ w d, resume d w) w0 (pending w).

(** [n] turns of the loop of [sync()], one after the other. The calls of
    [indexReceipt] left waiting are not run in between: they leave the
    cursor alone. *)
Fixpoint sync_turns (n : nat) (w : World) : World :=
  match n with
  | O => w
  | S n => sync_turns n (sync_step w).2
  end.

(** [vout.scriptPubKey?.type] *)
Definition voutType (v : Rpc.Vout.t Num) : option string :=
  spk ← Rpc.Vout.scriptPubKey v; Rpc.ScriptPubKey.type spk.

(** *** What the transaction of [indexBlock] leaves *)

(** The entries of [block.tx] that are objects. *)
Definition txObjectsOf (txs : list (Rpc.TxEntry Num)) : list (Rpc.Tx.t Num) :=
  omap (λ e, match e with Rpc.TxObject tx => Some tx | Rpc.TxId _ => None end) txs.

Definition txObjects (block : Rpc.Block.t Num) : list (Rpc.Tx.t Num) :=
  txObjectsOf (default [] (Rpc.Block.tx block)).

(** The calls of [indexReceipt] that [indexTransaction] starts for the
    transactions [txs] of [block]: the requests that go out, and the rest
    of the calls, which waits. *)
Definition receiptCalls (txs : list (Rpc.Tx.t Num)) : list Rpc.Call :=
  (λ tx, Rpc.GetTransactionReceipt (Rpc.Tx.txid tx)) <$> txs.

Definition receiptsDeferred (block : Rpc.Block.t Num) (txs : list (Rpc.Tx.t Num))
  : list Deferred :=
  (λ tx, {| d_txid := Rpc.Tx.txid tx; d_block := block |}) <$> txs.

(** The store once the transaction of [indexBlock(height)] has committed
    the rows of [block]. *)
Definition blockCommitted (height : Z) (block : Rpc.Block.t Num) (s : Db.Store)
  : Db.Store :=
  {| Db.blocks := Db.blocks (Db.insertBlock (blockRow height block) s);
     Db.transactions :=
       txsInserted block 0 (default [] (Rpc.Block.tx block)) (Db.transactions s);
     Db.event_logs := Db.event_logs s;
     Db.tokens := Db.tokens s;
     Db.token_transfers := Db.token_transfers s;
     Db.indexer_state := Db.indexer_state s |}.

(** The statements of that transaction pass the foreign keys: the one
    for the block, and the ones for its transactions, which all name the
    block of [block.height]. *)
Definition blockAccepted (height : Z) (block : Rpc.Block.t Num) (s : Db.Store)
  : bool :=
  Db.insertBlock_ok (blockRow height block) s &&
  (bool_decide (txObjects block = []) ||
   bool_decide (is_Some (Db.blocks (Db.insertBlock (blockRow height block) s)
                           !! Rpc.Block.height block))).

(** The store after the blocks the node has for the heights [hs] have
    been committed, one after the other. *)
Definition blockStep (s : Db.Store) (height : Z) : Db.Store :=
  match Rpc.getBlock node height with
  | Rpc.Reply (Some block) => blockCommitted height block s
  | _ => s
  end.

Definition batchCommitted (hs : list Z) (s : Db.Store) : Db.Store :=
  foldl blockStep s hs.

(** *** Replies of the node that the foreign keys accept

    Between [lo] and [hi] the node reports a block under the height it
    was asked for, and no hash under two heights. *)
Definition chain_consistent (lo hi : Z) : Prop :=
  ∀ k b, lo ≤ k ≤ hi → Rpc.getBlock node k = Rpc.Reply (Some b) →
    Rpc.Block.height b = k ∧
    ∀ k' b', lo ≤ k' ≤ hi → Rpc.getBlock node k' = Rpc.Reply (Some b') →
      Rpc.Block.hash b' = Rpc.Block.hash b → k' = k.

(** The store holds no block of another height under the hash of a block
    that the node reports between [lo] and [hi]. *)
Definition hashes_fresh (s : Db.Store) (lo hi : Z) : Prop :=
  ∀ k b k' r, lo ≤ k ≤ hi → Rpc.getBlock node k = Rpc.Reply (Some b) →
    Db.blocks s !! k' = Some r → Db.Blocks.hash r = Rpc.Block.hash b → k' = k.

(** *** Predicates on computations

    [keeps I m]: [m] takes a store that satisfies [I] to one that
    does, whether it returns or throws. *)
Definition keeps {A} (I : Db.Store → Prop) (m : M A) : Prop :=
  ∀ w, I (store w) → I (store (m w).2).

End WithNode.

(** Every TokenTransfer row names a token that has a Token row. *)
Definition transfers_reference_tokens (s : Db.Store) : Prop :=
  ∀ r, r ∈ Db.token_transfers s →
    is_Some (Db.tokens s !! Db.TokenTransfers.token_address r).

(** [topics[0] === TRANSFER_TOPIC && topics.length >= 3] in [indexLog] *)
Definition isTransferEvent (log : Rpc.Log.t) : bool :=
  match default [] (Rpc.Log.topics log) with
  | topic0 :: _ :: _ :: _ => String.eqb topic0 TRANSFER_TOPIC
  | _ => false
  end.

(** The store [s'] extends [s] by logs, tokens and transfers alone: the
    blocks, the transactions and the cursor are those of [s], and no
    log, token or transfer of [s] is gone. *)
Definition extends_logs (s s' : Db.Store) : Prop :=
  Db.blocks s' = Db.blocks s ∧
  Db.transactions s' = Db.transactions s ∧
  Db.indexer_state s' = Db.indexer_state s ∧
  Db.event_logs s `prefix_of` Db.event_logs s' ∧
  Db.token_transfers s `prefix_of` Db.token_transfers s' ∧
  ∀ k, is_Some (Db.tokens s !! k) → is_Some (Db.tokens s' !! k).

End Indexer.

(** ** [src/server.js], first part: the other helpers and endpoints of the
    stand-alone explorer

    An endpoint answers with a JSON body or with status 500, which it
    does when a call to the node fails and when its code throws:
    [Rpc.Failure] stands for both. *)
Module Explorer.
Import JS Server.

#[export] Instance reply_ret : MRet Rpc.reply := @Rpc.Reply.
#[export] Instance reply_bind : MBind Rpc.reply := λ A B k m,
  match m with
  | Rpc.Reply a => k a
  | Rpc.Failure => Rpc.Failure
  end.

(** [decodeString(hex)]. [utf8] is [Buffer.prototype.toString('utf8')].
    The offset word is parsed and never used. The length is a number of
    the engine, exact below [2^53]; it only makes the end of a slice, which
    stops at the end of the text. *)
Definition decodeString (utf8 : list Byte.byte → string) (hex : option string)
  : string :=
  match or_null hex with
  | None => ""
  | Some hex =>
      if String.eqb hex "0x" || (strlen hex <? 128) then ""
      else
        let length := parseInt16 (slice hex 64 128) in
        let data :=
          slice_to hex 128
            (match length with Int l => Int (128 + l * 2) | NaN => NaN end) in
        utf8 (hex_bytes data)
  end.

(** The call data of [balanceOf(holder)] in
    [GET /api/token/:addr/balance/:holder]. *)
Definition balanceOfData (holder : string) : string :=
  "70a08231" +:+ padStart holder 64 "0".

(** *** [GET /api/blocks] *)

Module NodeBlock.
Record t := { height : Z; hash : string; time : Z; nTx : Z; size : Z }.
End NodeBlock.

Module BlockSummary.
Record t := { height : Z; hash : string; time : Z; txCount : Z; size : Z }.
End BlockSummary.

Record BlocksResponse := { count : Z; blocks : list BlockSummary.t }.

Definition summary (block : NodeBlock.t) : BlockSummary.t :=
  {| BlockSummary.height := NodeBlock.height block;
     BlockSummary.hash := NodeBlock.hash block;
     BlockSummary.time := NodeBlock.time block;
     BlockSummary.txCount := NodeBlock.nTx block;
     BlockSummary.size := NodeBlock.size block |}.

(** Replies of the node to the calls of [rpcCall] in the endpoints below. *)
Module ExecutionResult.
Record t := { output : option string }.
End ExecutionResult.

Module CallResult.
Record t := { executionResult : option ExecutionResult.t }.
End CallResult.

Record Node := {
  getblockcount : Rpc.reply Z;
  getblockhash : Z → Rpc.reply string;
  getblock : string → Rpc.reply NodeBlock.t;
  callcontract : string → string → Rpc.reply CallResult.t;
  getcontractcode : string → Rpc.reply (option string)
}.

(** The answers of the token endpoints. *)
Module TokenInfo.
Record t := {
  address : string;
  name : string;
  symbol : string;
  decimals : num;
  totalSupply : string;
  totalSupplyFormatted : string;
  hasCode : bool
}.
End TokenInfo.

(** A result of [searchlogs], with the fields the endpoints read beside
    its [log]. *)
Record SearchHit := {
  transactionHash : string;
  blockNumber : Z;
  contractAddress : string;
  entries : SearchResult
}.

Module TransferItem.
Record t := {
  txid : string;
  blockNumber : Z;
  from : string;
  fromBase58 : string;
  to : string;
  toBase58 : string;
  value : string
}.
End TransferItem.

Record TransfersResponse := {
  totalTransfers : Z;
  transfers : list TransferItem.t
}.

Module TokenEntry.
Record t := {
  address : string;
  name : string;
  symbol : string;
  decimals : num;
  totalSupply : string;
  totalSupplyFormatted : string
}.
End TokenEntry.

Record TokensResponse := {
  totalTokens : Z;
  tokens : list TokenEntry.t
}.

Section WithNode.
Context (node : Node) (utf8 : list Byte.byte → string).

(** [for (let i = ...; i > count - limit && i >= 0; i--)], on the fuel
    of at most [fuel] turns. *)
Fixpoint blocksLoop (fuel : nat) (count limit i : Z) (blocks : list BlockSummary.t)
  : Rpc.reply (list BlockSummary.t) :=
  match fuel with
  | O => Rpc.Reply blocks
  | S fuel =>
      if (count - limit <? i) && (0 <=? i) then
        hash ← getblockhash node i;
        block ← getblock node hash;
        blocksLoop fuel count limit (i - 1) (blocks ++ [summary block])
      else Rpc.Reply blocks
  end.

(** [GET /api/blocks]. The loop counts down from [count] and stops below
    zero at the latest: [count + 1] turns are all it can take. *)
Definition getBlocks : Rpc.reply BlocksResponse :=
  count ← getblockcount node;
  let limit := Z.min 20 count in
  blocks ← blocksLoop (Z.to_nat (count + 1)) count limit count [];
  Rpc.Reply {| count := count; blocks := blocks |}.

(** *** [GET /api/token/:addr] *)

(** [res.executionResult.output], which throws when there is no
    [executionResult]. *)
Definition outputOf (res : CallResult.t) : Rpc.reply (option string) :=
  match CallResult.executionResult res with
  | Some e => Rpc.Reply (ExecutionResult.output e)
  | None => Rpc.Failure
  end.

(** [decodeUint256], whose SyntaxError ends the request. *)
Definition uint256Of (output : option string) : Rpc.reply string :=
  match decodeUint256 output with
  | Some text => Rpc.Reply text
  | None => Rpc.Failure
  end.

(** [formatTokenAmount(amount, decimals)] where [decimals] may be NaN,
    which pads and slices as 0 does. *)
Definition formatAmount (amount : string) (decimals : num) : string :=
  formatTokenAmount amount (match decimals with Int d => d | NaN => 0 end).

(** [GET /api/token/:addr]. The five calls go out together; the one
    for the code falls back to null. [codeSize] is left out. *)
Definition getToken (addr : string) : Rpc.reply TokenInfo.t :=
  nameRes ← callcontract node addr "06fdde03";
  symbolRes ← callcontract node addr "95d89b41";
  decimalsRes ← callcontract node addr "313ce567";
  totalSupplyRes ← callcontract node addr "18160ddd";
  let codeRes := Indexer.settled (getcontractcode node addr) None in
  decimalsOut ← outputOf decimalsRes;
  let decimals := parseInt16 (or_default decimalsOut "0") in
  totalSupplyOut ← outputOf totalSupplyRes;
  totalSupply ← uint256Of totalSupplyOut;
  nameOut ← outputOf nameRes;
  symbolOut ← outputOf symbolRes;
  Rpc.Reply
    {| TokenInfo.address := addr;
       TokenInfo.name := decodeString utf8 nameOut;
       TokenInfo.symbol := decodeString utf8 symbolOut;
       TokenInfo.decimals := decimals;
       TokenInfo.totalSupply := totalSupply;
       TokenInfo.totalSupplyFormatted := formatAmount totalSupply decimals;
       TokenInfo.hasCode :=
         match codeRes with Some code => truthy code | None => false end |}.

(** *** [GET /api/token/:addr/transfers] *)

(** The entry pushed for a Transfer log [l] of the result [hit]. *)
Definition transferItem (hexToBase58 : string → string) (hit : SearchHit)
    (l : Log) (value : string) : TransferItem.t :=
  let from := decodeAddress (topic l 1) in
  let to := decodeAddress (topic l 2) in
  {| TransferItem.txid := transactionHash hit;
     TransferItem.blockNumber := blockNumber hit;
     TransferItem.from := from;
     TransferItem.fromBase58 := hexToBase58 from;
     TransferItem.to := to;
     TransferItem.toBase58 := hexToBase58 to;
     TransferItem.value := value |}.

(** The inner loop, over the log entries of one result. *)
Fixpoint pushTransfers (hexToBase58 : string → string) (hit : SearchHit)
    (transfers : list TransferItem.t) (logs : list Log)
  : Rpc.reply (list TransferItem.t) :=
  match logs with
  | [] => Rpc.Reply transfers
  | l :: logs =>
      if isTransferLog l then
        value ← uint256Of (data l);
        pushTransfers hexToBase58 hit
          (transfers ++ [transferItem hexToBase58 hit l value]) logs
      else pushTransfers hexToBase58 hit transfers logs
  end.

(** The outer loop, over the results. *)
Fixpoint scanHits (hexToBase58 : string → string)
    (transfers : list TransferItem.t) (results : list SearchHit)
  : Rpc.reply (list TransferItem.t) :=
  match results with
  | [] => Rpc.Reply transfers
  | hit :: results =>
      transfers ← pushTransfers hexToBase58 hit transfers
                     (default [] (log (entries hit)));
      scanHits hexToBase58 transfers results
  end.

(** [GET /api/token/:addr/transfers], from the reply of [searchlogs] on;
    [hexToBase58] is the address conversion, which falls back to its
    argument. The reply repeats the token address, which is left out
    here. *)
Definition tokenTransfers (results : list SearchHit) (hexToBase58 : string → string)
  : Rpc.reply TransfersResponse :=
  transfers ← scanHits hexToBase58 [] results;
  Rpc.Reply {| totalTransfers := Z.of_nat (length transfers);
               transfers := reverse transfers |}.

(** *** [GET /api/tokens] *)

(** [[...new Set(l)]]: the elements of [l] without repetition, each at
    its first place. *)
Definition setOf (l : list string) : list string :=
  foldl (λ seen x, if bool_decide (x ∈ seen) then seen else seen ++ [x]) [] l.

(** The body of the [try] for one address. *)
Definition tokenEntry (addr : string) : Rpc.reply TokenEntry.t :=
  nameRes ← callcontract node addr "06fdde03";
  symbolRes ← callcontract node addr "95d89b41";
  decimalsRes ← callcontract node addr "313ce567";
  totalSupplyRes ← callcontract node addr "18160ddd";
  decimalsOut ← outputOf decimalsRes;
  let decimals := parseInt16 (or_default decimalsOut "0") in
  totalSupplyOut ← outputOf totalSupplyRes;
  totalSupply ← uint256Of totalSupplyOut;
  nameOut ← outputOf nameRes;
  symbolOut ← outputOf symbolRes;
  Rpc.Reply
    {| TokenEntry.address := addr;
       TokenEntry.name := decodeString utf8 nameOut;
       TokenEntry.symbol := decodeString utf8 symbolOut;
       TokenEntry.decimals := decimals;
       TokenEntry.totalSupply := totalSupply;
       TokenEntry.totalSupplyFormatted := formatAmount totalSupply decimals |}.

(** [try { ... } catch (e) { return null }] *)
Definition tokenOrNull (addr : string) : option TokenEntry.t :=
  match tokenEntry addr with
  | Rpc.Reply t => Some t
  | Rpc.Failure => None
  end.

(** [GET /api/tokens], from the reply of [searchlogs] on. *)
Definition listTokens (results : list SearchHit) : TokensResponse :=
  let tokenAddrs := setOf (contractAddress <$> results) in
  let tokens := tokenOrNull <$> tokenAddrs in
  {| totalTokens := Z.of_nat (length (omap id tokens));
     tokens := filter (λ t, truthy (TokenEntry.name t) = true) (omap id tokens) |}.

End WithNode.

(** *** What the node encodes

    Hexadecimal digits, as the node writes them. *)
Definition hex_char (d : N) : ascii :=
  if (d <? 10)%N then ascii_of_N (48 + d) else ascii_of_N (87 + d).

(** The last [k] hexadecimal digits of [x], most significant first: a
    word of the ABI is [hexFixed 64 x]. *)
Fixpoint hexFixed (k : nat) (x : N) : list ascii :=
  match k with
  | O => []
  | S k => hexFixed k (x / 16) ++ [hex_char (x mod 16)]
  end.

(** The hexadecimal text of bytes. *)
Definition hex_of_bytes (bs : list Byte.byte) : list ascii :=
  bs ≫= (λ b, hexFixed 2 (Byte.to_N b)).

(** The reply of a contract that returns the string of the bytes [bs]:
    a word for the offset of the string, a word for its length, its bytes,
    and zeros up to a whole number of words. *)
Definition abiString (bs : list Byte.byte) : string :=
  of_chars (hexFixed 64 32 ++ hexFixed 64 (N.of_nat (length bs))
            ++ hex_of_bytes bs
            ++ replicate (2 * ((32 - length bs mod 32) mod 32)) "0"%char).

(** The amount of a listed transfer, read back from its decimal text. *)
Definition listedAmount (t : TransferItem.t) : Z :=
  match parseInt (TransferItem.value t) with
  | Int z => z
  | NaN => 0
  end.

(** What one listed transfer adds to the balance of [a]. *)
Definition listedDelta (a : string) (t : TransferItem.t) : Z :=
  (if String.eqb (TransferItem.to t) a then listedAmount t else 0)
  - (if String.eqb (TransferItem.from t) a then listedAmount t else 0).

(** The sum of the signed amounts of [a] over listed transfers. *)
Definition listedLedger (a : string) (ts : list TransferItem.t) : Z :=
  foldr (λ t acc, listedDelta a t + acc) 0 ts.

(** A log entry whose data [decodeUint256] reads, if it is a Transfer. *)
Definition decodable (l : Log) : Prop :=
  isTransferLog l = true → is_Some (decodeUint256 (data l)).

(** A log entry whose data the holders endpoint reads, if it is a
    Transfer. *)
Definition hexData (l : Log) : Prop :=
  isTransferLog l = true → is_Some (bigint_of_hex (or_default (data l) "0")).

(** The entries of the Transfer logs of a result whose data is read, in
    order. *)
Definition itemsOf (hexToBase58 : string → string) (hit : SearchHit)
  : list TransferItem.t :=
  omap (λ l, if isTransferLog l
             then transferItem hexToBase58 hit l <$> decodeUint256 (data l)
             else None)
       (default [] (log (entries hit))).

(** The result of a call whose output is [text]. *)
Definition returned (text : string) : CallResult.t :=
  {| CallResult.executionResult :=
       Some {| ExecutionResult.output := Some text |} |}.

End Explorer.

(** ** [src/backend/src/api.js]: the endpoints that read and write the
    store alone *)
Module Api.
Import JS.

(** A JSON body, or a status with an error message. *)
Inductive Response (A : Type) : Type :=
| Json (body : A)
| Error (status : Z) (message : string).
Arguments Json {A} body.
Arguments Error {A} status message.

(** [formatAddress(addr)] *)
Definition formatAddress (addr : option string) : option string :=
  or_null (toLowerCase <$> addr).

(** [Math.min(parseInt(req.query.limit) || 25, 100)] *)
Definition pageLimit (limit : option string) : Z :=
  Z.min (or_num (parseInt_opt limit) 25) 100.

(** [parseInt(req.query.offset) || 0] *)
Definition pageOffset (offset : option string) : Z :=
  or_num (parseInt_opt offset) 0.

(** [GET /blocks] *)
Definition getBlocks (limit : option string) (s : Db.Store)
  : Response (list Db.Blocks.row) :=
  Json (Db.getLatestBlocks (pageLimit limit) s).

(** *** [GET /search] *)

Inductive SearchItem :=
| BlockItem (data : Db.Blocks.row)
| TransactionItem (data : Db.Transactions.row)
| AddressItem (address : string)
| TokenItem (data : Db.Tokens.row).

Definition getSearch (q : option string) (s : Db.Store)
  : Response (list SearchItem) :=
  match or_null q with
  | None => Error 400 "Query required"
  | Some q =>
      let query := toLowerCase (trim q) in
      let results : list SearchItem := [] in
      let results :=
        if is_digits query then
          match parseInt query with
          | Int height =>
              match Db.getBlock height s with
              | Some block => results ++ [BlockItem block]
              | None => results
              end
          | NaN => results
          end
        else results in
      let results :=
        if startsWith "0x" query && (strlen query =? 66) then
          let results :=
            match Db.getBlockByHash query s with
            | Some block => results ++ [BlockItem block]
            | None => results
            end in
          match Db.getTx query s with
          | Some tx => results ++ [TransactionItem tx]
          | None => results
          end
        else results in
      let results :=
        if (startsWith "0x" query && (strlen query =? 42))
           || (startsWith "w" query && (34 <=? strlen query)) then
          let results := results ++ [AddressItem query] in
          match Db.getToken query s with
          | Some token => results ++ [TokenItem token]
          | None => results
          end
        else results in
      Json results
  end.

(** *** [POST /contract/verify] and [GET /contract/:address] *)

(** The [abi] of a request body: a text, or an array or object, given
    by its [JSON.stringify]. *)
Inductive Abi :=
| AbiText (text : string)
| AbiValue (json : string).

(** The body of a verification request. Its texts are strings or
    absent; [optimization] counts by its truthiness. *)
Record VerifyBody := {
  address : option string;
  name : option string;
  sourceCode : option string;
  abi : option Abi;
  compilerVersion : option string;
  optimization : bool;
  constructorArgs : option string
}.

(** [abi], when it is truthy. *)
Definition abi_truthy (a : option Abi) : option Abi :=
  match a with
  | Some (AbiText text) => if truthy text then a else None
  | Some (AbiValue _) => a
  | None => None
  end.

(** [typeof abi === 'string' ? abi : JSON.stringify(abi)] *)
Definition abi_text (a : Abi) : string :=
  match a with
  | AbiText text => text
  | AbiValue json => json
  end.

(** [POST /contract/verify] at the time [now], in seconds. *)
Definition postContractVerify (now : Z) (body : VerifyBody)
    (contracts : gmap string Db.Contracts.row)
  : Response string * gmap string Db.Contracts.row :=
  match or_null (address body), or_null (sourceCode body), abi_truthy (abi body) with
  | Some address, Some sourceCode, Some abi =>
      match formatAddress (Some address) with
      | Some key =>
          (Json "Contract verified",
           Db.insertContract
             {| Db.Contracts.address := key;
                Db.Contracts.name := or_default (name body) "Unknown";
                Db.Contracts.source_code := sourceCode;
                Db.Contracts.abi := abi_text abi;
                Db.Contracts.compiler_version :=
                  or_default (compilerVersion body) "unknown";
                Db.Contracts.optimization := if optimization body then 1 else 0;
                Db.Contracts.constructor_args :=
                  or_default (constructorArgs body) "";
                Db.Contracts.verified_at := now |}
             contracts)
      | None =>
          (* not reached: the lower case of a text that is not empty is
             not empty *)
          (Json "Contract verified", contracts)
      end
  | _, _, _ => (Error 400 "Missing required fields", contracts)
  end.

(** [GET /contract/:address] *)
Definition getContract (address : string) (contracts : gmap string Db.Contracts.row)
  : Response Db.Contracts.row :=
  match Db.getContract (formatAddress (Some address)) contracts with
  | Some contract => Json contract
  | None => Error 404 "Contract not verified"
  end.

End Api.

(** ** A small chain to run the code on *)
Module Scenario.

(** Numbers that hold integers: both renderings are exact on them. *)
#[export] Instance IntegerNumbers : JsNumber Z :=
  {| number_toString := JS.toString;
     number_satoshis := λ v, JS.toString (default 0 v * 100000000) |}.

Definition tokenContract : string := "0xCCCCCCCCCCCCCCCCCCCCCCCCCCCCCCCCCCCCCCCC".

Definition data1000 : string :=
  "0x00000000000000000000000000000000000000000000000000000000000003e8".

(** The Transfer log of the spec's decoding scenario. *)
Definition transferLog : Rpc.Log.t :=
  {| Rpc.Log.address := Some tokenContract;
     Rpc.Log.topics :=
       Some [Indexer.TRANSFER_TOPIC;
             "0x000000000000000000000000aaaaaaaaaaaaaaaaaaaaaaaaaaaaaaaaaaaaaaaa";
             "0x000000000000000000000000bbbbbbbbbbbbbbbbbbbbbbbbbbbbbbbbbbbbbbbb"];
     Rpc.Log.data := Some data1000 |}.

Definition tx1 : Rpc.Tx.t Z :=
  {| Rpc.Tx.txid := "t1";
     Rpc.Tx.vout :=
       Some [ {| Rpc.Vout.value := Some 3;
                 Rpc.Vout.scriptPubKey :=
                   Some {| Rpc.ScriptPubKey.type := Some "call";
                           Rpc.ScriptPubKey.address := Some "WQx";
                           Rpc.ScriptPubKey.addresses := None;
                           Rpc.ScriptPubKey.hex := Some "a9059cbb" |} |} ] |}.

Definition block (height : Z) (hash : string) (txs : list (Rpc.TxEntry Z))
  : Rpc.Block.t Z :=
  {| Rpc.Block.height := height;
     Rpc.Block.hash := hash;
     Rpc.Block.previousblockhash := None;
     Rpc.Block.time := 1700000000 + height;
     Rpc.Block.miner := None;
     Rpc.Block.difficulty := Some 1;
     Rpc.Block.tx := Some txs;
     Rpc.Block.size := Some 300;
     Rpc.Block.nonce := Some 0;
     Rpc.Block.flags := Some "proof-of-stake" |}.

Definition block7 : Rpc.Block.t Z := block 7 "h7" [Rpc.TxObject tx1].

(** A node whose chain has the heights 0 to [top]; height 7 holds [tx1],
    whose receipt has the Transfer log; heights in [gaps] come back null;
    the token probes fail. *)
Definition node (top : Z) (gaps : list Z) : Rpc.Node Z :=
  {| Rpc.getBlockCount := Rpc.Reply top;
     Rpc.getBlock := λ h,
       if bool_decide (h ∈ gaps) then Rpc.Reply None
       else if bool_decide (0 ≤ h ≤ top) then
         Rpc.Reply (Some (if h =? 7 then block7 else block h (JS.toString h) []))
       else Rpc.Failure;
     Rpc.getTransactionReceipt := λ txid,
       if String.eqb txid "t1" then
         Rpc.Reply (Some [ {| Rpc.Receipt.log := Some [transferLog];
                              Rpc.Receipt.contractAddress := None |} ])
       else Rpc.Reply None;
     Rpc.getTokenName := λ _, Rpc.Failure;
     Rpc.getTokenSymbol := λ _, Rpc.Failure;
     Rpc.getTokenDecimals := λ _, Rpc.Failure;
     Rpc.getTokenTotalSupply := λ _, Rpc.Failure |}.

Definition world0 : Indexer.World (Num := Z) :=
  {| Indexer.store := Db.empty; Indexer.calls := []; Indexer.pending := [] |}.

(** [indexBlock(7)] on the empty store, before and after the call of
    [indexReceipt] it left behind has run. *)
Definition committed7 : Indexer.World (Num := Z) :=
  (Indexer.indexBlock (node 7 []) 7 world0).2.
Definition indexed7 : Indexer.World (Num := Z) :=
  Indexer.settle (node 7 []) committed7.

(** [indexBlock(7)] once more. *)
Definition reindexed7 : Indexer.World (Num := Z) :=
  Indexer.settle (node 7 []) (Indexer.indexBlock (node 7 []) 7 indexed7).2.

(** A reply of [searchlogs]: a mint of 100 to [alice], 30 from [alice] to
    [bob], a burn of 10 by [bob], and a log that is no Transfer. *)
Definition alice : string := "aaaaaaaaaaaaaaaaaaaaaaaaaaaaaaaaaaaaaaaa".
Definition bob : string := "bbbbbbbbbbbbbbbbbbbbbbbbbbbbbbbbbbbbbbbb".
Definition padded (a : string) : string := "000000000000000000000000" +:+ a.

Definition transferEvent (from to amount : string) : Server.Log :=
  {| Server.topics := Some [Server.TRANSFER_TOPIC; padded from; padded to];
     Server.data := Some amount |}.

Definition searchReply : list Server.SearchResult :=
  [ {| Server.log :=
         Some [transferEvent Server.ZERO_ADDRESS alice "64";
               transferEvent alice bob "1e"] |};
    {| Server.log :=
         Some [transferEvent bob Server.ZERO_ADDRESS "0a";
               {| Server.topics := Some [Server.TRANSFER_TOPIC +:+ "00"];
                  Server.data := Some "zz" |}] |} ].

End Scenario.

(** ** Sample replies for the explorer and the backend *)
Module Samples.
Import JS Explorer.
#[local] Existing Instance Scenario.IntegerNumbers.

(** [toString('utf8')] on bytes below 128, where UTF-8 is ASCII. *)
Definition ascii_text (bs : list Byte.byte) : string :=
  of_chars (ascii_of_byte <$> bs).

Definition blockAt (h : Z) : NodeBlock.t :=
  {| NodeBlock.height := h;
     NodeBlock.hash := toString h;
     NodeBlock.time := 1700000000 + h;
     NodeBlock.nTx := 1;
     NodeBlock.size := 300 |}.

(** A node with three blocks above the genesis block and one token: 1.5
    units of 8 decimals. *)
Definition explorerNode : Node :=
  {| getblockcount := Rpc.Reply 3;
     getblockhash := λ h,
       if bool_decide (0 ≤ h ≤ 3) then Rpc.Reply (toString h) else Rpc.Failure;
     getblock := λ hash,
       match parseInt hash with
       | Int h => Rpc.Reply (blockAt h)
       | NaN => Rpc.Failure
       end;
     callcontract := λ _ data,
       if String.eqb data "06fdde03" then
         Rpc.Reply (returned (abiString (list_byte_of_string "Wattx Token")))
       else if String.eqb data "95d89b41" then
         Rpc.Reply (returned (abiString (list_byte_of_string "WTX")))
       else if String.eqb data "313ce567" then
         Rpc.Reply (returned (of_chars (hexFixed 64 8)))
       else if String.eqb data "18160ddd" then
         Rpc.Reply (returned (of_chars (hexFixed 64 150000000)))
       else Rpc.Failure;
     getcontractcode := λ _, Rpc.Failure |}.

(** The results of [Scenario.searchReply], in the transactions [t7] and
    [t9]. *)
Definition searchHits : list SearchHit :=
  zip_with (λ height result,
              {| transactionHash := "t" +:+ toString height;
                 blockNumber := height;
                 contractAddress := Scenario.tokenContract;
                 entries := result |})
           [7; 9] Scenario.searchReply.

(** A store whose cursor is no number. *)
Definition strayWorld : Indexer.World (Num := Z) :=
  {| Indexer.store := Db.setIndexerState "last_block" "latest" Db.empty;
     Indexer.calls := [];
     Indexer.pending := [] |}.

(** The store after three turns of [sync] on a chain of the heights 0
    to 25. *)
Definition synced25 : Indexer.World (Num := Z) :=
  Indexer.sync_turns (Scenario.node 25 []) 3 Scenario.world0.

(** A log that is no Transfer. *)
Definition approvalLog : Rpc.Log.t :=
  {| Rpc.Log.address := Some Scenario.tokenContract;
     Rpc.Log.topics :=
       Some ["0x8c5be1e5ebec7d5bd14f71427d1e84f3dd0314c0f7b2291e5b200ac8c7c3b925"];
     Rpc.Log.data := Some Scenario.data1000 |}.

(** A verification request that leaves the optional fields out. *)
Definition verifyBody : Api.VerifyBody :=
  {| Api.address := Some Scenario.tokenContract;
     Api.name := None;
     Api.sourceCode := Some "contract Token {}";
     Api.abi := Some (Api.AbiValue "[]");
     Api.compilerVersion := None;
     Api.optimization := true;
     Api.constructorArgs := None |}.

End Samples.

(** * Properties *)

(** ** [formatTokenAmount] *)

(** C4. With [decimals = 0] the whole part is cut by [slice(0, -0)], which
    is empty, and the digits all land behind the point:
    [formatTokenAmount("100", 0)] is ["0.1"]. The two other examples of the
    claim come out as stated. *)
Theorem formatTokenAmount_decimals_zero :
  Server.formatTokenAmount "100" 0 = "0.1" ∧
  Server.formatTokenAmount "1500000000000000000" 18 = "1.5" ∧
  Server.formatTokenAmount "0" 0 = "0" ∧
  Server.formatTokenAmount "0" 18 = "0".
Proof. repeat split; reflexivity. Qed.

(** *** Decimal digits *)
Section Digits.
Import Server.

Lemma append_cons c a b : String c a +:+ b = String c (a +:+ b).
Proof. reflexivity. Qed.

Lemma append_assoc a b c : (a +:+ b) +:+ c = a +:+ (b +:+ c).
Proof. induction a as [|x a IH]; [done|]. by rewrite !append_cons, IH. Qed.

Lemma append_empty_r a : a +:+ "" = a.
Proof. induction a as [|x a IH]; [done|]. by rewrite append_cons, IH. Qed.

Lemma of_chars_app l1 l2 : JS.of_chars (l1 ++ l2) = JS.of_chars l1 +:+ JS.of_chars l2.
Proof.
  induction l1 as [|c l1 IH]; [done|].
  cbn [app JS.of_chars string_of_list_ascii]. rewrite append_cons. f_equal. exact IH.
Qed.

Lemma chars_app a b : JS.chars (a +:+ b) = JS.chars a ++ JS.chars b.
Proof.
  induction a as [|x a IH]; [done|].
  rewrite append_cons. cbn [JS.chars list_ascii_of_string app]. f_equal. exact IH.
Qed.

Lemma chars_of_chars l : JS.chars (JS.of_chars l) = l.
Proof. apply list_ascii_of_string_of_list_ascii. Qed.

Lemma of_chars_chars a : JS.of_chars (JS.chars a) = a.
Proof. apply string_of_list_ascii_of_string. Qed.

Lemma strlen_chars a : JS.strlen a = Z.of_nat (length (JS.chars a)).
Proof.
  unfold JS.strlen. f_equal. induction a as [|x a IH]; [done|]. cbn. by rewrite IH.
Qed.

Lemma length_fixedDigits k x : length (fixedDigits k x) = k.
Proof.
  revert x. induction k as [|k IH]; intros x; cbn; [done|].
  rewrite length_app, IH. cbn. lia.
Qed.

Lemma fixedDigits_zero k : fixedDigits k 0 = replicate k "0"%char.
Proof.
  induction k as [|k IH]; cbn; [done|].
  change (0 `div` 10)%N with 0%N. rewrite IH.
  change (pretty_N_char (0 `mod` 10)) with "0"%char.
  by rewrite <- replicate_cons_app.
Qed.

Lemma pow10_succ (d : nat) : (10 ^ N.of_nat (S d) = 10 * 10 ^ N.of_nat d)%N.
Proof. rewrite Nat2N.inj_succ. apply N.pow_succ_r'. Qed.

Lemma pow10_pos (d : nat) : (0 < 10 ^ N.of_nat d)%N.
Proof. apply N.neq_0_lt_0, N.pow_nonzero. done. Qed.

Lemma fixedDigits_split k d x :
  fixedDigits (k + d) x = fixedDigits k (x / 10 ^ N.of_nat d) ++ fixedDigits d x.
Proof.
  revert x. induction d as [|d IH]; intros x.
  - rewrite Nat.add_0_r. cbn. by rewrite N.div_1_r, app_nil_r.
  - rewrite Nat.add_succ_r. cbn [fixedDigits]. rewrite IH, <- app_assoc.
    do 2 f_equal. rewrite pow10_succ. by rewrite N.Div0.div_div.
Qed.

Lemma fixedDigits_mod d x : fixedDigits d (x mod 10 ^ N.of_nat d) = fixedDigits d x.
Proof.
  revert x. induction d as [|d IH]; intros x; [done|].
  cbn [fixedDigits]. rewrite pow10_succ.
  rewrite N.Div0.mod_mul_r.
  assert ((x `mod` 10 + 10 * (x `div` 10) `mod` 10 ^ N.of_nat d) `div` 10
          = (x `div` 10) `mod` 10 ^ N.of_nat d)%N as ->.
  { symmetry. apply (N.div_unique _ 10 _ (x `mod` 10)); [by apply N.mod_lt | lia]. }
  assert ((x `mod` 10 + 10 * (x `div` 10) `mod` 10 ^ N.of_nat d) `mod` 10
          = x `mod` 10)%N as ->.
  { symmetry.
    apply (N.mod_unique _ 10 ((x `div` 10) `mod` 10 ^ N.of_nat d)); [by apply N.mod_lt | lia]. }
  by rewrite IH.
Qed.

Lemma fixedDigits_small j k x :
  (x < 10 ^ N.of_nat k)%N →
  fixedDigits (j + k) x = replicate j "0"%char ++ fixedDigits k x.
Proof.
  intros Hx. rewrite fixedDigits_split, N.div_small by done.
  by rewrite fixedDigits_zero.
Qed.

(** The text of a number that has exactly [K] digits. *)
Lemma pretty_go_fixed K : ∀ x s,
  (x < 10 ^ N.of_nat K)%N →
  (K = 0%nat ∨ 10 ^ N.of_nat (K - 1) ≤ x)%N →
  pretty_N_go x s = JS.of_chars (fixedDigits K x) +:+ s.
Proof.
  induction K as [|K IH]; intros x s Hlt Hge.
  - cbn in Hlt. assert (x = 0%N) as -> by lia. by rewrite pretty_N_go_0.
  - assert (0 < x)%N as Hx.
    { destruct Hge as [|Hge]; [done|]. pose proof (pow10_pos (S K - 1)). lia. }
    rewrite pretty_N_go_step by done. rewrite pow10_succ in Hlt.
    rewrite IH.
    + cbn [fixedDigits]. by rewrite of_chars_app, append_assoc.
    + apply N.Div0.div_lt_upper_bound. lia.
    + destruct K as [|K]; [by left|right].
      destruct Hge as [|Hge]; [done|].
      replace (S (S K) - 1)%nat with (S K) in Hge by lia.
      replace (S K - 1)%nat with K by lia.
      rewrite pow10_succ in Hge. apply N.div_le_lower_bound; [done | lia].
Qed.

(** Every number has a number of digits. *)
Lemma digit_count x :
  ∃ K, (1 ≤ K)%nat ∧ (x < 10 ^ N.of_nat K)%N ∧
       ((x = 0%N ∧ K = 1%nat) ∨ (10 ^ N.of_nat (K - 1) ≤ x)%N).
Proof.
  induction (N.lt_wf_0 x) as [x _ IH].
  destruct (decide (x < 10)%N) as [Hsmall|Hbig].
  - exists 1%nat. split; [done|]. split; [done|].
    destruct (decide (x = 0%N)); [by left | right; cbn; lia].
  - destruct (IH (x `div` 10)%N) as (K & HK & Hlt & Hge).
    { apply N.div_lt; lia. }
    pose proof (N.div_mod x 10 ltac:(done)) as Hdm.
    pose proof (N.mod_lt x 10 ltac:(done)) as Hm.
    assert (1 ≤ x `div` 10)%N as Hq by (apply N.div_le_lower_bound; [done | lia]).
    revert Hlt Hge Hdm Hm Hq.
    generalize (x `div` 10)%N (x `mod` 10)%N. intros q r Hlt Hge Hdm Hm Hq.
    exists (S K). split; [lia|]. rewrite pow10_succ. split; [lia|].
    right. replace (S K - 1)%nat with (S (K - 1)) by lia. rewrite pow10_succ.
    destruct Hge as [[H0 _]|Hge]; lia.
Qed.

Lemma toString_fixed K x :
  (1 ≤ K)%nat → (x < 10 ^ N.of_nat K)%N →
  ((x = 0%N ∧ K = 1%nat) ∨ (10 ^ N.of_nat (K - 1) ≤ x)%N) →
  JS.toString (Z.of_N x) = JS.of_chars (fixedDigits K x).
Proof.
  intros HK Hlt [[-> ->]|Hge]; [done|].
  assert (0 < x)%N as Hx by (pose proof (pow10_pos (K - 1)); lia).
  destruct x as [|p]; [lia|]. cbn [Z.of_N].
  unfold JS.toString, pretty, pretty_Z, pretty, pretty_positive, pretty, pretty_N.
  rewrite decide_False by done.
  rewrite (pretty_go_fixed K) by (done || by right).
  apply append_empty_r.
Qed.

(** *** The string operations of [formatTokenAmount] *)

Lemma strip_trailing_zeros_zeros k :
  JS.strip_trailing_zeros (JS.of_chars (replicate k "0"%char)) = "".
Proof. induction k as [|k IH]; [done|]. cbn. unfold JS.of_chars in IH. by rewrite IH. Qed.

Lemma strip_trailing_zeros_empty t :
  JS.strip_trailing_zeros t = "" → Forall (λ c, c = "0"%char) (JS.chars t).
Proof.
  induction t as [|c t IH]; cbn; [constructor|].
  destruct (JS.strip_trailing_zeros t); [|done].
  destruct (Ascii.eqb_spec c "0"); [|done]. intros _. constructor; auto.
Qed.

Lemma strip_trailing_zeros_chars t c :
  c ∈ JS.chars (JS.strip_trailing_zeros t) → c ∈ JS.chars t.
Proof.
  induction t as [|x t IH]; cbn; [done|].
  destruct (JS.strip_trailing_zeros t) as [|y t'].
  - destruct (Ascii.eqb x "0"); cbn; [by intros ?%elem_of_nil|].
    intros ->%list_elem_of_singleton. by left.
  - cbn. intros [->|Hc]%elem_of_cons; [by left|]. right. by apply IH.
Qed.

Lemma strip_final_dot_dot a : JS.strip_final_dot (a +:+ ".") = a.
Proof.
  induction a as [|x a IH]; [done|]. rewrite append_cons. cbn [JS.strip_final_dot].
  rewrite IH. destruct a; reflexivity.
Qed.

Lemma strip_final_dot_same t :
  t ≠ "" → "."%char ∉ JS.chars t → JS.strip_final_dot t = t.
Proof.
  induction t as [|x t IH]; [done|]. intros _ Hdot. cbn in Hdot.
  apply not_elem_of_cons in Hdot as [Hx Hdot]. cbn [JS.strip_final_dot].
  destruct t as [|y t].
  - destruct (Ascii.eqb_spec x "."); [by subst|done].
  - f_equal. by apply IH.
Qed.

Lemma strip_final_dot_app a t :
  t ≠ "" → "."%char ∉ JS.chars t → JS.strip_final_dot (a +:+ t) = a +:+ t.
Proof.
  intros Ht Hdot. induction a as [|x a IH]; [by apply strip_final_dot_same|].
  rewrite append_cons. cbn [JS.strip_final_dot]. rewrite IH.
  destruct (a +:+ t) eqn:Hat; [|done].
  destruct a; [by subst | done].
Qed.

(** The two slices of [formatTokenAmount] cut a string in two. *)
Lemma slices l1 l2 :
  (1 ≤ length l2)%nat →
  let str := JS.of_chars (l1 ++ l2) in
  let d := Z.of_nat (length l2) in
  JS.slice str 0 (- d) = JS.of_chars l1 ∧ JS.slice_from str (- d) = JS.of_chars l2.
Proof.
  intros Hl2 str d. unfold JS.slice_from, JS.slice.
  rewrite !strlen_chars. subst str. rewrite chars_of_chars, length_app.
  unfold JS.rel_index.
  rewrite !(proj2 (Z.ltb_lt (- d) 0)) by (subst d; lia).
  rewrite !(proj2 (Z.ltb_ge _ 0)) by lia.
  split; f_equal.
  - match goal with |- take ?n (drop ?m _) = _ =>
      replace n with (length l1) by (subst d; lia); replace m with 0%nat by lia
    end.
    by rewrite drop_0, take_app_length.
  - match goal with |- take ?n (drop ?m _) = _ =>
      replace n with (length l2) by (subst d; lia);
      replace m with (length l1) by (subst d; lia)
    end.
    rewrite drop_app_length. by rewrite firstn_all.
Qed.

Lemma chars_padStart t target :
  JS.chars (JS.padStart t target "0")
  = replicate (Z.to_nat (target - JS.strlen t)) "0"%char ++ JS.chars t.
Proof. unfold JS.padStart. by rewrite chars_app, chars_of_chars. Qed.

Lemma fixedDigits_digits k x : "."%char ∉ fixedDigits k x.
Proof.
  revert x. induction k as [|k IH]; intros x; cbn; [apply not_elem_of_nil|].
  rewrite elem_of_app, list_elem_of_singleton. intros [?|Hc]; [by eapply IH|].
  unfold pretty_N_char in Hc. by repeat case_match.
Qed.

Lemma fixedDigits_all_zero d x :
  Forall (λ c, c = "0"%char) (fixedDigits d x) → (x mod 10 ^ N.of_nat d = 0)%N.
Proof.
  revert x. induction d as [|d IH]; intros x; cbn [fixedDigits].
  - intros _. cbn. apply N.mod_1_r.
  - intros [Hhigh Hlow]%Forall_app. apply Forall_inv in Hlow.
    rewrite pow10_succ, N.Div0.mod_mul_r, (IH _ Hhigh).
    apply (pretty_N_char_inj _ 0) in Hlow; [lia | by apply N.mod_lt | done].
Qed.

(** A number on [d] digits, padded as [padStart] pads its text. *)
Lemma padStart_fixed (d : nat) r :
  (1 ≤ d)%nat → (r < 10 ^ N.of_nat d)%N →
  JS.padStart (JS.toString (Z.of_N r)) (Z.of_nat d) "0" = JS.of_chars (fixedDigits d r).
Proof.
  intros Hd Hr. destruct (digit_count r) as (K & HK & Hlt & Hge).
  assert (K ≤ d)%nat as HKd.
  { destruct Hge as [[_ ->]|Hge]; [done|].
    assert (10 ^ N.of_nat (K - 1) < 10 ^ N.of_nat d)%N as Hpow by lia.
    apply N.pow_lt_mono_r_iff in Hpow; [lia | done]. }
  rewrite <- (of_chars_chars (JS.padStart _ _ _)). f_equal.
  rewrite chars_padStart, (toString_fixed K) by done.
  rewrite strlen_chars, chars_of_chars, length_fixedDigits.
  replace d with ((d - K) + K)%nat at 2 by lia.
  rewrite fixedDigits_small by done. f_equal. f_equal. lia.
Qed.

(** The text [formatTokenAmount] cuts, on at least [d + 1] digits. *)
Lemma padded_amount (d : nat) n :
  (1 ≤ d)%nat →
  ∃ M, (d + 1 ≤ M)%nat ∧
    JS.padStart (JS.toString (Z.of_N n)) (Z.of_nat d + 1) "0"
      = JS.of_chars (fixedDigits M n) ∧
    JS.toString (Z.of_N (n / 10 ^ N.of_nat d))
      = JS.of_chars (fixedDigits (M - d) (n / 10 ^ N.of_nat d)).
Proof.
  intros Hd. destruct (digit_count n) as (K & HK & Hlt & Hge).
  assert (∀ j, JS.padStart (JS.toString (Z.of_N n)) (Z.of_nat d + 1) "0"
               = JS.of_chars (fixedDigits (j + K) n) ↔ j = (d + 1 - K)%nat) as Hpad.
  { intros j. rewrite <- (of_chars_chars (JS.padStart _ _ _)).
    rewrite chars_padStart, (toString_fixed K) by done.
    rewrite strlen_chars, chars_of_chars, length_fixedDigits.
    rewrite fixedDigits_small by done.
    replace (Z.to_nat (Z.of_nat d + 1 - Z.of_nat K)) with (d + 1 - K)%nat
      by (clear; lia).
    split; [|by intros ->].
    intros Heq%(f_equal JS.chars)%(f_equal length).
    rewrite !chars_of_chars, !length_app, !length_replicate in Heq.
    by apply Nat.add_cancel_r in Heq. }
  destruct (decide (d + 1 ≤ K)%nat) as [Hlong|Hshort].
  - exists K. split; [done|]. split.
    + apply (Hpad 0%nat). lia.
    + assert (n ≠ 0%N ∧ (10 ^ N.of_nat (K - 1) ≤ n)%N) as [Hn Hge'].
      { destruct Hge as [[_ ->]|Hge]; [lia|]. split; [|done].
        pose proof (pow10_pos (K - 1)). lia. }
      assert (10 ^ N.of_nat K = 10 ^ N.of_nat d * 10 ^ N.of_nat (K - d))%N as HpowK.
      { rewrite <- N.pow_add_r. f_equal. lia. }
      assert (10 ^ N.of_nat (K - 1) = 10 ^ N.of_nat d * 10 ^ N.of_nat (K - d - 1))%N
        as HpowK1.
      { rewrite <- N.pow_add_r. f_equal. lia. }
      apply toString_fixed; [lia | |].
      * apply N.Div0.div_lt_upper_bound. by rewrite <- HpowK.
      * right. apply N.div_le_lower_bound; [apply N.pow_nonzero; done|].
        by rewrite <- HpowK1.
  - exists (d + 1)%nat. split; [done|]. split.
    + replace (d + 1)%nat with ((d + 1 - K) + K)%nat by lia. by apply Hpad.
    + assert (n / 10 ^ N.of_nat d = 0)%N as ->.
      { apply N.div_small. eapply N.lt_le_trans; [exact Hlt|].
        apply N.pow_le_mono_r; [done | lia]. }
      by replace (d + 1 - d)%nat with 1%nat by lia.
Qed.

(** For one decimal or more, [formatTokenAmount] renders the amount
    divided by [10^decimals]. *)
Theorem formatTokenAmount_divides (n : N) (d : nat) :
  (1 ≤ d)%nat →
  formatTokenAmount (JS.toString (Z.of_N n)) (Z.of_nat d) = amountText n d.
Proof.
  intros Hd. unfold formatTokenAmount, amountText.
  destruct (padded_amount d n Hd) as (M & HM & -> & Hq).
  set (q := (n / 10 ^ N.of_nat d)%N) in *.
  assert (fixedDigits M n = fixedDigits (M - d) q ++ fixedDigits d n) as ->.
  { subst q. rewrite <- fixedDigits_split. f_equal. lia. }
  destruct (slices (fixedDigits (M - d) q) (fixedDigits d n)) as [Hwhole Hfrac].
  { rewrite length_fixedDigits. lia. }
  rewrite length_fixedDigits in Hwhole, Hfrac. rewrite Hwhole, Hfrac, <- Hq.
  assert (JS.or_str (JS.toString (Z.of_N q)) "0" = JS.toString (Z.of_N q)) as ->.
  { rewrite Hq. destruct (M - d)%nat as [|k] eqn:Hk; [lia|]. cbn [fixedDigits].
    by destruct (fixedDigits k (q `div` 10)). }
  assert (JS.truthy (JS.of_chars (fixedDigits d n)) = true) as ->.
  { destruct d as [|k]; [lia|]. cbn [fixedDigits].
    by destruct (fixedDigits k (n `div` 10)). }
  rewrite padStart_fixed by (done || by apply N.mod_lt, N.pow_nonzero).
  rewrite fixedDigits_mod.
  destruct (N.eqb_spec (n `mod` 10 ^ N.of_nat d) 0) as [Hr|Hr].
  - rewrite <- (fixedDigits_mod d n), Hr, fixedDigits_zero, strip_trailing_zeros_zeros.
    by rewrite strip_final_dot_dot.
  - rewrite <- append_assoc. apply strip_final_dot_app.
    + intros Hempty%strip_trailing_zeros_empty. rewrite chars_of_chars in Hempty.
      by apply fixedDigits_all_zero in Hempty.
    + intros Hdot%strip_trailing_zeros_chars. rewrite chars_of_chars in Hdot.
      by apply fixedDigits_digits in Hdot.
Qed.

(** With no decimals the amount lands behind the point. *)
Lemma formatTokenAmount_no_decimals amount :
  amount ≠ "" →
  formatTokenAmount amount 0
  = JS.strip_final_dot ("0." +:+ JS.strip_trailing_zeros amount).
Proof.
  intros Hne. unfold formatTokenAmount.
  assert (JS.padStart amount (0 + 1) "0" = amount) as ->.
  { unfold JS.padStart. destruct amount as [|c t]; [done|].
    unfold JS.strlen. cbn [String.length].
    by replace (Z.to_nat _) with 0%nat by lia. }
  assert (JS.slice amount 0 (- 0) = "") as ->.
  { unfold JS.slice, JS.rel_index. change (- 0) with 0. change (0 <? 0) with false.
    cbv iota. rewrite Z.min_l by (unfold JS.strlen; lia). by rewrite Z.sub_diag. }
  assert (JS.slice_from amount (- 0) = amount) as ->.
  { unfold JS.slice_from, JS.slice, JS.rel_index.
    change (- 0) with 0. change (0 <? 0) with false.
    rewrite (proj2 (Z.ltb_ge _ 0)) by (unfold JS.strlen; lia).
    rewrite Z.min_id, Z.min_l by (unfold JS.strlen; lia).
    rewrite strlen_chars, Z.sub_0_r, Nat2Z.id. change (Z.to_nat 0) with 0%nat.
    by rewrite drop_0, firstn_all, of_chars_chars. }
  by destruct amount.
Qed.

(** Zero is rendered as ["0"] whatever the decimals. *)
Lemma formatTokenAmount_zero (d : nat) : formatTokenAmount "0" (Z.of_nat d) = "0".
Proof.
  destruct d as [|d]; [done|].
  change "0" with (JS.toString (Z.of_N 0)) at 1.
  rewrite (formatTokenAmount_divides 0 (S d)) by lia.
  unfold amountText. by rewrite N.Div0.mod_0_l, N.Div0.div_0_l.
Qed.

End Digits.

(** ** The indexer on the small chain *)

(** C2. On the Transfer log of the decoding scenario, in the store that
    holds its transaction, [indexLog] writes a TokenTransfer whose [from]
    and [to] are the low twenty bytes of the topics, and whose [value] is
    the [data] field as it came, not the decimal ["1000"] that
    [decodeUint256] of the explorer gives for it. *)
Theorem indexLog_stores_raw_value :
  let w := (Indexer.indexLog (Scenario.node 7 []) "t1" Scenario.transferLog
              Scenario.block7 0 Scenario.committed7).2 in
  is_Some (Db.transactions (Indexer.store Scenario.committed7) !! "t1") ∧
  Db.token_transfers (Indexer.store Scenario.committed7) = [] ∧
  Db.token_transfers (Indexer.store w) =
    [ {| Db.TokenTransfers.tx_hash := "t1";
         Db.TokenTransfers.log_index := 0;
         Db.TokenTransfers.token_address := "0xcccccccccccccccccccccccccccccccccccccccc";
         Db.TokenTransfers.from_address := "0xaaaaaaaaaaaaaaaaaaaaaaaaaaaaaaaaaaaaaaaa";
         Db.TokenTransfers.to_address := "0xbbbbbbbbbbbbbbbbbbbbbbbbbbbbbbbbbbbbbbbb";
         Db.TokenTransfers.value := Some Scenario.data1000;
         Db.TokenTransfers.block_height := 7;
         Db.TokenTransfers.timestamp := 1700000007 |} ] ∧
  Scenario.data1000 ≠ "1000" ∧
  Server.decodeUint256
    (Some "00000000000000000000000000000000000000000000000000000000000003e8")
  = Some "1000".
Proof.
  split_and!; [vm_compute; by eexists | vm_compute; reflexivity
              | vm_compute; reflexivity | discriminate | vm_compute; reflexivity].
Qed.

(** C1. Indexing height 7 a second time leaves the Block and Transaction
    rows as they were, and adds a second EventLog row and a second
    TokenTransfer row for the same (tx hash, log index). *)
Theorem reindex_duplicates_rows :
  let once := Indexer.store Scenario.indexed7 in
  let twice := Indexer.store Scenario.reindexed7 in
  Db.blocks twice = Db.blocks once ∧
  Db.transactions twice = Db.transactions once ∧
  (λ r, (Db.EventLogs.tx_hash r, Db.EventLogs.log_index r)) <$> Db.event_logs once
    = [("t1", 0)] ∧
  (λ r, (Db.EventLogs.tx_hash r, Db.EventLogs.log_index r)) <$> Db.event_logs twice
    = [("t1", 0); ("t1", 0)] ∧
  (λ r, (Db.TokenTransfers.tx_hash r, Db.TokenTransfers.log_index r))
    <$> Db.token_transfers once = [("t1", 0)] ∧
  (λ r, (Db.TokenTransfers.tx_hash r, Db.TokenTransfers.log_index r))
    <$> Db.token_transfers twice = [("t1", 0); ("t1", 0)].
Proof. repeat split; vm_compute; reflexivity. Qed.

(** C3. When [indexBlock(7)] returns, its transaction has committed the
    Block row and the Transaction row, and no EventLog, Token or
    TokenTransfer row of the block: those are written one statement at a
    time by the call of [indexReceipt] that was left waiting. *)
Theorem indexBlock_commits_before_logs :
  let committed := Indexer.store Scenario.committed7 in
  let settled := Indexer.store Scenario.indexed7 in
  is_Some (Db.blocks committed !! 7) ∧
  is_Some (Db.transactions committed !! "t1") ∧
  Db.event_logs committed = [] ∧
  Db.tokens committed = ∅ ∧
  Db.token_transfers committed = [] ∧
  length (Indexer.pending Scenario.committed7) = 1%nat ∧
  length (Db.event_logs settled) = 1%nat ∧
  is_Some (Db.tokens settled !! "0xcccccccccccccccccccccccccccccccccccccccc") ∧
  length (Db.token_transfers settled) = 1%nat.
Proof.
  repeat split; try (vm_compute; reflexivity); vm_compute; eexists; reflexivity.
Qed.

(** ** The cursor survives its trip through the store as text *)
Section Cursor.

Lemma dec_digit_char d : (d < 10)%N → JS.dec_digit (pretty_N_char d) = Some d.
Proof.
  intros Hd.
  assert (d = 0 ∨ d = 1 ∨ d = 2 ∨ d = 3 ∨ d = 4 ∨ d = 5 ∨ d = 6 ∨ d = 7
          ∨ d = 8 ∨ d = 9)%N as Hcases by lia.
  destruct_or!; subst; reflexivity.
Qed.

Lemma dec_go_pretty x s : JS.dec_go 0 (pretty_N_go x s) = JS.dec_go x s.
Proof.
  revert s. induction (N.lt_wf_0 x) as [x _ IH]. intros s.
  destruct (decide (x = 0)%N) as [->|Hx]; [by rewrite pretty_N_go_0|].
  rewrite pretty_N_go_step by lia.
  rewrite IH by (apply N.div_lt; lia).
  cbn [JS.dec_go]. rewrite dec_digit_char by (by apply N.mod_lt).
  f_equal. symmetry. by apply N.div_mod.
Qed.

(** The text of a positive number starts with a digit other than zero. *)
Lemma pretty_go_head x s :
  (0 < x)%N →
  ∃ c r d, pretty_N_go x s = String c r ∧ JS.dec_digit c = Some d ∧ (0 < d)%N.
Proof.
  revert s. induction (N.lt_wf_0 x) as [x _ IH]. intros s Hx.
  rewrite pretty_N_go_step by done.
  destruct (decide (x `div` 10 = 0)%N) as [Hq|Hq].
  - rewrite Hq, pretty_N_go_0. eexists _, _, (x `mod` 10)%N.
    split; [done|]. split; [apply dec_digit_char; by apply N.mod_lt|].
    pose proof (N.div_mod x 10 ltac:(done)) as Hdm. rewrite Hq in Hdm. lia.
  - apply IH; [apply N.div_lt; lia | by apply N.neq_0_lt_0].
Qed.

Lemma parse_magnitude_pretty x :
  (0 < x)%N → JS.parse_magnitude (pretty_N_go x "") = Some x.
Proof.
  intros Hx. destruct (pretty_go_head x "" Hx) as (c & r & d & Heq & Hc & Hd).
  pose proof (dec_go_pretty x "") as Hgo. rewrite Heq in *.
  assert (JS.parse_magnitude (String c r) = Some (JS.dec_go 0 (String c r))) as ->.
  { unfold JS.parse_magnitude. rewrite Hc.
    destruct c as [[] [] [] [] [] [] [] []]; try done.
    cbn in Hc. injection Hc as <-. lia. }
  by rewrite Hgo.
Qed.

Lemma space_free_head c r d :
  JS.dec_digit c = Some d → JS.skip_space (String c r) = String c r.
Proof. intros Hc. by destruct c as [[] [] [] [] [] [] [] []]. Qed.

Lemma parseInt_pretty_pos p :
  JS.parseInt (pretty_N_go (N.pos p) "") = JS.Int (Z.pos p).
Proof.
  assert (0 < N.pos p)%N as Hp by lia.
  destruct (pretty_go_head _ "" Hp) as (c & r & d & Heq & Hc & Hd).
  unfold JS.parseInt. pose proof (parse_magnitude_pretty _ Hp) as Hm.
  rewrite Heq in *. rewrite (space_free_head _ _ _ Hc).
  assert ((match String c r with
           | String "-" r0 => (true, r0)
           | String "+" r0 => (false, r0)
           | _ => (false, String c r)
           end) = (false, String c r)) as ->.
  { by destruct c as [[] [] [] [] [] [] [] []]. }
  by rewrite Hm.
Qed.

Lemma parseInt_toString z : JS.parseInt (JS.toString z) = JS.Int z.
Proof.
  destruct z as [|p|p]; [done|..].
  - apply parseInt_pretty_pos.
  - unfold JS.toString, pretty, pretty_Z, pretty, pretty_positive, pretty, pretty_N.
    rewrite decide_False by done.
    unfold JS.parseInt.
    change ("-" +:+ pretty_N_go (N.pos p) "")
      with (String "-" (pretty_N_go (N.pos p) "")).
    cbn -[pretty_N_go JS.parse_magnitude].
    rewrite parse_magnitude_pretty by lia. done.
Qed.

End Cursor.

(** ** The indexer against any node *)
Section IndexerFacts.
Context {Num : Type} `{!JsNumber Num} (node : Rpc.Node Num).
Import Indexer.

Abbreviation M := (Indexer.M (Num := Num)).
Abbreviation World := (Indexer.World (Num := Num)).
Implicit Types (block : Rpc.Block.t Num).

Lemma bind_eq {A B} (m : M A) (k : A → M B) (w : World) :
  (m ≫= k) w =
  match m w with
  | (Return a, w') => k a w'
  | (Throw e, w') => (Throw e, w')
  end.
Proof. reflexivity. Qed.

(** *** Statements under the foreign keys *)

Lemma statement_pass ok f (w : World) :
  ok (store w) = true →
  statement ok f w =
  (Return tt, {| store := f (store w); calls := calls w; pending := pending w |}).
Proof. intros Hok. unfold statement. by rewrite Hok. Qed.

Lemma statement_fail ok f (w : World) :
  ok (store w) = false → statement ok f w = (Throw SqliteError, w).
Proof. intros Hok. unfold statement. by rewrite Hok. Qed.

(** *** [detectToken] *)

Lemma probe_eq {A} (c : Rpc.Call) (r : Rpc.reply A) (d : A) (w : World) :
  probe c r d w =
  (Return (settled r d),
   {| store := store w; calls := calls w ++ [c]; pending := pending w |}).
Proof. unfold probe, try_catch, await. destruct r; reflexivity. Qed.

Lemma detectToken_existing address row (w : World) :
  Db.getToken (JS.toLowerCase address) (store w) = Some row →
  detectToken node address w = (Return (Existing row), w).
Proof.
  intros Hrow. unfold detectToken. rewrite bind_eq. cbn [read_store].
  rewrite Hrow. reflexivity.
Qed.

Lemma detectToken_fresh address (w : World) :
  Db.getToken (JS.toLowerCase address) (store w) = None →
  let name := settled (Rpc.getTokenName node address) "Unknown" in
  let symbol := settled (Rpc.getTokenSymbol node address) "???" in
  let decimals := settled (Rpc.getTokenDecimals node address) 18 in
  let totalSupply := settled (Rpc.getTokenTotalSupply node address) "0" in
  detectToken node address w =
  (Return (Probed address name symbol decimals totalSupply),
   {| store :=
        Db.insertToken
          {| Db.Tokens.address := JS.toLowerCase address;
             Db.Tokens.name := name;
             Db.Tokens.symbol := symbol;
             Db.Tokens.decimals := decimals;
             Db.Tokens.total_supply := totalSupply;
             Db.Tokens.owner := None |}
          (store w);
      calls := calls w ++ [Rpc.GetTokenName address; Rpc.GetTokenSymbol address;
                           Rpc.GetTokenDecimals address;
                           Rpc.GetTokenTotalSupply address];
      pending := pending w |}).
Proof.
  intros Hrow. unfold detectToken. rewrite bind_eq. cbn [read_store].
  rewrite Hrow. unfold try_catch at 1.
  do 4 (rewrite bind_eq, probe_eq). rewrite bind_eq. cbn.
  rewrite <- !app_assoc. reflexivity.
Qed.

Lemma detectToken_returns address (w : World) :
  ∃ d w', detectToken node address w = (Return d, w') ∧
    pending w' = pending w ∧
    Db.blocks (store w') = Db.blocks (store w) ∧
    Db.transactions (store w') = Db.transactions (store w) ∧
    Db.event_logs (store w') = Db.event_logs (store w) ∧
    Db.token_transfers (store w') = Db.token_transfers (store w) ∧
    Db.indexer_state (store w') = Db.indexer_state (store w) ∧
    is_Some (Db.tokens (store w') !! JS.toLowerCase address) ∧
    (∀ k, is_Some (Db.tokens (store w) !! k) → is_Some (Db.tokens (store w') !! k)).
Proof.
  destruct (Db.getToken (JS.toLowerCase address) (store w)) as [row|] eqn:Hrow.
  - eexists _, _. split; [apply (detectToken_existing _ _ _ Hrow)|].
    split_and!; done.
  - eexists _, _. split; [apply (detectToken_fresh _ _ Hrow)|].
    cbn. split_and!; try done.
    + by rewrite lookup_insert_eq.
    + intros k Hk. rewrite lookup_insert. by case_decide.
Qed.

(** *** Rules for [keeps] *)
Section Keeps.
Context (I : Db.Store → Prop).

Lemma keeps_ret {A} (a : A) : keeps I (mret a : M A).
Proof. intros w HI. exact HI. Qed.

Lemma keeps_throw {A} e : keeps I (throw e : M A).
Proof. intros w HI. exact HI. Qed.

Lemma keeps_bind {A B} (m : M A) (k : A → M B) :
  keeps I m → (∀ a, keeps I (k a)) → keeps I (m ≫= k).
Proof.
  intros Hm Hk w HI. rewrite bind_eq. specialize (Hm w HI).
  destruct (m w) as [[a|e] w']; cbn in *; [by apply Hk | done].
Qed.

Lemma keeps_try_catch {A} (m : M A) (h : exn → M A) :
  keeps I m → (∀ e, keeps I (h e)) → keeps I (try_catch m h).
Proof.
  intros Hm Hh w HI. unfold try_catch. specialize (Hm w HI).
  destruct (m w) as [[a|e] w']; cbn in *; [done | by apply Hh].
Qed.

Lemma keeps_run (f : Db.Store → Db.Store) :
  (∀ s, I s → I (f s)) → keeps I (run f : M unit).
Proof. intros Hf w HI. by apply Hf. Qed.

(** A statement that fails writes nothing. *)
Lemma keeps_statement ok (f : Db.Store → Db.Store) :
  (∀ s, I s → ok s = true → I (f s)) → keeps I (statement ok f : M unit).
Proof.
  intros Hf w HI. unfold statement.
  destruct (ok (store w)) eqn:Hok; [by apply Hf | done].
Qed.

Lemma keeps_await {A} c (r : Rpc.reply A) : keeps I (await c r : M A).
Proof. intros w HI. unfold await. by destruct r. Qed.

Lemma keeps_defer d : keeps I (defer d : M unit).
Proof. intros w HI. exact HI. Qed.

Lemma keeps_request c : keeps I (request c : M unit).
Proof. intros w HI. exact HI. Qed.

Lemma keeps_promised {A} (r : Rpc.reply A) : keeps I (promised r : M A).
Proof. intros w HI. unfold promised. by destruct r. Qed.

Lemma keeps_read_store : keeps I (read_store : M Db.Store).
Proof. intros w HI. exact HI. Qed.

Lemma keeps_db_transaction {A} (m : M A) :
  keeps I m → keeps I (db_transaction m).
Proof.
  intros Hm w HI. unfold db_transaction. specialize (Hm w HI).
  destruct (m w) as [[a|e] w']; cbn in *; done.
Qed.

Lemma keeps_for_each {A} (body : Z → A → M unit) l :
  (∀ i x, keeps I (body i x)) → ∀ i, keeps I (for_each body i l).
Proof.
  intros Hbody. induction l as [|x l IH]; intros i; cbn [for_each].
  - apply keeps_ret.
  - apply keeps_bind; [apply Hbody | intros _; apply IH].
Qed.
End Keeps.

Lemma toLowerCase_idemp s : JS.toLowerCase (JS.toLowerCase s) = JS.toLowerCase s.
Proof.
  induction s as [|c s IH]; [done|]. cbn. rewrite IH. f_equal.
  by destruct c as [[] [] [] [] [] [] [] []].
Qed.

(** *** [indexLog], case by case *)

Lemma insertLog_ok_stored txid log block i (s : Db.Store) :
  Db.insertLog_ok (eventRow txid log block i) s
  = bool_decide (is_Some (Db.transactions s !! txid)).
Proof. reflexivity. Qed.

(** Without the Transaction row of [txid] the first statement fails. *)
Lemma indexLog_refused txid log block i (w : World) :
  Db.transactions (store w) !! txid = None →
  indexLog node txid log block i w = (Throw SqliteError, w).
Proof.
  intros Htx. unfold indexLog. rewrite bind_eq, statement_fail; [done|].
  rewrite insertLog_ok_stored, Htx. apply bool_decide_eq_false. by intros [? ?].
Qed.

(** A log that is no Transfer of three topics: the row of the log, and
    no more. *)
Lemma indexLog_other txid log block i (w : World) :
  is_Some (Db.transactions (store w) !! txid) →
  isTransferEvent log = false →
  indexLog node txid log block i w =
    (Return tt, {| store := Db.insertLog (eventRow txid log block i) (store w);
                   calls := calls w; pending := pending w |}).
Proof.
  intros Htx Hno. unfold indexLog, isTransferEvent in *.
  rewrite bind_eq, statement_pass
    by (rewrite insertLog_ok_stored; by apply bool_decide_eq_true).
  destruct (default [] (Rpc.Log.topics log)) as [|t0 [|t1 [|t2 rest]]]; try done.
  by rewrite Hno.
Qed.

(** A Transfer log without an address: the row of the log, and a
    TypeError. *)
Lemma indexLog_no_address txid log block i (w : World) :
  is_Some (Db.transactions (store w) !! txid) →
  isTransferEvent log = true →
  Rpc.Log.address log = None →
  indexLog node txid log block i w =
    (Throw TypeError, {| store := Db.insertLog (eventRow txid log block i) (store w);
                         calls := calls w; pending := pending w |}).
Proof.
  intros Htx Hyes Haddr. unfold indexLog, isTransferEvent in *.
  rewrite bind_eq, statement_pass
    by (rewrite insertLog_ok_stored; by apply bool_decide_eq_true).
  destruct (default [] (Rpc.Log.topics log)) as [|t0 [|t1 [|t2 rest]]]; try done.
  by rewrite Hyes, Haddr.
Qed.

(** A Transfer log with an address: the row of the log, then
    [detectToken], then the row of the transfer, in the store that
    [detectToken] left. *)
Lemma indexLog_transfer txid log block i a topic1 topic2 rest (w : World) :
  is_Some (Db.transactions (store w) !! txid) →
  Rpc.Log.topics log = Some (TRANSFER_TOPIC :: topic1 :: topic2 :: rest) →
  Rpc.Log.address log = Some a →
  let w0 := {| store := Db.insertLog (eventRow txid log block i) (store w);
               calls := calls w; pending := pending w |} in
  let w1 := (detectToken node (JS.toLowerCase a) w0).2 in
  let row := transferRow txid log block i (JS.toLowerCase a) topic1 topic2 in
  indexLog node txid log block i w =
    (Return tt, {| store := Db.insertTransfer row (store w1);
                   calls := calls w1; pending := pending w1 |}) ∧
  is_Some (Db.tokens (store w1) !! JS.toLowerCase a) ∧
  Db.token_transfers (store w1) = Db.token_transfers (store w) ∧
  Db.event_logs (store w1)
    = Db.event_logs (store w) ++ [eventRow txid log block i] ∧
  (∀ k, is_Some (Db.tokens (store w) !! k) → is_Some (Db.tokens (store w1) !! k)).
Proof.
  intros Htx Htopics Haddr w0 w1 row. unfold indexLog.
  rewrite bind_eq, statement_pass
    by (rewrite insertLog_ok_stored; by apply bool_decide_eq_true).
  fold w0. rewrite Htopics, Haddr. cbn [default from_option id].
  rewrite String.eqb_refl. rewrite bind_eq. cbn [mret M_ret ret].
  rewrite bind_eq. subst w1.
  destruct (detectToken_returns (JS.toLowerCase a) w0)
    as (d & w1 & -> & _ & _ & Htxs & Hlogs & Htt & _ & Hsome & Hmono).
  cbn [snd]. rewrite toLowerCase_idemp in Hsome.
  split_and!; [|done|done|by rewrite Hlogs|done].
  apply statement_pass. unfold Db.insertTransfer_ok. apply andb_true_iff. split.
  - apply bool_decide_eq_true. by rewrite Htxs.
  - by apply bool_decide_eq_true.
Qed.

(** *** Token rows and TokenTransfer rows *)

Lemma references_frame (s s' : Db.Store) :
  Db.token_transfers s' = Db.token_transfers s →
  (∀ k, is_Some (Db.tokens s !! k) → is_Some (Db.tokens s' !! k)) →
  transfers_reference_tokens s → transfers_reference_tokens s'.
Proof.
  intros Htt Htok Hs r Hr. rewrite Htt in Hr. apply Htok, Hs, Hr.
Qed.

Lemma references_insertTransfer (s : Db.Store) r :
  is_Some (Db.tokens s !! Db.TokenTransfers.token_address r) →
  transfers_reference_tokens s →
  transfers_reference_tokens (Db.insertTransfer r s).
Proof.
  intros Hr Hs r' Hr'. cbn in *.
  apply elem_of_app in Hr' as [Hold | ->%list_elem_of_singleton]; [by apply Hs | done].
Qed.

Lemma keeps_references_detectToken address :
  keeps transfers_reference_tokens (detectToken node address).
Proof.
  intros w HI.
  destruct (detectToken_returns address w)
    as (d & w' & -> & _ & _ & _ & _ & Htt & _ & _ & Hmono).
  by eapply references_frame.
Qed.

Lemma keeps_references_indexLog txid log block i :
  keeps transfers_reference_tokens (indexLog node txid log block i).
Proof.
  unfold indexLog. apply keeps_bind; [by apply keeps_statement | intros _].
  destruct (default [] (Rpc.Log.topics log)) as [|t0 [|t1 [|t2 rest]]];
    try apply keeps_ret.
  destruct (String.eqb t0 TRANSFER_TOPIC); [|apply keeps_ret].
  apply keeps_bind;
    [destruct (Rpc.Log.address log); [apply keeps_ret | apply keeps_throw]|].
  intros tokenAddress.
  apply keeps_bind; [apply keeps_references_detectToken | intros _].
  apply keeps_statement. intros s Hs Hok.
  apply references_insertTransfer; [|done].
  unfold Db.insertTransfer_ok in Hok. apply andb_true_iff in Hok as [_ Hok].
  by apply bool_decide_eq_true in Hok.
Qed.

Lemma keeps_references_indexReceiptWith fetch txid block :
  keeps transfers_reference_tokens fetch →
  keeps transfers_reference_tokens (indexReceiptWith node fetch txid block).
Proof.
  intros Hfetch.
  unfold indexReceiptWith. apply keeps_try_catch; [|intros _; apply keeps_ret].
  apply keeps_bind; [apply Hfetch | intros [receipts|]]; [|apply keeps_ret].
  apply keeps_for_each. intros _ receipt. apply keeps_bind.
  - destruct (Rpc.Receipt.log receipt); [|apply keeps_ret].
    apply keeps_for_each. intros j log. apply keeps_references_indexLog.
  - intros _. destruct (JS.or_null _); [|apply keeps_ret].
    apply keeps_bind; [apply keeps_references_detectToken | intros _; apply keeps_ret].
Qed.

Lemma keeps_references_indexReceipt txid block :
  keeps transfers_reference_tokens (indexReceipt node txid block).
Proof. apply keeps_references_indexReceiptWith, keeps_await. Qed.

Lemma keeps_references_indexBlock height :
  keeps transfers_reference_tokens (indexBlock node height).
Proof.
  unfold indexBlock. apply keeps_bind; [apply keeps_await | intros [block|]];
    [|apply keeps_ret].
  apply keeps_db_transaction, keeps_bind; [by apply keeps_statement | intros _].
  destruct (Rpc.Block.tx block); [|apply keeps_ret].
  apply keeps_for_each. intros i [id|tx]; [apply keeps_ret|].
  unfold indexTransaction, start_indexReceipt.
  apply keeps_bind; [by apply keeps_statement | intros _].
  apply keeps_bind; [apply keeps_request | intros _; apply keeps_defer].
Qed.

Lemma references_sync_step (w : World) :
  transfers_reference_tokens (store w) →
  transfers_reference_tokens (store (sync_step node w).2).
Proof.
  intros HI. unfold sync_step.
  match goal with |- context [match ?body w with _ => _ end] =>
    assert (keeps transfers_reference_tokens body) as Hbody
  end.
  { apply keeps_bind; [apply keeps_await | intros chainHeight].
    apply keeps_bind; [apply keeps_read_store | intros s].
    destruct (num_ge _ _); [apply keeps_ret|].
    apply keeps_bind;
      [apply keeps_for_each; intros _ h; apply keeps_references_indexBlock | intros _].
    apply keeps_bind; [by apply keeps_run | intros _; apply keeps_ret]. }
  specialize (Hbody w HI).
  match goal with |- context [match ?body w with _ => _ end] =>
    destruct (body w) as [[st|e] w']
  end; exact Hbody.
Qed.

Lemma references_resume_all (l : list Deferred) (w0 : World) :
  transfers_reference_tokens (store w0) →
  transfers_reference_tokens (store (foldl (λ w d, resume node d w) w0 l)).
Proof.
  revert w0. induction l as [|d l IH]; intros w0 HI; [done|].
  cbn [foldl]. apply IH. unfold resume.
  by apply keeps_references_indexReceiptWith; [apply keeps_promised|].
Qed.

Lemma references_settle (w : World) :
  transfers_reference_tokens (store w) →
  transfers_reference_tokens (store (settle node w)).
Proof. intros HI. unfold settle. by apply references_resume_all. Qed.

(** *** What the indexer fetches *)

Lemma fetched_app cs1 cs2 : fetched (cs1 ++ cs2) = fetched cs1 ++ fetched cs2.
Proof. apply omap_app. Qed.

Lemma fetched_blocks hs : fetched (Rpc.GetBlock <$> hs) = hs.
Proof. unfold fetched. induction hs as [|h hs IH]; [done|]. cbn. by f_equal. Qed.

Lemma fetched_receipts (txs : list (Rpc.Tx.t Num)) : fetched (receiptCalls txs) = [].
Proof. unfold fetched, receiptCalls. by induction txs. Qed.

(** *** The transactions table under the loop of [indexBlock] *)

(** Keys the loop does not write keep their rows. *)
Lemma txsInserted_other block txs : ∀ i m k,
  k ∉ Rpc.Tx.txid <$> txObjectsOf txs →
  txsInserted block i txs m !! k = m !! k.
Proof.
  induction txs as [|[id|tx] txs IH]; intros i m k Hk; cbn in *; [done|by apply IH|].
  apply not_elem_of_cons in Hk as [Hne Hk].
  rewrite IH by done. by rewrite lookup_insert_ne.
Qed.

(** The loop forgets what the table held at the keys it writes. *)
Lemma txsInserted_ext block txs : ∀ i m m',
  (∀ k, m !! k = m' !! k ∨ k ∈ Rpc.Tx.txid <$> txObjectsOf txs) →
  txsInserted block i txs m = txsInserted block i txs m'.
Proof.
  induction txs as [|[id|tx] txs IH]; intros i m m' Hm; cbn in *.
  - apply map_eq. intros k. by destruct (Hm k) as [?|?%elem_of_nil].
  - by apply IH.
  - apply IH. intros k. rewrite !lookup_insert. case_decide as Hk; [by left|].
    destruct (Hm k) as [?|[?|?]%elem_of_cons]; [by left | done | by right].
Qed.

Lemma txsInserted_idemp block i txs m :
  txsInserted block i txs (txsInserted block i txs m) = txsInserted block i txs m.
Proof.
  apply txsInserted_ext. intros k.
  destruct (decide (k ∈ Rpc.Tx.txid <$> txObjectsOf txs)) as [|Hk]; [by right|].
  left. by apply txsInserted_other.
Qed.


Lemma insertBlock_idemp r s :
  Db.blocks (Db.insertBlock r (Db.insertBlock r s)) = Db.blocks (Db.insertBlock r s).
Proof.
  cbn. rewrite map_filter_insert_False by (cbn; tauto).
  rewrite map_filter_delete, insert_delete_eq. f_equal.
  apply map_filter_id. intros k x Hx.
  by apply map_lookup_filter_Some in Hx as [_ ?].
Qed.

(** *** [indexBlock], by the reply to the fetch and by the foreign keys *)

Lemma indexBlock_failure height (w : World) :
  Rpc.getBlock node height = Rpc.Failure →
  indexBlock node height w =
  (Throw RpcError,
   {| store := store w; calls := calls w ++ [Rpc.GetBlock height];
      pending := pending w |}).
Proof. intros Hf. unfold indexBlock. rewrite bind_eq. unfold await. by rewrite Hf. Qed.

Lemma indexBlock_gap height (w : World) :
  Rpc.getBlock node height = Rpc.Reply None →
  indexBlock node height w =
  (Return tt,
   {| store := store w; calls := calls w ++ [Rpc.GetBlock height];
      pending := pending w |}).
Proof. intros Hf. unfold indexBlock. rewrite bind_eq. unfold await. by rewrite Hf. Qed.

(** The loop over [block.tx] when the Block row its statements name is
    stored, or when it has no statement to run. *)
Lemma tx_loop_committed block txs : ∀ i (w : World),
  txObjectsOf txs = [] ∨ is_Some (Db.blocks (store w) !! Rpc.Block.height block) →
  for_each
    (λ i tx, match tx with
             | Rpc.TxObject tx => indexTransaction tx block i
             | Rpc.TxId _ => mret tt
             end) i txs w =
  (Return tt,
   {| store :=
        {| Db.blocks := Db.blocks (store w);
           Db.transactions := txsInserted block i txs (Db.transactions (store w));
           Db.event_logs := Db.event_logs (store w);
           Db.tokens := Db.tokens (store w);
           Db.token_transfers := Db.token_transfers (store w);
           Db.indexer_state := Db.indexer_state (store w) |};
      calls := calls w ++ receiptCalls (txObjectsOf txs);
      pending := pending w ++ receiptsDeferred block (txObjectsOf txs) |}).
Proof.
  induction txs as [|[id|tx] txs IH]; intros i w Hok; cbn [for_each txsInserted].
  - cbn. rewrite !app_nil_r. by destruct w as [[] ? ?].
  - rewrite bind_eq. cbn [mret M_ret ret]. by apply IH.
  - destruct Hok as [Hnone|Hblock]; [done|].
    rewrite bind_eq. unfold indexTransaction. rewrite bind_eq.
    rewrite statement_pass by (by apply bool_decide_eq_true).
    unfold start_indexReceipt. rewrite bind_eq. cbn [request defer].
    rewrite IH by (by right). cbn. by rewrite <- !app_assoc.
Qed.

(** The loop when that Block row is missing: its first statement fails. *)
Lemma tx_loop_refused block txs : ∀ i (w : World),
  txObjectsOf txs ≠ [] →
  Db.blocks (store w) !! Rpc.Block.height block = None →
  for_each
    (λ i tx, match tx with
             | Rpc.TxObject tx => indexTransaction tx block i
             | Rpc.TxId _ => mret tt
             end) i txs w = (Throw SqliteError, w).
Proof.
  induction txs as [|[id|tx] txs IH]; intros i w Hsome Hblock; cbn [for_each].
  - done.
  - rewrite bind_eq. cbn [mret M_ret ret]. by apply IH.
  - rewrite bind_eq. unfold indexTransaction. rewrite bind_eq.
    rewrite statement_fail; [done|].
    apply bool_decide_eq_false. cbn. rewrite Hblock. by intros [? ?].
Qed.

(** When the statements pass, [indexBlock] commits the rows of the
    block and leaves the receipts of its transactions waiting. *)
Lemma indexBlock_committed height block (w : World) :
  Rpc.getBlock node height = Rpc.Reply (Some block) →
  blockAccepted height block (store w) = true →
  indexBlock node height w =
  (Return tt,
   {| store := blockCommitted height block (store w);
      calls := calls w ++ Rpc.GetBlock height :: receiptCalls (txObjects block);
      pending := pending w ++ receiptsDeferred block (txObjects block) |}).
Proof.
  intros Hf [Hok Htxs]%andb_true_iff. unfold indexBlock.
  rewrite bind_eq. unfold await. rewrite Hf.
  unfold db_transaction. rewrite bind_eq, statement_pass by done.
  unfold blockCommitted, txObjects in *.
  destruct (Rpc.Block.tx block) as [txs|]; cbn [default from_option id] in *.
  - rewrite tx_loop_committed.
    + cbn. by rewrite <- app_assoc.
    + cbn [store].
      apply orb_true_iff in Htxs as [Hnone%bool_decide_eq_true|Hb%bool_decide_eq_true];
        [by left | by right].
  - cbn. by rewrite app_nil_r.
Qed.

(** When one does not, the transaction is rolled back and [indexBlock]
    throws: no receipt was asked for. *)
Lemma indexBlock_refused height block (w : World) :
  Rpc.getBlock node height = Rpc.Reply (Some block) →
  blockAccepted height block (store w) = false →
  indexBlock node height w =
  (Throw SqliteError,
   {| store := store w; calls := calls w ++ [Rpc.GetBlock height];
      pending := pending w |}).
Proof.
  intros Hf Hno. unfold indexBlock.
  rewrite bind_eq. unfold await. rewrite Hf.
  unfold db_transaction. rewrite bind_eq.
  unfold blockAccepted in Hno.
  destruct (Db.insertBlock_ok (blockRow height block) (store w)) eqn:Hok.
  - rewrite statement_pass by done. cbn [andb] in Hno.
    apply orb_false_iff in Hno as [Hsome%bool_decide_eq_false Hb%bool_decide_eq_false].
    unfold txObjects in Hsome.
    destruct (Rpc.Block.tx block) as [txs|] eqn:Htx;
      cbn [default from_option id] in Hsome; [|done].
    rewrite tx_loop_refused; [done | done |].
    cbn [store]. by apply eq_None_not_Some.
  - by rewrite statement_fail by done.
Qed.

(** Whatever happens, [indexBlock] fetches its one block and leaves the
    cursor alone; it throws when the fetch fails. *)
Lemma indexBlock_fetches height (w : World) :
  ∃ cs, calls (indexBlock node height w).2 = calls w ++ cs ∧
    fetched cs = [height] ∧
    Db.indexer_state (store (indexBlock node height w).2)
      = Db.indexer_state (store w).
Proof.
  destruct (Rpc.getBlock node height) as [[block|]|] eqn:Hf.
  - destruct (blockAccepted height block (store w)) eqn:Hok.
    + rewrite (indexBlock_committed height block) by done. eexists. split; [done|].
      split; [|done]. cbn. by rewrite fetched_receipts.
    + rewrite (indexBlock_refused height block) by done.
      by exists [Rpc.GetBlock height].
  - rewrite indexBlock_gap by done. by exists [Rpc.GetBlock height].
  - rewrite indexBlock_failure by done. by exists [Rpc.GetBlock height].
Qed.

(** [indexBlock] throws the error of the fetch, or the error of a
    statement on the block it fetched. *)
Lemma indexBlock_throws height e (w w' : World) :
  indexBlock node height w = (Throw e, w') →
  (e = RpcError ∧ Rpc.getBlock node height = Rpc.Failure) ∨
  (e = SqliteError ∧ Rpc.getBlock node height ≠ Rpc.Failure).
Proof.
  destruct (Rpc.getBlock node height) as [[block|]|] eqn:Hf.
  - destruct (blockAccepted height block (store w)) eqn:Hok.
    + by rewrite (indexBlock_committed height block).
    + rewrite (indexBlock_refused height block) by done. intros [= <- _]. by right.
  - by rewrite indexBlock_gap.
  - rewrite indexBlock_failure by done. intros [= <- _]. by left.
Qed.

(** *** Replies that pass the foreign keys *)

(** A block reported under its height, whose hash the store holds under
    no other height, passes. *)
Lemma blockAccepted_consistent height block (s : Db.Store) :
  Rpc.Block.height block = height →
  (∀ k r, Db.blocks s !! k = Some r →
          Db.Blocks.hash r = Rpc.Block.hash block → k = height) →
  blockAccepted height block s = true.
Proof.
  intros Hheight Hfresh. unfold blockAccepted. apply andb_true_iff. split.
  - apply bool_decide_eq_true. intros k r Hk Hhash Hne.
    destruct Hne. by apply (Hfresh k r).
  - apply orb_true_iff. right. apply bool_decide_eq_true.
    rewrite Hheight. cbn. by rewrite lookup_insert_eq.
Qed.

Lemma blocks_committed height block (s : Db.Store) k r :
  Db.blocks (blockCommitted height block s) !! k = Some r ↔
  (k = height ∧ r = blockRow height block) ∨
  (k ≠ height ∧ Db.blocks s !! k = Some r ∧
   Db.Blocks.hash r ≠ Rpc.Block.hash block).
Proof.
  cbn. rewrite lookup_insert_Some, map_lookup_filter_Some. cbn. split.
  - intros [[<- <-]|(Hne & Hrow & Hhash)]; [by left | right]. by split_and!.
  - intros [[-> ->]|(Hne & Hrow & Hhash)]; [by left | right]. by split_and!.
Qed.

(** Committing a block of a consistent chain leaves the hashes of the
    store fresh. *)
Lemma hashes_fresh_committed lo hi height block (s : Db.Store) :
  lo ≤ height ≤ hi →
  Rpc.getBlock node height = Rpc.Reply (Some block) →
  chain_consistent node lo hi →
  hashes_fresh node s lo hi →
  hashes_fresh node (blockCommitted height block s) lo hi.
Proof.
  intros Hrange Hf Hchain Hfresh k b k' r Hk Hb Hrow Hhash.
  apply blocks_committed in Hrow as [[-> ->]|(Hne & Hrow & _)].
  - destruct (Hchain k b Hk Hb) as [_ Hdistinct].
    by apply (Hdistinct height block).
  - by apply (Hfresh k b k' r).
Qed.

Lemma hashes_fresh_accepted lo hi height block (s : Db.Store) :
  lo ≤ height ≤ hi →
  Rpc.getBlock node height = Rpc.Reply (Some block) →
  chain_consistent node lo hi →
  hashes_fresh node s lo hi →
  blockAccepted height block s = true.
Proof.
  intros Hrange Hf Hchain Hfresh.
  destruct (Hchain height block Hrange Hf) as [Hheight _].
  apply blockAccepted_consistent; [done|].
  intros k r Hrow Hhash. by apply (Hfresh height block k r).
Qed.

(** *** The loop over the heights of a batch *)

(** Whatever the node replies, the loop fetches the heights in order, up
    to the first whose [indexBlock] throws, and leaves the cursor alone. *)
Lemma batch_runs hs : ∀ i (w : World),
  ∃ w' cs,
    calls w' = calls w ++ cs ∧
    Db.indexer_state (store w') = Db.indexer_state (store w) ∧
    ((for_each (λ _ height, indexBlock node height) i hs w = (Return tt, w') ∧
      fetched cs = hs ∧
      ∀ k, k ∈ hs → Rpc.getBlock node k ≠ Rpc.Failure) ∨
     (∃ e hs1 k hs2,
        for_each (λ _ height, indexBlock node height) i hs w = (Throw e, w') ∧
        hs = hs1 ++ k :: hs2 ∧ fetched cs = hs1 ++ [k] ∧
        (∀ j, j ∈ hs1 → Rpc.getBlock node j ≠ Rpc.Failure) ∧
        (e = RpcError ∧ Rpc.getBlock node k = Rpc.Failure ∨
         e = SqliteError ∧ Rpc.getBlock node k ≠ Rpc.Failure))).
Proof.
  induction hs as [|k hs IH]; intros i w; cbn [for_each].
  - exists w, []. rewrite app_nil_r. split; [done|]. split; [done|]. left.
    split; [done|]. split; [done|]. by intros k ?%elem_of_nil.
  - rewrite bind_eq.
    destruct (indexBlock_fetches k w) as (cs1 & Hc1 & Hf1 & Hs1).
    destruct (indexBlock node k w) as [[[]|e] w1] eqn:Hk; cbn [snd] in *.
    + assert (Rpc.getBlock node k ≠ Rpc.Failure) as Hreply.
      { intros Hfail. by rewrite indexBlock_failure in Hk by done. }
      destruct (IH (i + 1) w1) as (w' & cs & Hc & Hs & Hcases).
      exists w', (cs1 ++ cs). split; [by rewrite Hc, Hc1, app_assoc|].
      split; [congruence|].
      destruct Hcases
        as [(-> & Hf & Hok)|(e & hs1 & j & hs2 & -> & -> & Hf & Hok & He)].
      * left. split; [done|]. split; [by rewrite fetched_app, Hf1, Hf|].
        intros j [->|?]%elem_of_cons; [done | by apply Hok].
      * right. exists e, (k :: hs1), j, hs2. split; [done|]. split; [done|].
        split; [by rewrite fetched_app, Hf1, Hf|]. split; [|done].
        intros j' [->|?]%elem_of_cons; [done | by apply Hok].
    + exists w1, cs1. split; [done|]. split; [done|]. right.
      exists e, [], k, hs. split; [done|]. split; [done|]. split; [done|].
      split; [by intros j ?%elem_of_nil|].
      by apply indexBlock_throws in Hk.
Qed.

(** On a consistent chain that replies for every height of the batch,
    the loop goes through: the store holds what the blocks of the batch
    commit, one after the other. *)
Lemma batch_indexed lo hi hs : ∀ i (w : World),
  (∀ k, k ∈ hs → lo ≤ k ≤ hi) →
  (∀ k, k ∈ hs → Rpc.getBlock node k ≠ Rpc.Failure) →
  chain_consistent node lo hi →
  hashes_fresh node (store w) lo hi →
  ∃ w' cs,
    for_each (λ _ height, indexBlock node height) i hs w = (Return tt, w') ∧
    calls w' = calls w ++ cs ∧ fetched cs = hs ∧
    store w' = batchCommitted node hs (store w) ∧
    hashes_fresh node (store w') lo hi.
Proof.
  induction hs as [|k hs IH]; intros i w Hrange Hreply Hchain Hfresh;
    cbn [for_each batchCommitted foldl].
  - exists w, []. by rewrite app_nil_r.
  - rewrite bind_eq. unfold blockStep at 2.
    assert (lo ≤ k ≤ hi) as Hk by (apply Hrange; by left).
    destruct (Rpc.getBlock node k) as [[block|]|] eqn:Hf.
    + rewrite (indexBlock_committed k block)
        by (done || by eapply hashes_fresh_accepted).
      match goal with |- context [for_each _ _ _ ?w1] =>
        destruct (IH (i + 1) w1) as (w' & cs & -> & Hc & Hfe & Hs & Hfr)
      end.
      { intros j Hj. apply Hrange. by right. }
      { intros j Hj. apply Hreply. by right. }
      { done. }
      { cbn [store]. by apply hashes_fresh_committed. }
      exists w', (Rpc.GetBlock k :: receiptCalls (txObjects block) ++ cs).
      split; [done|]. cbn [calls store] in Hc, Hs.
      split; [by rewrite Hc, <- app_assoc|]. split; [|done].
      change (k :: fetched (receiptCalls (txObjects block) ++ cs) = k :: hs).
      by rewrite fetched_app, fetched_receipts, Hfe.
    + rewrite indexBlock_gap by done.
      match goal with |- context [for_each _ _ _ ?w1] =>
        destruct (IH (i + 1) w1) as (w' & cs & -> & Hc & Hfe & Hs & Hfr)
      end.
      { intros j Hj. apply Hrange. by right. }
      { intros j Hj. apply Hreply. by right. }
      { done. }
      { done. }
      exists w', (Rpc.GetBlock k :: cs). split; [done|]. cbn [calls store] in Hc, Hs.
      split; [by rewrite Hc, <- app_assoc|]. split; [|done].
      change (k :: fetched cs = k :: hs). by rewrite Hfe.
    + destruct (Hreply k); [by left | done].
Qed.

(** *** The tables after a batch *)

Lemma batchCommitted_cons hs k (s : Db.Store) :
  batchCommitted node (k :: hs) s = batchCommitted node hs (blockStep node s k).
Proof. reflexivity. Qed.

Lemma batchCommitted_snoc hs k (s : Db.Store) :
  batchCommitted node (hs ++ [k]) s = blockStep node (batchCommitted node hs s) k.
Proof. unfold batchCommitted. by rewrite foldl_app. Qed.

(** The tables the blocks do not write stay as they are. *)
Lemma batchCommitted_frame hs : ∀ s : Db.Store,
  Db.event_logs (batchCommitted node hs s) = Db.event_logs s ∧
  Db.tokens (batchCommitted node hs s) = Db.tokens s ∧
  Db.token_transfers (batchCommitted node hs s) = Db.token_transfers s ∧
  Db.indexer_state (batchCommitted node hs s) = Db.indexer_state s.
Proof.
  induction hs as [|k hs IH]; intros s; [done|]. rewrite batchCommitted_cons.
  destruct (IH (blockStep node s k)) as (-> & -> & -> & ->).
  unfold blockStep. by destruct (Rpc.getBlock node k) as [[block|]|].
Qed.

(** Every block that the node has for a height of the batch has its row
    under that height. *)
Lemma batchCommitted_block lo hi hs (s : Db.Store) k b :
  (∀ j, j ∈ hs → lo ≤ j ≤ hi) →
  chain_consistent node lo hi →
  k ∈ hs → Rpc.getBlock node k = Rpc.Reply (Some b) →
  Db.blocks (batchCommitted node hs s) !! k = Some (blockRow k b).
Proof.
  intros Hrange Hchain. revert k b.
  induction hs as [|x hs IH] using rev_ind; intros k b Hk Hb;
    [by apply elem_of_nil in Hk|].
  rewrite batchCommitted_snoc. unfold blockStep.
  assert (∀ j, j ∈ hs → lo ≤ j ≤ hi) as Hrange'.
  { intros j Hj. apply Hrange, elem_of_app. by left. }
  assert (lo ≤ x ≤ hi) as Hx.
  { apply Hrange, elem_of_app. right. by left. }
  destruct (decide (k = x)) as [->|Hne].
  - rewrite Hb. apply blocks_committed. by left.
  - apply elem_of_app in Hk as [Hk|Hk%list_elem_of_singleton]; [|done].
    specialize (IH Hrange' k b Hk Hb).
    destruct (Rpc.getBlock node x) as [[bx|]|] eqn:Hbx; [|done..].
    apply blocks_committed. right. split; [done|]. split; [done|].
    cbn. intros Hhash.
    destruct (Hchain x bx Hx Hbx) as [_ Hdistinct].
    destruct Hne. apply (Hdistinct k b); [by apply Hrange' | done | done].
Qed.



(** *** One turn of [sync] *)

(** A turn with the cursor below the chain height is the loop over the
    batch, followed by the write of the cursor. *)
Lemma sync_step_turn (w : World) c h :
  getLastIndexedBlock (store w) = JS.Int c →
  Rpc.getBlockCount node = Rpc.Reply h →
  c < h →
  let endBlock := Z.min (c + 1 + batchSize - 1) h in
  sync_step node w =
  match for_each (λ _ height, indexBlock node height) 0
          (seqZ (c + 1) (endBlock - (c + 1) + 1))
          {| store := store w; calls := calls w ++ [Rpc.GetBlockCount];
             pending := pending w |} with
  | (Return _, wb) =>
      (Indexed (JS.Int endBlock),
       {| store := Db.setIndexerState "last_block" (JS.toString endBlock) (store wb);
          calls := calls wb; pending := pending wb |})
  | (Throw e, wb) => (Backoff e, wb)
  end.
Proof.
  intros Hcur Hcount Hlt endBlock. unfold sync_step.
  rewrite bind_eq. unfold await. rewrite Hcount. rewrite bind_eq.
  cbn [read_store store]. rewrite Hcur.
  cbn [num_ge num_succ batch_end heights]. rewrite (proj2 (Z.leb_gt h c)) by done.
  rewrite bind_eq. fold endBlock.
  by destruct (for_each _ 0 _ _) as [[[]|e] wb].
Qed.

Lemma cursor_written (s : Db.Store) z :
  getLastIndexedBlock (Db.setIndexerState "last_block" (JS.toString z) s) = JS.Int z.
Proof.
  unfold getLastIndexedBlock, Db.getIndexerState. cbn.
  rewrite lookup_insert_eq. apply parseInt_toString.
Qed.

Lemma seqZ_split m n hs1 k hs2 :
  seqZ m n = hs1 ++ k :: hs2 →
  hs1 = seqZ m (Z.of_nat (length hs1)) ∧ k = m + Z.of_nat (length hs1) ∧
  Z.of_nat (length hs1) < n.
Proof.
  revert m n. induction hs1 as [|x hs1 IH]; intros m n Hsplit.
  - destruct (decide (0 < n)) as [Hn|Hn].
    + rewrite seqZ_cons in Hsplit by done. injection Hsplit as <- _.
      cbn. split; [done|]. lia.
    + rewrite seqZ_nil in Hsplit by lia. done.
  - destruct (decide (0 < n)) as [Hn|Hn].
    + rewrite seqZ_cons in Hsplit by done. cbn [app] in Hsplit.
      injection Hsplit as <- Hrest.
      replace (Z.succ m) with (m + 1) in Hrest by lia.
      replace (Z.pred n) with (n - 1) in Hrest by lia.
      destruct (IH (m + 1) (n - 1) Hrest) as (Hhs1 & -> & Hlen).
      cbn [length]. rewrite Nat2Z.inj_succ. split_and!; [|lia|lia].
      rewrite seqZ_cons by lia. f_equal.
      replace (Z.succ m) with (m + 1) by lia.
      replace (Z.pred (Z.succ (Z.of_nat (length hs1)))) with (Z.of_nat (length hs1))
        by lia.
      done.
    + rewrite seqZ_nil in Hsplit by lia. done.
Qed.

(** The turn, whatever the node replies. *)
Lemma sync_step_outcome (w : World) c h :
  getLastIndexedBlock (store w) = JS.Int c →
  Rpc.getBlockCount node = Rpc.Reply h →
  c < h →
  let startBlock := c + 1 in
  let endBlock := Z.min (startBlock + batchSize - 1) h in
  ∃ w' cs,
    calls w' = calls w ++ Rpc.GetBlockCount :: cs ∧
    ((sync_step node w = (Indexed (JS.Int endBlock), w') ∧
      fetched cs = seqZ startBlock (endBlock - startBlock + 1) ∧
      getLastIndexedBlock (store w') = JS.Int endBlock ∧
      ∀ k, startBlock ≤ k ≤ endBlock → Rpc.getBlock node k ≠ Rpc.Failure) ∨
     (∃ e k,
        sync_step node w = (Backoff e, w') ∧
        startBlock ≤ k ≤ endBlock ∧
        fetched cs = seqZ startBlock (k - startBlock + 1) ∧
        (∀ j, startBlock ≤ j < k → Rpc.getBlock node j ≠ Rpc.Failure) ∧
        (e = RpcError ∧ Rpc.getBlock node k = Rpc.Failure ∨
         e = SqliteError ∧ Rpc.getBlock node k ≠ Rpc.Failure) ∧
        Db.indexer_state (store w') = Db.indexer_state (store w) ∧
        getLastIndexedBlock (store w') = JS.Int c)).
Proof.
  intros Hcur Hcount Hlt startBlock endBlock.
  rewrite (sync_step_turn w c h Hcur Hcount Hlt). fold startBlock endBlock.
  match goal with |- context [for_each _ 0 ?hs ?w1] =>
    destruct (batch_runs hs 0 w1) as (wb & cs & Hc & Hs & Hcases)
  end.
  cbn [calls store] in Hc, Hs.
  destruct Hcases
    as [(-> & Hf & Hok)|(e & hs1 & k & hs2 & -> & Hsplit & Hf & Hok & He)].
  - exists {| store := Db.setIndexerState "last_block" (JS.toString endBlock)
                         (store wb);
              calls := calls wb; pending := pending wb |}, cs.
    split; [cbn; by rewrite Hc, <- app_assoc|]. left.
    split; [done|]. split; [done|]. split; [apply cursor_written|].
    intros k Hk. apply Hok, elem_of_seqZ. lia.
  - exists wb, cs. split; [by rewrite Hc, <- app_assoc|]. right.
    destruct (seqZ_split _ _ _ _ _ Hsplit) as (Hhs1 & Hk & Hlen).
    assert (startBlock ≤ k ≤ endBlock) as Hrange by lia.
    exists e, k. split; [done|]. split; [done|]. split_and!.
    + rewrite Hf, Hhs1 at 1.
      replace (k - startBlock + 1) with (Z.of_nat (length hs1) + 1) by lia.
      rewrite (seqZ_app startBlock (Z.of_nat (length hs1)) 1) by lia.
      by rewrite Hk.
    + intros j Hj. apply Hok. rewrite Hhs1. apply elem_of_seqZ. lia.
    + done.
    + done.
    + unfold getLastIndexedBlock, Db.getIndexerState in *. by rewrite Hs.
Qed.

(** The turn on a consistent chain that replies for every height of the
    batch. *)
Lemma sync_step_indexed (w : World) c h lo hi :
  getLastIndexedBlock (store w) = JS.Int c →
  Rpc.getBlockCount node = Rpc.Reply h →
  c < h →
  let startBlock := c + 1 in
  let endBlock := Z.min (startBlock + batchSize - 1) h in
  let batch := seqZ startBlock (endBlock - startBlock + 1) in
  lo ≤ startBlock → endBlock ≤ hi →
  (∀ k, startBlock ≤ k ≤ endBlock → Rpc.getBlock node k ≠ Rpc.Failure) →
  chain_consistent node lo hi →
  hashes_fresh node (store w) lo hi →
  ∃ w' cs, sync_step node w = (Indexed (JS.Int endBlock), w') ∧
    calls w' = calls w ++ Rpc.GetBlockCount :: cs ∧
    fetched cs = batch ∧
    getLastIndexedBlock (store w') = JS.Int endBlock ∧
    store w' = Db.setIndexerState "last_block" (JS.toString endBlock)
                 (batchCommitted node batch (store w)) ∧
    hashes_fresh node (store w') lo hi.
Proof.
  intros Hcur Hcount Hlt startBlock endBlock batch Hlo Hhi Hok Hchain Hfresh.
  rewrite (sync_step_turn w c h Hcur Hcount Hlt). fold startBlock endBlock batch.
  match goal with |- context [for_each _ 0 _ ?w1] =>
    destruct (batch_indexed lo hi batch 0 w1) as (wb & cs & -> & Hc & Hf & Hs & Hfr)
  end.
  { intros k Hk%elem_of_seqZ. lia. }
  { intros k Hk%elem_of_seqZ. apply Hok. lia. }
  { done. }
  { done. }
  cbn [calls store] in Hc, Hs.
  eexists _, cs. split; [done|]. cbn [calls store].
  split; [by rewrite Hc, <- app_assoc|]. split; [done|].
  split; [apply cursor_written|]. split; [by rewrite Hs|].
  intros k b k' r Hk Hb Hrow. by apply (Hfr k b k' r).
Qed.

(** *** The claims about [sync], [indexBlock] and [detectToken] *)

(** C5. With the cursor at [c] and the chain at [h > c], both numbers
    that the engine counts exactly, a turn of [sync] works on the heights
    [c+1 .. min(c+1+batchSize-1, h)] in ascending order. Either the
    whole batch goes through and the last height is stored as the cursor,
    or the turn stops at the first height whose [indexBlock] throws (the
    error of the fetch or the error of a statement of the store) and the
    cursor stays at [c]. The batch goes through when the node replies
    for every height with blocks that the foreign keys of the store
    accept; it does not when a fetch fails. The new cursor is above the
    old one. *)
Theorem sync_step_batch (w : World) c h :
  getLastIndexedBlock (store w) = JS.Int c →
  Rpc.getBlockCount node = Rpc.Reply h →
  c < h →
  -9007199254740991 ≤ c → h ≤ 9007199254740991 →
  let startBlock := c + 1 in
  let endBlock := Z.min (startBlock + batchSize - 1) h in
  let batch := seqZ startBlock (endBlock - startBlock + 1) in
  c < endBlock ∧
  (∃ w' cs,
     calls w' = calls w ++ Rpc.GetBlockCount :: cs ∧
     ((sync_step node w = (Indexed (JS.Int endBlock), w') ∧
       fetched cs = batch ∧
       getLastIndexedBlock (store w') = JS.Int endBlock) ∨
      (∃ e k,
         sync_step node w = (Backoff e, w') ∧
         startBlock ≤ k ≤ endBlock ∧
         fetched cs = seqZ startBlock (k - startBlock + 1) ∧
         (e = RpcError ∧ Rpc.getBlock node k = Rpc.Failure ∨
          e = SqliteError ∧ Rpc.getBlock node k ≠ Rpc.Failure) ∧
         Db.indexer_state (store w') = Db.indexer_state (store w) ∧
         getLastIndexedBlock (store w') = JS.Int c))) ∧
  ((∀ k, startBlock ≤ k ≤ endBlock → Rpc.getBlock node k ≠ Rpc.Failure) →
   chain_consistent node startBlock endBlock →
   hashes_fresh node (store w) startBlock endBlock →
   ∃ w' cs, sync_step node w = (Indexed (JS.Int endBlock), w') ∧
     calls w' = calls w ++ Rpc.GetBlockCount :: cs ∧
     fetched cs = batch ∧
     getLastIndexedBlock (store w') = JS.Int endBlock ∧
     Db.blocks (store w') = Db.blocks (batchCommitted node batch (store w)) ∧
     Db.transactions (store w')
       = Db.transactions (batchCommitted node batch (store w))) ∧
  (∀ k, startBlock ≤ k ≤ endBlock → Rpc.getBlock node k = Rpc.Failure →
     ∃ w' cs e k', sync_step node w = (Backoff e, w') ∧
       startBlock ≤ k' ≤ k ∧
       calls w' = calls w ++ Rpc.GetBlockCount :: cs ∧
       fetched cs = seqZ startBlock (k' - startBlock + 1) ∧
       Db.indexer_state (store w') = Db.indexer_state (store w) ∧
       getLastIndexedBlock (store w') = JS.Int c).
Proof.
  intros Hcur Hcount Hlt _ _ startBlock endBlock batch.
  split; [unfold batchSize in *; lia|].
  destruct (sync_step_outcome w c h Hcur Hcount Hlt)
    as (w' & cs & Hcalls & Hcases).
  fold startBlock endBlock in Hcases. split_and!.
  - exists w', cs. split; [done|].
    destruct Hcases
      as [(Hstep & Hf & Hcursor & _)|(e & k & Hstep & Hk & Hf & _ & He & Hs & Hcursor)].
    + by left.
    + right. exists e, k. do 5 (split; [done|]). done.
  - intros Hok Hchain Hfresh.
    destruct (sync_step_indexed w c h startBlock endBlock Hcur Hcount Hlt)
      as (w1 & cs1 & Hstep & Hc1 & Hf1 & Hcur1 & Hs1 & _); try done.
    exists w1, cs1. split_and!; try done; by rewrite Hs1.
  - intros k Hk Hfail.
    destruct Hcases
      as [(_ & _ & _ & Hok)|(e & k' & Hstep & Hk' & Hf & Hbefore & _ & Hs & Hcursor)].
    + by destruct (Hok k Hk).
    + assert (k' ≤ k) as Hle.
      { destruct (decide (k' ≤ k)) as [|Hgt]; [done|].
        destruct (Hbefore k); [lia | done]. }
      exists w', cs, e, k'. split; [done|]. split; [lia|]. by do 3 (split; [done|]).
Qed.



(** C7. In [indexLog] on a Transfer log the row of the transfer is
    inserted into the store that [detectToken] has left: that store has
    the Token row of the emitting address, whatever the probes replied,
    so the statement passes the foreign key on the token, which it would
    not have passed before [detectToken] for a token not seen yet. Every
    operation of the indexer keeps all TokenTransfer rows referring to
    stored Token rows. *)
Theorem token_row_precedes_transfer :
  transfers_reference_tokens Db.empty ∧
  (∀ txid log block i a topic1 topic2 rest (w : World),
     is_Some (Db.transactions (store w) !! txid) →
     Rpc.Log.topics log = Some (TRANSFER_TOPIC :: topic1 :: topic2 :: rest) →
     Rpc.Log.address log = Some a →
     let w0 := {| store := Db.insertLog (eventRow txid log block i) (store w);
                  calls := calls w; pending := pending w |} in
     let w1 := (detectToken node (JS.toLowerCase a) w0).2 in
     let row := transferRow txid log block i (JS.toLowerCase a) topic1 topic2 in
     indexLog node txid log block i w =
       (Return tt, {| store := Db.insertTransfer row (store w1);
                      calls := calls w1; pending := pending w1 |}) ∧
     Db.TokenTransfers.token_address row = JS.toLowerCase a ∧
     is_Some (Db.tokens (store w1) !! JS.toLowerCase a) ∧
     Db.token_transfers (store w1) = Db.token_transfers (store w) ∧
     Db.insertTransfer_ok row (store w1) = true ∧
     (Db.tokens (store w) !! JS.toLowerCase a = None →
      Db.insertTransfer_ok row (store w0) = false)) ∧
  (∀ w : World, transfers_reference_tokens (store w) →
     (∀ address, transfers_reference_tokens (store (detectToken node address w).2)) ∧
     (∀ txid log block i,
        transfers_reference_tokens (store (indexLog node txid log block i w).2)) ∧
     (∀ txid block,
        transfers_reference_tokens (store (indexReceipt node txid block w).2)) ∧
     (∀ height, transfers_reference_tokens (store (indexBlock node height w).2)) ∧
     transfers_reference_tokens (store (sync_step node w).2) ∧
     transfers_reference_tokens (store (settle node w))).
Proof.
  split; [by intros r Hr%elem_of_nil|]. split.
  - intros txid log block i a topic1 topic2 rest w Htx Htopics Haddr w0 w1 row.
    destruct (indexLog_transfer txid log block i a topic1 topic2 rest w
                Htx Htopics Haddr) as (Hrun & Hsome & Htt & _ & _).
    fold w0 w1 row in Hrun, Hsome, Htt.
    destruct (detectToken_returns (JS.toLowerCase a) w0)
      as (d & w1' & Hdetect & _ & _ & Htxs & _).
    assert (w1 = w1') as Hw1 by (subst w1; by rewrite Hdetect).
    split_and!; [done | done | done | done | |].
    + unfold Db.insertTransfer_ok. apply andb_true_iff. split.
      * apply bool_decide_eq_true. rewrite Hw1, Htxs. done.
      * by apply bool_decide_eq_true.
    + intros Hnone. unfold Db.insertTransfer_ok. apply andb_false_iff. right.
      apply bool_decide_eq_false. cbn. rewrite Hnone. by intros [? ?].
  - intros w HI. split_and!.
    + intros address. by apply keeps_references_detectToken.
    + intros txid log block i. by apply keeps_references_indexLog.
    + intros txid block. by apply keeps_references_indexReceipt.
    + intros height. by apply keeps_references_indexBlock.
    + by apply references_sync_step.
    + by apply references_settle.
Qed.

(** C8. [detectToken] returns the stored row and calls nothing when the
    lower-cased address has one; else it issues the four probes, takes
    the placeholder for each that fails, writes the Token row and
    returns its values. *)
Theorem detectToken_memoises_or_probes address (w : World) :
  (∀ row, Db.getToken (JS.toLowerCase address) (store w) = Some row →
     detectToken node address w = (Return (Existing row), w)) ∧
  (Db.getToken (JS.toLowerCase address) (store w) = None →
     let name := settled (Rpc.getTokenName node address) "Unknown" in
     let symbol := settled (Rpc.getTokenSymbol node address) "???" in
     let decimals := settled (Rpc.getTokenDecimals node address) 18 in
     let totalSupply := settled (Rpc.getTokenTotalSupply node address) "0" in
     detectToken node address w =
     (Return (Probed address name symbol decimals totalSupply),
      {| store :=
           Db.insertToken
             {| Db.Tokens.address := JS.toLowerCase address;
                Db.Tokens.name := name;
                Db.Tokens.symbol := symbol;
                Db.Tokens.decimals := decimals;
                Db.Tokens.total_supply := totalSupply;
                Db.Tokens.owner := None |}
             (store w);
         calls := calls w ++ [Rpc.GetTokenName address; Rpc.GetTokenSymbol address;
                              Rpc.GetTokenDecimals address;
                              Rpc.GetTokenTotalSupply address];
         pending := pending w |})).
Proof.
  split; [intros row Hrow; by apply detectToken_existing | apply detectToken_fresh].
Qed.

End IndexerFacts.

(** ** The holders of a token *)
Section Holders.
Import Server.

Lemma bal_get_set b k v k' :
  bal_get (bal_set b k v) k' = if String.eqb k k' then v else bal_get b k'.
Proof.
  induction b as [|[k0 v0] b IH]; cbn.
  - done.
  - destruct (String.eqb_spec k0 k) as [->|Hne]; cbn.
    + by destruct (String.eqb k k').
    + rewrite IH. destruct (String.eqb_spec k0 k') as [->|Hne'].
      * by rewrite (proj2 (String.eqb_neq k k')).
      * done.
Qed.

Lemma bal_set_keys b k v :
  (bal_set b k v).*1 = if bool_decide (k ∈ b.*1) then b.*1 else b.*1 ++ [k].
Proof.
  induction b as [|[k0 v0] b IH]; cbn.
  - by rewrite bool_decide_false by apply not_elem_of_nil.
  - destruct (String.eqb_spec k0 k) as [->|Hne]; cbn.
    + by rewrite bool_decide_true by left.
    + rewrite IH. destruct (decide (k ∈ b.*1)) as [Hin|Hnin].
      * rewrite !bool_decide_true; [done | by right | done].
      * rewrite !bool_decide_false; [done | | done].
        intros [?|?]%elem_of_cons; done.
Qed.

Lemma bal_set_NoDup b k v : NoDup b.*1 → NoDup (bal_set b k v).*1.
Proof.
  intros Hb. rewrite bal_set_keys. case_bool_decide as Hk; [done|].
  apply NoDup_app. split; [done|]. split; [|apply NoDup_singleton].
  intros x Hx ->%list_elem_of_singleton. done.
Qed.

(** An entry of the object is a key with its balance. *)
Lemma bal_entry b k v :
  NoDup b.*1 → (k, v) ∈ b ↔ k ∈ b.*1 ∧ bal_get b k = v.
Proof.
  induction b as [|[k0 v0] b IH]; cbn; intros Hnd.
  - split; [by intros ?%elem_of_nil | by intros [?%elem_of_nil _]].
  - apply NoDup_cons in Hnd as [Hk0 Hnd].
    rewrite !elem_of_cons, (IH Hnd).
    destruct (String.eqb_spec k0 k) as [->|Hne].
    + split.
      * intros [[= <-]|[Hin _]]; [by split; [left|] | done].
      * intros [_ <-]. by left.
    + split.
      * intros [[= ? ?]|[Hin Hv]]; [done | by split; [right|]].
      * intros [[?|Hin] Hv]; [done | by right].
Qed.

Lemma bal_get_absent b k : k ∉ b.*1 → bal_get b k = 0.
Proof.
  induction b as [|[k0 v0] b IH]; cbn; [done|]. intros Hk.
  apply not_elem_of_cons in Hk as [Hne Hk].
  by rewrite (proj2 (String.eqb_neq k0 k)), IH.
Qed.

(** A positive entry is a positive balance. *)
Lemma positive_entry b k :
  NoDup b.*1 → (∃ v, (k, v) ∈ b ∧ 0 < v) ↔ 0 < bal_get b k.
Proof.
  intros Hnd. split.
  - intros (v & Hin & Hv). apply (bal_entry _ _ _ Hnd) in Hin as [_ ->]. done.
  - intros Hpos. exists (bal_get b k). split; [|done].
    apply bal_entry; [done|]. split; [|done].
    destruct (decide (k ∈ b.*1)) as [|Hk]; [done|].
    rewrite bal_get_absent in Hpos by done. lia.
Qed.

(** The loop body on a Transfer log whose data is hexadecimal. *)
Lemma applyLog_transfer b l n :
  isTransferLog l = true →
  JS.bigint_of_hex (JS.or_default (data l) "0") = Some n →
  ∃ b', applyLog b l = Some b' ∧
    (NoDup b.*1 → NoDup b'.*1) ∧
    ∀ a, bal_get b' a = bal_get b a +
           (if String.eqb a ZERO_ADDRESS then 0
            else delta a {| sender := decodeAddress (topic l 1);
                            recipient := decodeAddress (topic l 2);
                            amount := Z.of_N n |}).
Proof.
  intros Hl Hn. unfold applyLog. rewrite Hl, Hn. cbn [mbind option_bind].
  eexists. split; [done|]. split.
  - intros Hnd. repeat case_match; auto using bal_set_NoDup.
  - intros a. unfold delta. cbn [sender recipient amount].
    generalize (decodeAddress (topic l 1)) (decodeAddress (topic l 2)).
    generalize ZERO_ADDRESS. intros zero from to.
    destruct (String.eqb_spec from zero) as [Hf|Hf],
             (String.eqb_spec to zero) as [Ht|Ht];
      rewrite ?bal_get_set;
      destruct (String.eqb_spec a zero) as [Ha|Ha];
      destruct (String.eqb_spec from a) as [Hfa|Hfa];
      destruct (String.eqb_spec to a) as [Hta|Hta];
      try congruence; try lia;
      rewrite ?(proj2 (String.eqb_neq from to)) by congruence;
      rewrite ?(proj2 (String.eqb_eq from to)) by congruence;
      subst; lia.
Qed.

Lemma scanLogs_ledger logs : ∀ b,
  Forall (λ l, isTransferLog l = true →
               is_Some (JS.bigint_of_hex (JS.or_default (data l) "0"))) logs →
  ∃ b', scanLogs b logs = Some b' ∧
    (NoDup b.*1 → NoDup b'.*1) ∧
    ∀ a, bal_get b' a = bal_get b a +
           (if String.eqb a ZERO_ADDRESS then 0 else ledger a (transfersOf logs)).
Proof.
  induction logs as [|l logs IH]; intros b Hhex; cbn [scanLogs].
  - exists b. split; [done|]. split; [done|]. intros a. cbn.
    destruct (String.eqb a ZERO_ADDRESS); lia.
  - apply Forall_cons in Hhex as [Hl Hhex].
    destruct (isTransferLog l) eqn:Htr.
    + destruct (Hl eq_refl) as [n Hn].
      destruct (applyLog_transfer b l n Htr Hn) as (b1 & -> & Hnd1 & Hget1).
      cbn [mbind option_bind]. destruct (IH b1 Hhex) as (b' & -> & Hnd & Hget).
      exists b'. split; [done|]. split; [auto|]. intros a.
      rewrite Hget, Hget1. unfold transfersOf. rewrite filter_cons_True by done.
      cbn [fmap list_fmap ledger foldr]. unfold logAmount. rewrite Hn. cbn [default from_option id].
      destruct (String.eqb a ZERO_ADDRESS); [lia|]. unfold ledger, transfersOf. lia.
    + unfold applyLog at 1. rewrite Htr. cbn [mbind option_bind].
      destruct (IH b Hhex) as (b' & -> & Hnd & Hget).
      exists b'. split; [done|]. split; [done|]. intros a. rewrite Hget.
      unfold transfersOf. rewrite filter_cons_False by (by rewrite Htr). done.
Qed.

Lemma scanResults_allLogs results : ∀ b,
  scanResults b results = scanLogs b (allLogs results).
Proof.
  assert (∀ l1 l2 b, scanLogs b (l1 ++ l2) = b' ← scanLogs b l1; scanLogs b' l2) as Happ.
  { induction l1 as [|l l1 IH]; intros l2 b; cbn [scanLogs app]; [done|].
    destruct (applyLog b l) as [b1|]; cbn; [apply IH | done]. }
  induction results as [|r results IH]; intros b; cbn [scanResults]; [done|].
  unfold allLogs. cbn [mbind list_bind]. rewrite Happ.
  destruct (scanLogs b (default [] (log r))) as [b1|]; cbn; [apply IH | done].
Qed.

Lemma sort_insert_perm x l : sort_insert x l ≡ₚ x :: l.
Proof.
  induction l as [|y l IH]; cbn; [done|].
  destruct (0 <? compareHolders x y); [|done].
  rewrite IH. apply Permutation_swap.
Qed.

Lemma sortHolders_perm l : sortHolders l ≡ₚ l.
Proof.
  induction l as [|x l IH]; cbn; [done|].
  unfold sortHolders in *. by rewrite sort_insert_perm, IH.
Qed.

(** C9. When the data of every Transfer log is hexadecimal, the holders
    endpoint answers, and the addresses it lists are, each once, those
    other than the zero address whose signed sum of Transfer amounts is
    positive; the balance listed with an address is that sum. *)
Theorem holders_are_positive_ledgers results decimals hexToBase58 :
  Forall (λ l, isTransferLog l = true →
               is_Some (JS.bigint_of_hex (JS.or_default (data l) "0")))
         (allLogs results) →
  let ts := transfersOf (allLogs results) in
  ∃ resp, tokenHolders results decimals hexToBase58 = Some resp ∧
    NoDup (address <$> holders resp) ∧
    (∀ a, a ∈ address <$> holders resp ↔ a ≠ ZERO_ADDRESS ∧ 0 < ledger a ts) ∧
    (∀ hd, hd ∈ holders resp →
       balance hd = JS.toString (ledger (address hd) ts) ∧
       balanceFormatted hd = formatTokenAmount (balance hd) decimals ∧
       addressBase58 hd = hexToBase58 (address hd)) ∧
    totalHolders resp = Z.of_nat (length (holders resp)).
Proof.
  intros Hhex ts. unfold tokenHolders. rewrite scanResults_allLogs.
  destruct (scanLogs_ledger (allLogs results) [] Hhex) as (b & -> & Hnd & Hget).
  specialize (Hnd (NoDup_nil_2 : NoDup ([] : Balances).*1)).
  cbn [mbind option_bind]. eexists. split; [done|]. cbn [holders totalHolders].
  set (mk := λ e : string * Z, {| address := e.1; addressBase58 := hexToBase58 e.1;
               balance := JS.toString e.2;
               balanceFormatted := formatTokenAmount (JS.toString e.2) decimals |}).
  match goal with |- context [sortHolders ?l] => set (kept := l) end.
  assert (∀ a, bal_get b a = if String.eqb a ZERO_ADDRESS then 0 else ledger a ts)
    as Hbal by (intros a; rewrite Hget; cbn [bal_get]; unfold ts; lia).
  assert (address <$> (mk <$> sortHolders kept) = (sortHolders kept).*1) as Haddr.
  { rewrite <- list_fmap_compose. done. }
  split_and!.
  - rewrite Haddr, sortHolders_perm.
    eapply sublist_NoDup; [exact Hnd|]. apply fmap_sublist, sublist_filter.
  - intros a. rewrite Haddr, sortHolders_perm.
    assert (a ∈ kept.*1 ↔ ∃ v, (a, v) ∈ b ∧ 0 < v) as ->.
    { rewrite list_elem_of_fmap. split.
      - intros ([k v] & -> & [Hv Hin]%list_elem_of_filter). by exists v.
      - intros (v & Hin & Hv). exists (a, v). split; [done|].
        by apply list_elem_of_filter. }
    rewrite (positive_entry b a Hnd), Hbal.
    destruct (String.eqb_spec a ZERO_ADDRESS); split; [lia | intros [? ?]; done | done | by intros [_ ?]].
  - intros hd ([k v] & -> & Hin)%list_elem_of_fmap. cbn.
    rewrite sortHolders_perm in Hin. apply list_elem_of_filter in Hin as [Hv Hin].
    apply (bal_entry b k v Hnd) in Hin as [_ Hkv]. cbn in Hv.
    rewrite Hbal in Hkv. destruct (String.eqb k ZERO_ADDRESS); [lia|].
    by rewrite Hkv.
  - done.
Qed.

End Holders.

(** ** The theorems at work on the small chain *)

Existing Instance Scenario.IntegerNumbers.

Lemma node_replies top k :
  0 ≤ k ≤ top → Rpc.getBlock (Scenario.node top []) k ≠ Rpc.Failure.
Proof.
  intros Hk. cbn. rewrite bool_decide_false by apply not_elem_of_nil.
  by rewrite bool_decide_true by done.
Qed.

(** The blocks of the small chain carry their height, and their hash
    tells the height. *)
Lemma scenario_block top gaps k b :
  Rpc.getBlock (Scenario.node top gaps) k = Rpc.Reply (Some b) →
  Rpc.Block.height b = k ∧
  (if String.eqb (Rpc.Block.hash b) "h7" then JS.Int 7
   else JS.parseInt (Rpc.Block.hash b)) = JS.Int k.
Proof.
  cbn. destruct (bool_decide (k ∈ gaps)); [done|].
  destruct (bool_decide (0 ≤ k ≤ top)); [|done].
  destruct (k =? 7) eqn:Hk; intros [= <-].
  - apply Z.eqb_eq in Hk as ->. done.
  - split; [done|]. cbn [Scenario.block Rpc.Block.hash].
    destruct (String.eqb (JS.toString k) "h7") eqn:Hh.
    + apply String.eqb_eq in Hh. pose proof (parseInt_toString k) as Hp.
      rewrite Hh in Hp. vm_compute in Hp. discriminate Hp.
    + apply parseInt_toString.
Qed.

Lemma scenario_chain top gaps lo hi :
  Indexer.chain_consistent (Scenario.node top gaps) lo hi.
Proof.
  intros k b _ Hb. destruct (scenario_block top gaps k b Hb) as [Hheight Hk].
  split; [done|]. intros k' b' _ Hb' Hhash.
  destruct (scenario_block top gaps k' b' Hb') as [_ Hk'].
  rewrite Hhash, Hk in Hk'. by injection Hk'.
Qed.

Lemma empty_store_fresh top gaps lo hi :
  Indexer.hashes_fresh (Scenario.node top gaps) (Indexer.store Scenario.world0) lo hi.
Proof. intros k b k' r _ _ Hrow. cbn in Hrow. by rewrite lookup_empty in Hrow. Qed.

Lemma sync_step_batch_witness :
  (Indexer.getLastIndexedBlock (Indexer.store Scenario.world0) = JS.Int (-1) ∧
   Rpc.getBlockCount (Scenario.node 25 []) = Rpc.Reply 25 ∧ -1 < 25) ∧
  ∃ w', Indexer.sync_step (Scenario.node 25 []) Scenario.world0
          = (Indexer.Indexed (JS.Int 9), w') ∧
        Indexer.fetched (Indexer.calls w') = seqZ 0 10 ∧
        Indexer.getLastIndexedBlock (Indexer.store w') = JS.Int 9.
Proof.
  split; [split_and!; [reflexivity | reflexivity | lia]|].
  destruct (sync_step_batch (Scenario.node 25 []) Scenario.world0 (-1) 25
              eq_refl eq_refl ltac:(lia) ltac:(lia) ltac:(lia)) as (_ & _ & Hok & _).
  destruct (Hok (λ k Hk, node_replies 25 k
                           ltac:(unfold Indexer.batchSize in Hk; lia))
              (scenario_chain 25 [] _ _) (empty_store_fresh 25 [] _ _))
    as (w' & cs & Hstep & Hcalls & Hfetched & Hcur & _).
  exists w'. split; [exact Hstep|]. split; [|exact Hcur].
  rewrite Hcalls. exact Hfetched.
Defined.



Lemma token_row_precedes_transfer_witness :
  Indexer.transfers_reference_tokens Db.empty ∧
  Indexer.transfers_reference_tokens (Indexer.store Scenario.indexed7) ∧
  (Indexer.indexLog (Scenario.node 7 []) "t1" Scenario.transferLog Scenario.block7 0
     Scenario.committed7).1 = Indexer.Return tt.
Proof.
  pose proof (token_row_precedes_transfer (Scenario.node 7 []))
    as (Hempty & Hlog & Hkeeps).
  split; [exact Hempty|]. split.
  - destruct (Hkeeps Scenario.world0 Hempty) as (_ & _ & _ & Hblock & _).
    destruct (Hkeeps Scenario.committed7 (Hblock 7)) as (_ & _ & _ & _ & _ & Hsettle).
    exact Hsettle.
  - destruct (Hlog "t1" Scenario.transferLog Scenario.block7 0 Scenario.tokenContract
                "0x000000000000000000000000aaaaaaaaaaaaaaaaaaaaaaaaaaaaaaaaaaaaaaaa"
                "0x000000000000000000000000bbbbbbbbbbbbbbbbbbbbbbbbbbbbbbbbbbbbbbbb"
                [] Scenario.committed7 ltac:(vm_compute; eexists; reflexivity)
                eq_refl eq_refl) as (Hrun & _).
    rewrite Hrun. reflexivity.
Defined.

Lemma detectToken_memoises_or_probes_witness :
  (Db.getToken (JS.toLowerCase Scenario.tokenContract)
     (Indexer.store Scenario.world0) = None ∧
   (Indexer.detectToken (Scenario.node 7 []) Scenario.tokenContract Scenario.world0).1
   = Indexer.Return (Indexer.Probed Scenario.tokenContract "Unknown" "???" 18 "0")) ∧
  ∃ row,
    Db.getToken (JS.toLowerCase Scenario.tokenContract)
      (Indexer.store Scenario.indexed7) = Some row ∧
    Indexer.detectToken (Scenario.node 7 []) Scenario.tokenContract Scenario.indexed7
    = (Indexer.Return (Indexer.Existing row), Scenario.indexed7).
Proof.
  split.
  - split; [reflexivity|].
    destruct (detectToken_memoises_or_probes (Scenario.node 7 [])
                Scenario.tokenContract Scenario.world0) as [_ Hfresh].
    rewrite (Hfresh eq_refl). reflexivity.
  - eexists. split; [vm_compute; reflexivity|].
    destruct (detectToken_memoises_or_probes (Scenario.node 7 [])
                Scenario.tokenContract Scenario.indexed7) as [Hstored _].
    apply Hstored. vm_compute. reflexivity.
Defined.

Lemma holders_are_positive_ledgers_witness :
  Forall (λ l, Server.isTransferLog l = true →
               is_Some (JS.bigint_of_hex (JS.or_default (Server.data l) "0")))
         (Server.allLogs Scenario.searchReply) ∧
  ∃ resp, Server.tokenHolders Scenario.searchReply 0 id = Some resp ∧
    (Server.address <$> Server.holders resp) = [Scenario.alice; Scenario.bob] ∧
    (Server.balance <$> Server.holders resp) = ["70"; "20"] ∧
    ∀ a, a ∈ Server.address <$> Server.holders resp ↔
         a ≠ Server.ZERO_ADDRESS ∧
         0 < Server.ledger a (Server.transfersOf (Server.allLogs Scenario.searchReply)).
Proof.
  assert (Forall (λ l, Server.isTransferLog l = true →
               is_Some (JS.bigint_of_hex (JS.or_default (Server.data l) "0")))
         (Server.allLogs Scenario.searchReply)) as Hhex.
  { repeat (apply Forall_cons; split;
            [first [ intros _; eexists; vm_compute; reflexivity
                   | intros Htr; vm_compute in Htr; discriminate Htr ] |]).
    apply Forall_nil_2. }
  split; [exact Hhex|].
  destruct (holders_are_positive_ledgers Scenario.searchReply 0 id Hhex)
    as (resp & Hresp & _ & Hmem & _).
  exists resp. split; [exact Hresp|].
  assert (Server.tokenHolders Scenario.searchReply 0 id = Some resp) as Hrun by exact Hresp.
  vm_compute in Hrun. injection Hrun as <-.
  split; [reflexivity|]. split; [reflexivity|]. exact Hmem.
Defined.

(** * Further properties of the code *)

(** ** Amounts and hexadecimal text of the explorer *)
Section Amounts.
Import JS Server.

(** X1. For one decimal or more, [formatTokenAmount] of the decimal text
    of [q * 10^d + r], with [r] below [10^d], is the text of [q] when [r]
    is zero, and else the text of [q], a point, and [r] on [d] digits
    without its trailing zeros. *)
Theorem formatTokenAmount_quotient (q r : N) (d : nat) :
  (1 ≤ d)%nat → (r < 10 ^ N.of_nat d)%N →
  formatTokenAmount (toString (Z.of_N (q * 10 ^ N.of_nat d + r))) (Z.of_nat d)
  = if (r =? 0)%N then toString (Z.of_N q)
    else toString (Z.of_N q) +:+ "." +:+
         strip_trailing_zeros (of_chars (fixedDigits d r)).
Proof.
  intros Hd Hr. rewrite formatTokenAmount_divides by done. unfold amountText.
  assert ((q * 10 ^ N.of_nat d + r) `div` 10 ^ N.of_nat d = q)%N as ->.
  { symmetry. apply (N.div_unique _ _ q r); [done | lia]. }
  assert ((q * 10 ^ N.of_nat d + r) `mod` 10 ^ N.of_nat d = r)%N as ->.
  { symmetry. apply (N.mod_unique _ _ q r); [done | lia]. }
  destruct (r =? 0)%N; [done|]. by rewrite padStart_fixed.
Qed.

End Amounts.

Section Hex.
Import JS Server Explorer.

Lemma slice_middle l1 l2 l3 :
  slice (of_chars (l1 ++ l2 ++ l3)) (Z.of_nat (length l1))
        (Z.of_nat (length l1 + length l2)) = of_chars l2.
Proof.
  unfold slice, rel_index. rewrite strlen_chars, chars_of_chars, !length_app.
  rewrite !(proj2 (Z.ltb_ge _ 0)) by lia.
  rewrite !Z.min_l by lia. f_equal.
  match goal with |- take ?n (drop ?m _) = _ =>
    replace n with (length l2) by lia; replace m with (length l1) by lia
  end.
  by rewrite drop_app_length, take_app_length.
Qed.

Lemma chars_length_strlen a n : strlen a = Z.of_nat n → length (chars a) = n.
Proof. rewrite strlen_chars. lia. Qed.

Lemma hex_digit_char d : (d < 16)%N → hex_digit (hex_char d) = Some d.
Proof.
  intros Hd.
  assert (d = 0 ∨ d = 1 ∨ d = 2 ∨ d = 3 ∨ d = 4 ∨ d = 5 ∨ d = 6 ∨ d = 7
          ∨ d = 8 ∨ d = 9 ∨ d = 10 ∨ d = 11 ∨ d = 12 ∨ d = 13 ∨ d = 14
          ∨ d = 15)%N as Hcases by lia.
  destruct_or!; subst; reflexivity.
Qed.

Lemma length_hexFixed k x : length (hexFixed k x) = k.
Proof.
  revert x. induction k as [|k IH]; intros x; cbn; [done|].
  rewrite length_app, IH. cbn. lia.
Qed.

Lemma pow16_succ (k : nat) : (16 ^ N.of_nat (S k) = 16 * 16 ^ N.of_nat k)%N.
Proof. rewrite Nat2N.inj_succ. apply N.pow_succ_r'. Qed.

(** Reading the digits of [hexFixed k x] shifts what was read by [k]
    digits and adds [x]. *)
Lemma hex_go_fixed k : ∀ x acc s,
  (x < 16 ^ N.of_nat k)%N →
  hex_go acc (of_chars (hexFixed k x) +:+ s) = hex_go (acc * 16 ^ N.of_nat k + x) s.
Proof.
  induction k as [|k IH]; intros x acc s Hx.
  - cbn in *. f_equal. lia.
  - cbn [hexFixed]. rewrite of_chars_app, append_assoc.
    rewrite pow16_succ in Hx.
    rewrite IH by (apply N.Div0.div_lt_upper_bound; lia).
    cbn [of_chars string_of_list_ascii]. rewrite append_cons. cbn [hex_go].
    rewrite hex_digit_char by (by apply N.mod_lt).
    change ("" +:+ s) with s. f_equal. rewrite pow16_succ.
    pose proof (N.div_mod x 16 ltac:(done)) as Hdm.
    revert Hdm. generalize (x `div` 16)%N (x `mod` 16)%N (16 ^ N.of_nat k)%N.
    intros q r p Hdm. lia.
Qed.

Lemma hex_prefix_go_fixed k : ∀ x acc s,
  (x < 16 ^ N.of_nat k)%N →
  hex_prefix_go acc (of_chars (hexFixed k x) +:+ s)
  = hex_prefix_go (acc * 16 ^ N.of_nat k + x) s.
Proof.
  induction k as [|k IH]; intros x acc s Hx.
  - cbn in *. f_equal. lia.
  - cbn [hexFixed]. rewrite of_chars_app, append_assoc.
    rewrite pow16_succ in Hx.
    rewrite IH by (apply N.Div0.div_lt_upper_bound; lia).
    cbn [of_chars string_of_list_ascii]. rewrite append_cons. cbn [hex_prefix_go].
    rewrite hex_digit_char by (by apply N.mod_lt).
    change ("" +:+ s) with s. f_equal. rewrite pow16_succ.
    pose proof (N.div_mod x 16 ltac:(done)) as Hdm.
    revert Hdm. generalize (x `div` 16)%N (x `mod` 16)%N (16 ^ N.of_nat k)%N.
    intros q r p Hdm. lia.
Qed.

(** A word starts with a hexadecimal digit. *)
Lemma hexFixed_head k x :
  ∃ c r d, of_chars (hexFixed (S k) x) = String c r ∧ hex_digit c = Some d.
Proof.
  revert x. induction k as [|k IH]; intros x.
  - cbn. eexists _, _, _. split; [done|]. apply hex_digit_char. by apply N.mod_lt.
  - destruct (IH (x / 16)%N) as (c & r & d & Heq & Hc).
    change (hexFixed (S (S k)) x)
      with (hexFixed (S k) (x / 16) ++ [hex_char (x `mod` 16)]).
    rewrite of_chars_app, Heq, append_cons. by eexists _, _, _.
Qed.

Lemma hexFixed_hex k x c : c ∈ hexFixed k x → is_Some (hex_digit c).
Proof.
  revert x. induction k as [|k IH]; intros x; cbn; [by intros ?%elem_of_nil|].
  rewrite elem_of_app, list_elem_of_singleton. intros [Hc| ->]; [by eapply IH|].
  rewrite hex_digit_char by (by apply N.mod_lt). done.
Qed.

Lemma bigint_of_hex_fixed k x :
  (1 ≤ k)%nat → (x < 16 ^ N.of_nat k)%N →
  bigint_of_hex (of_chars (hexFixed k x)) = Some x.
Proof.
  intros Hk Hx. destruct k as [|k]; [lia|].
  destruct (hexFixed_head k x) as (c & r & d & Heq & Hc).
  unfold bigint_of_hex. rewrite Heq, <- Heq.
  rewrite <- (append_empty_r (of_chars _)), hex_go_fixed by done.
  cbn [hex_go]. by rewrite N.mul_0_l, N.add_0_l.
Qed.

Lemma decodeUint256_word (k : nat) (x : N) :
  (1 ≤ k)%nat → (x < 16 ^ N.of_nat k)%N →
  decodeUint256 (Some (of_chars (hexFixed k x))) = Some (toString (Z.of_N x)).
Proof.
  intros Hk Hx. unfold decodeUint256.
  destruct k as [|k]; [lia|].
  destruct (hexFixed_head k x) as (c & r & d & Heq & Hc).
  assert (or_null (Some (of_chars (hexFixed (S k) x)))
          = Some (of_chars (hexFixed (S k) x))) as -> by (by rewrite Heq).
  destruct (String.eqb_spec (of_chars (hexFixed (S k) x)) "0x") as [H0x|_].
  { assert ("x"%char ∈ hexFixed (S k) x) as Hin.
    { rewrite <- (chars_of_chars (hexFixed _ _)), H0x. cbn. by right; left. }
    by apply hexFixed_hex in Hin as [? ?]. }
  by rewrite bigint_of_hex_fixed.
Qed.

(** X2. [decodeUint256] answers ["0"] for data that is absent, empty or
    ["0x"], and for a number written on [k] hexadecimal digits, leading
    zeros included, it answers the decimal text of that number. *)
Theorem decodeUint256_decimal :
  decodeUint256 None = Some "0" ∧
  decodeUint256 (Some "") = Some "0" ∧
  decodeUint256 (Some "0x") = Some "0" ∧
  ∀ (k : nat) (x : N), (1 ≤ k)%nat → (x < 16 ^ N.of_nat k)%N →
    decodeUint256 (Some (of_chars (hexFixed k x))) = Some (toString (Z.of_N x)).
Proof. split_and!; [done..|]. apply decodeUint256_word. Qed.

(** X3. [decodeAddress] answers the empty text for a topic that is
    absent or shorter than forty characters, and else the last forty
    characters; so it gives back a forty-character address from the
    sixty-four characters [balanceOfData] pads it to, in a call data of
    seventy-two characters. *)
Theorem decodeAddress_low_bytes :
  decodeAddress None = "" ∧
  (∀ h, strlen h < 40 → decodeAddress (Some h) = "") ∧
  (∀ pre a, strlen a = 40 → decodeAddress (Some (pre +:+ a)) = a) ∧
  (∀ a, strlen a = 40 →
     decodeAddress (Some (padStart a 64 "0")) = a ∧
     decodeAddress (Some (balanceOfData a)) = a ∧
     strlen (balanceOfData a) = 72).
Proof.
  assert (∀ pre a, strlen a = 40 → decodeAddress (Some (pre +:+ a)) = a) as Hlow.
  { intros pre a Ha. unfold decodeAddress.
    assert (or_null (Some (pre +:+ a)) = Some (pre +:+ a)) as ->.
    { destruct a; [done|]. by destruct pre. }
    assert (strlen (pre +:+ a) = strlen pre + 40) as Hlen.
    { rewrite !strlen_chars, chars_app, length_app in *. lia. }
    rewrite (proj2 (Z.ltb_ge _ _)) by (rewrite Hlen; unfold strlen; lia).
    rewrite <- (of_chars_chars pre), <- (of_chars_chars a), <- of_chars_app.
    pose proof (slices (chars pre) (chars a)) as Hs.
    rewrite (chars_length_strlen a 40) in Hs by done.
    destruct Hs as [_ Hs]; [lia|]. exact Hs. }
  split_and!; [done | | done |].
  - intros h Hh. unfold decodeAddress. destruct (or_null (Some h)) eqn:Hn; [|done].
    cbn in Hn. destruct (truthy h); [|done]. injection Hn as <-.
    by rewrite (proj2 (Z.ltb_lt _ _)).
  - intros a Ha. split_and!.
    + unfold padStart. by apply Hlow.
    + unfold balanceOfData, padStart. rewrite <- append_assoc. by apply Hlow.
    + unfold balanceOfData, padStart.
      rewrite !strlen_chars, !chars_app, !length_app, chars_of_chars, length_replicate in *.
      cbn [chars list_ascii_of_string length]. lia.
Qed.

End Hex.

(** ** [decodeString] *)
Section Strings.
Import JS Server Explorer.

Lemma hex_digit_plain c d :
  hex_digit c = Some d →
  Ascii.is_space c = false ∧ Ascii.eqb c "x" || Ascii.eqb c "X" = false.
Proof. by destruct c as [[] [] [] [] [] [] [] []]. Qed.

Lemma parse_magnitude16_hex c r :
  is_Some (hex_digit c) →
  (∀ x r', r = String x r' → is_Some (hex_digit x)) →
  parse_magnitude16 (String c r) = Some (hex_prefix_go 0 (String c r)).
Proof.
  intros [d Hc] Hr. unfold parse_magnitude16. destruct r as [|x r'].
  - by destruct c as [[] [] [] [] [] [] [] []].
  - destruct (Hr x r' eq_refl) as [dx Hx].
    destruct (hex_digit_plain x dx Hx) as [_ ->].
    by destruct c as [[] [] [] [] [] [] [] []].
Qed.

(** [parseInt(s, 16)] of hexadecimal digits reads them all. *)
Lemma parseInt16_hex s :
  s ≠ "" → Forall (λ c, is_Some (hex_digit c)) (chars s) →
  parseInt16 s = Int (Z.of_N (hex_prefix_go 0 s)).
Proof.
  intros Hs Hall. destruct s as [|c r]; [done|]. cbn in Hall.
  apply Forall_cons in Hall as [[d Hc] Hall].
  unfold parseInt16.
  assert (skip_space (String c r) = String c r) as ->.
  { cbn. by destruct (hex_digit_plain c d Hc) as [-> _]. }
  assert ((match String c r with
           | String "-" r0 => (true, r0)
           | String "+" r0 => (false, r0)
           | _ => (false, String c r)
           end) = (false, String c r)) as ->.
  { by destruct c as [[] [] [] [] [] [] [] []]. }
  rewrite parse_magnitude16_hex; [done | by exists d |].
  intros x r' ->. cbn in Hall. by apply Forall_cons in Hall as [? _].
Qed.

Lemma parseInt16_word k x :
  (1 ≤ k)%nat → (x < 16 ^ N.of_nat k)%N →
  parseInt16 (of_chars (hexFixed k x)) = Int (Z.of_N x).
Proof.
  intros Hk Hx. rewrite parseInt16_hex.
  - rewrite <- (append_empty_r (of_chars _)), hex_prefix_go_fixed by done.
    cbn [hex_prefix_go]. by rewrite N.mul_0_l, N.add_0_l.
  - destruct k as [|k]; [lia|].
    by destruct (hexFixed_head k x) as (c & r & d & -> & _).
  - rewrite chars_of_chars. apply Forall_forall. intros c. apply hexFixed_hex.
Qed.

Lemma hex_bytes_byte b s :
  hex_bytes (of_chars (hexFixed 2 (Byte.to_N b)) +:+ s) = b :: hex_bytes s.
Proof. destruct b; reflexivity. Qed.

(** [Buffer.from(_, 'hex')] gives back the bytes of their hexadecimal
    text. *)
Lemma hex_bytes_of_bytes bs : hex_bytes (of_chars (hex_of_bytes bs)) = bs.
Proof.
  induction bs as [|b bs IH]; [done|].
  unfold hex_of_bytes in *. cbn [mbind list_bind].
  by rewrite of_chars_app, hex_bytes_byte, IH.
Qed.

Lemma length_hex_of_bytes bs : length (hex_of_bytes bs) = (2 * length bs)%nat.
Proof.
  induction bs as [|b bs IH]; [done|].
  unfold hex_of_bytes in *. cbn [mbind list_bind].
  rewrite length_app, IH, length_hexFixed. cbn. lia.
Qed.

Lemma decodeString_words utf8 offset bs tail :
  length offset = 64%nat → (N.of_nat (length bs) < 16 ^ 64)%N →
  decodeString utf8
    (Some (of_chars (offset ++ hexFixed 64 (N.of_nat (length bs))
                     ++ hex_of_bytes bs ++ tail)))
  = utf8 bs.
Proof.
  intros Hoff Hlen. unfold decodeString.
  set (word := hexFixed 64 (N.of_nat (length bs))).
  set (hex := of_chars (offset ++ word ++ hex_of_bytes bs ++ tail)).
  assert (128 ≤ strlen hex) as Hlong.
  { subst hex. rewrite strlen_chars, chars_of_chars, !length_app.
    subst word. rewrite length_hexFixed. lia. }
  assert (or_null (Some hex) = Some hex) as ->.
  { destruct hex; [|done]. unfold strlen in Hlong. cbn in Hlong. lia. }
  assert (String.eqb hex "0x" = false) as ->.
  { apply String.eqb_neq. intros H0x. rewrite H0x in Hlong.
    unfold strlen in Hlong. cbn in Hlong. lia. }
  rewrite (proj2 (Z.ltb_ge _ _)) by done. cbn [orb].
  assert (slice hex 64 128 = of_chars word) as ->.
  { pose proof (slice_middle offset word (hex_of_bytes bs ++ tail)) as Hs.
    subst word. rewrite length_hexFixed, Hoff in Hs. exact Hs. }
  subst word. rewrite parseInt16_word by (done || lia). cbn [slice_to].
  assert (slice hex 128 (128 + Z.of_N (N.of_nat (length bs)) * 2)
          = of_chars (hex_of_bytes bs)) as ->.
  { pose proof (slice_middle (offset ++ hexFixed 64 (N.of_nat (length bs)))
                  (hex_of_bytes bs) tail) as Hs.
    rewrite length_app, length_hexFixed, Hoff, length_hex_of_bytes in Hs.
    rewrite <- app_assoc in Hs. subst hex.
    replace (128 + Z.of_N (N.of_nat (length bs)) * 2)
      with (Z.of_nat (64 + 64 + 2 * length bs)) by lia.
    exact Hs. }
  by rewrite hex_bytes_of_bytes.
Qed.

Lemma decodeString_abiString utf8 bs :
  (N.of_nat (length bs) < 16 ^ 64)%N →
  decodeString utf8 (Some (abiString bs)) = utf8 bs.
Proof.
  intros Hlen. unfold abiString. apply decodeString_words; [apply length_hexFixed | done].
Qed.

(** X4. [decodeString] answers the empty text for an output shorter
    than 128 characters. On an output made of sixty-four characters of
    any kind, the length of a byte string as a word, the hexadecimal text
    of its bytes, and anything behind, it answers the text of these bytes:
    the offset word and the padding play no part. So it reads back the
    ABI encoding of a string. *)
Theorem decodeString_abi (utf8 : list Byte.byte → string) :
  (∀ hex, strlen hex < 128 → decodeString utf8 (Some hex) = "") ∧
  (∀ offset bs tail,
     strlen offset = 64 → (N.of_nat (length bs) < 16 ^ 64)%N →
     decodeString utf8
       (Some (offset
              +:+ of_chars (hexFixed 64 (N.of_nat (length bs)) ++ hex_of_bytes bs)
              +:+ tail))
     = utf8 bs) ∧
  (∀ bs, (N.of_nat (length bs) < 16 ^ 64)%N →
     decodeString utf8 (Some (abiString bs)) = utf8 bs).
Proof.
  split_and!.
  - intros hex Hshort. unfold decodeString.
    destruct (or_null (Some hex)) eqn:Hn; [|done].
    cbn in Hn. destruct (truthy hex); [|done]. injection Hn as <-.
    by rewrite (proj2 (Z.ltb_lt _ _)), orb_true_r.
  - intros offset bs tail Hoff Hlen.
    rewrite <- (of_chars_chars offset), <- (of_chars_chars tail).
    rewrite <- !of_chars_app, <- app_assoc.
    apply decodeString_words; [by apply chars_length_strlen | done].
  - apply decodeString_abiString.
Qed.

End Strings.

(** ** The endpoints of the stand-alone explorer *)
Section ExplorerFacts.
Import JS Server Explorer.
Context (node : Node) (utf8 : list Byte.byte → string).

Lemma reply_bind_eq {A B} (m : Rpc.reply A) (k : A → Rpc.reply B) :
  (m ≫= k) = match m with Rpc.Reply a => k a | Rpc.Failure => Rpc.Failure end.
Proof. reflexivity. Qed.

(** The loop of [GET /api/blocks] from [i] down, on fuel enough for all
    its turns. *)
Lemma blocksLoop_run (blockAt : Z → NodeBlock.t) count limit : ∀ fuel i acc,
  (Z.to_nat (i + 1) ≤ fuel)%nat →
  (∀ h, Z.max 0 (count - limit + 1) ≤ h ≤ i →
     ∃ hash, getblockhash node h = Rpc.Reply hash ∧
             getblock node hash = Rpc.Reply (blockAt h)) →
  let lo := Z.max 0 (count - limit + 1) in
  blocksLoop node fuel count limit i acc
  = Rpc.Reply (acc ++ ((λ h, summary (blockAt h)) <$> reverse (seqZ lo (i - lo + 1)))).
Proof.
  intros fuel. induction fuel as [|fuel IH]; intros i acc Hfuel Hnode lo;
    assert (lo = Z.max 0 (count - limit + 1)) as Hlo by done; clearbody lo.
  - cbn [blocksLoop]. replace (seqZ lo (i - lo + 1)) with (@nil Z).
    + by rewrite app_nil_r.
    + unfold seqZ. replace (Z.to_nat (i - lo + 1)) with 0%nat by lia. done.
  - cbn [blocksLoop].
    destruct ((count - limit <? i) && (0 <=? i)) eqn:Hcond.
    + apply andb_true_iff in Hcond as [Hlt%Z.ltb_lt Hle%Z.leb_le].
      destruct (Hnode i) as (hash & -> & Hblock); [lia|].
      rewrite reply_bind_eq, Hblock, reply_bind_eq.
      rewrite IH; [| lia | intros h Hh; apply Hnode; lia].
      rewrite <- Hlo. f_equal. rewrite <- app_assoc. f_equal.
      replace (i - lo + 1) with ((i - 1 - lo + 1) + 1) by lia.
      rewrite (seqZ_app lo (i - 1 - lo + 1) 1) by lia.
      change (seqZ ?m 1) with [m]. rewrite reverse_snoc.
      replace (lo + (i - 1 - lo + 1)) with i by lia. done.
    + replace (seqZ lo (i - lo + 1)) with (@nil Z); [by rewrite app_nil_r|].
      unfold seqZ. apply andb_false_iff in Hcond as [Hc%Z.ltb_ge|Hc%Z.leb_gt];
        by replace (Z.to_nat (i - lo + 1)) with 0%nat by lia.
Qed.

Lemma blocksLoop_failure count limit : ∀ fuel i acc h,
  (Z.to_nat (i + 1) ≤ fuel)%nat →
  Z.max 0 (count - limit + 1) ≤ h ≤ i →
  getblockhash node h = Rpc.Failure →
  blocksLoop node fuel count limit i acc = Rpc.Failure.
Proof.
  intros fuel. induction fuel as [|fuel IH]; intros i acc h Hfuel Hh Hfail; [lia|].
  cbn [blocksLoop].
  rewrite (proj2 (Z.ltb_lt _ _)), (proj2 (Z.leb_le _ _)) by lia. cbn [andb].
  destruct (decide (h = i)) as [->|Hne]; [by rewrite Hfail|].
  destruct (getblockhash node i) as [hash|]; [|done]. rewrite reply_bind_eq.
  destruct (getblock node hash) as [block|]; [|done]. rewrite reply_bind_eq.
  apply (IH _ _ h); [lia | lia | done].
Qed.

(** X5. With the chain at a height [c] that the engine counts exactly,
    [GET /api/blocks] lists the heights
    from [c] down to [max(1, c - 19)], newest first: [min(20, c)] blocks,
    never the block of height 0, and none at all for [c = 0]. It answers
    with the summaries of these blocks when the node replies for each of
    them, and fails when the node fails on the hash of one. *)
Theorem getBlocks_newest (blockAt : Z → NodeBlock.t) c :
  getblockcount node = Rpc.Reply c → c ≤ 9007199254740991 →
  let oldest := Z.max 1 (c - 19) in
  let listed := reverse (seqZ oldest (c - oldest + 1)) in
  ((∀ h, oldest ≤ h ≤ c →
      ∃ hash, getblockhash node h = Rpc.Reply hash ∧
              getblock node hash = Rpc.Reply (blockAt h)) →
   getBlocks node
   = Rpc.Reply {| count := c; blocks := (λ h, summary (blockAt h)) <$> listed |}) ∧
  (∀ h, oldest ≤ h ≤ c → getblockhash node h = Rpc.Failure →
     getBlocks node = Rpc.Failure) ∧
  length listed = Z.to_nat (Z.min 20 c) ∧
  0 ∉ listed.
Proof.
  intros Hcount _ oldest listed.
  assert (Z.max 0 (c - Z.min 20 c + 1) = oldest) as Hlo by (subst oldest; lia).
  split_and!.
  - intros Hnode. unfold getBlocks. rewrite Hcount, reply_bind_eq.
    rewrite (blocksLoop_run blockAt); [| lia | by rewrite Hlo].
    by rewrite Hlo.
  - intros h Hh Hfail. unfold getBlocks. rewrite Hcount, reply_bind_eq.
    rewrite (blocksLoop_failure _ _ _ _ _ h); [done | lia | by rewrite Hlo | done].
  - subst listed. rewrite length_reverse, length_seqZ. subst oldest. lia.
  - subst listed. rewrite elem_of_reverse, elem_of_seqZ. subst oldest. lia.
Qed.

Lemma or_default_word k x d :
  (1 ≤ k)%nat → or_default (Some (of_chars (hexFixed k x))) d = of_chars (hexFixed k x).
Proof.
  intros Hk. destruct k as [|k]; [lia|].
  by destruct (hexFixed_head k x) as (c & r & dd & -> & _).
Qed.

(** X6. For a token contract that returns its name and its symbol as ABI
    strings, its decimals [d] (one at least, and a number the engine holds
    exactly) and its total supply as words, [GET /api/token/:addr] answers with the texts of the name and
    of the symbol, the number [d], the supply in decimal, and the supply
    divided by [10^d] as its formatted amount. *)
Theorem getToken_decodes addr nameBytes symbolBytes (d : nat) (supply : N) :
  callcontract node addr "06fdde03" = Rpc.Reply (returned (abiString nameBytes)) →
  callcontract node addr "95d89b41" = Rpc.Reply (returned (abiString symbolBytes)) →
  callcontract node addr "313ce567"
    = Rpc.Reply (returned (of_chars (hexFixed 64 (N.of_nat d)))) →
  callcontract node addr "18160ddd"
    = Rpc.Reply (returned (of_chars (hexFixed 64 supply))) →
  (N.of_nat (length nameBytes) < 16 ^ 64)%N →
  (N.of_nat (length symbolBytes) < 16 ^ 64)%N →
  (1 ≤ d)%nat → (N.of_nat d ≤ 9007199254740991)%N → (supply < 16 ^ 64)%N →
  ∃ info, getToken node utf8 addr = Rpc.Reply info ∧
    TokenInfo.address info = addr ∧
    TokenInfo.name info = utf8 nameBytes ∧
    TokenInfo.symbol info = utf8 symbolBytes ∧
    TokenInfo.decimals info = Int (Z.of_nat d) ∧
    TokenInfo.totalSupply info = toString (Z.of_N supply) ∧
    TokenInfo.totalSupplyFormatted info = amountText supply d.
Proof.
  intros Hname Hsymbol Hdecimals Hsupply Hn Hs Hd Hsafe Hsup.
  assert (N.of_nat d < 16 ^ 64)%N as Hd64.
  { eapply N.le_lt_trans; [exact Hsafe | reflexivity]. }
  unfold getToken. rewrite Hname, Hsymbol, Hdecimals, Hsupply.
  rewrite !reply_bind_eq. unfold returned, outputOf.
  cbn [CallResult.executionResult ExecutionResult.output].
  rewrite !reply_bind_eq. unfold uint256Of.
  rewrite decodeUint256_word by (done || lia). rewrite !reply_bind_eq.
  eexists. split; [done|].
  cbn [TokenInfo.address TokenInfo.name TokenInfo.symbol TokenInfo.decimals
       TokenInfo.totalSupply TokenInfo.totalSupplyFormatted].
  rewrite !decodeString_abiString by done.
  rewrite or_default_word, parseInt16_word by (done || lia).
  split_and!; try done.
  - by rewrite nat_N_Z.
  - unfold formatAmount. rewrite nat_N_Z. by apply formatTokenAmount_divides.
Qed.

End ExplorerFacts.

(** ** The transfers of a token, and its holders *)
Section TransfersFacts.
Import JS Server Explorer.
Context (hexToBase58 : string → string).

Lemma pushTransfers_run hit logs : ∀ acc,
  Forall decodable logs →
  pushTransfers hexToBase58 hit acc logs
  = Rpc.Reply
      (acc ++ omap (λ l, if isTransferLog l
                         then transferItem hexToBase58 hit l <$> decodeUint256 (data l)
                         else None) logs).
Proof.
  induction logs as [|l logs IH]; intros acc Hok; cbn [pushTransfers omap list_omap].
  - by rewrite app_nil_r.
  - apply Forall_cons in Hok as [Hl Hok]. destruct (isTransferLog l) eqn:Htr.
    + destruct (Hl Htr) as [v Hv]. unfold uint256Of. rewrite Hv, reply_bind_eq.
      rewrite IH by done. cbn [fmap option_fmap option_map]. by rewrite <- app_assoc.
    + by rewrite IH.
Qed.

Lemma scanHits_run results : ∀ acc,
  Forall decodable (allLogs (entries <$> results)) →
  scanHits hexToBase58 acc results
  = Rpc.Reply (acc ++ (results ≫= itemsOf hexToBase58)).
Proof.
  induction results as [|hit results IH]; intros acc Hok; cbn [scanHits].
  - by rewrite app_nil_r.
  - unfold allLogs in Hok. cbn [fmap list_fmap mbind list_bind] in Hok.
    apply Forall_app in Hok as [Hhit Hok].
    rewrite pushTransfers_run, reply_bind_eq by done.
    rewrite IH by done. cbn [mbind list_bind]. by rewrite <- app_assoc.
Qed.

Lemma length_itemsOf results :
  Forall decodable (allLogs (entries <$> results)) →
  length (results ≫= itemsOf hexToBase58)
  = length (filter (λ l, isTransferLog l = true) (allLogs (entries <$> results))).
Proof.
  induction results as [|hit results IH]; intros Hok; [done|].
  unfold allLogs in *. cbn [fmap list_fmap mbind list_bind] in *.
  apply Forall_app in Hok as [Hhit Hok].
  rewrite filter_app, !length_app, IH by done. f_equal.
  unfold itemsOf. induction Hhit as [|l logs Hl Hlogs IHl]; [done|].
  cbn [omap list_omap]. destruct (isTransferLog l) eqn:Htr.
  - destruct (Hl Htr) as [v ->]. rewrite filter_cons_True by done. cbn. by rewrite IHl.
  - rewrite filter_cons_False by (by rewrite Htr). done.
Qed.

(** X7. When [decodeUint256] reads the data of every Transfer log of
    the reply, [GET /api/token/:addr/transfers] answers with one entry for
    each Transfer log, in the reverse of the order of the reply (most
    recent first for a node that replies in chain order), each with the
    decoded sender, recipient and amount and the transaction and block of
    its result; [totalTransfers] is their number. *)
Theorem tokenTransfers_newest_first results :
  let logs := allLogs (entries <$> results) in
  Forall decodable logs →
  ∃ resp, tokenTransfers results hexToBase58 = Rpc.Reply resp ∧
    transfers resp = reverse (results ≫= itemsOf hexToBase58) ∧
    totalTransfers resp = Z.of_nat (length (transfers resp)) ∧
    length (transfers resp) = length (filter (λ l, isTransferLog l = true) logs).
Proof.
  intros logs Hok. unfold tokenTransfers. rewrite scanHits_run, reply_bind_eq by done.
  eexists. split; [done|]. cbn [transfers totalTransfers app].
  rewrite length_reverse. split_and!; [done | done |]. by apply length_itemsOf.
Qed.

(** *** The holders and the transfers of the same reply *)

Lemma scanLogs_hex logs : ∀ b b', scanLogs b logs = Some b' → Forall hexData logs.
Proof.
  induction logs as [|l logs IH]; intros b b' Hscan; [constructor|].
  cbn [scanLogs] in Hscan. destruct (applyLog b l) as [b1|] eqn:Hl; [|done].
  cbn in Hscan. constructor; [|by eapply IH].
  intros Htr. unfold applyLog in Hl. rewrite Htr in Hl.
  by destruct (bigint_of_hex (or_default (data l) "0")).
Qed.

(** The amount the holders endpoint books for a log is the one whose
    decimal text the transfers endpoint lists. *)
Lemma decodeUint256_amount d n :
  bigint_of_hex (or_default d "0") = Some n →
  decodeUint256 d = Some (toString (Z.of_N n)).
Proof.
  unfold or_default, decodeUint256. destruct (or_null d) as [h|].
  - intros Hn. destruct (String.eqb_spec h "0x") as [->|_]; [done|]. by rewrite Hn.
  - by intros [= <-].
Qed.

Lemma hexData_decodable l : hexData l → decodable l.
Proof.
  intros Hl Htr. destruct (Hl Htr) as [n Hn]. by rewrite (decodeUint256_amount _ n).
Qed.

Lemma ledger_app a ts1 ts2 : ledger a (ts1 ++ ts2) = ledger a ts1 + ledger a ts2.
Proof. unfold ledger. induction ts1 as [|t ts1 IH]; cbn; [done|]. rewrite IH. lia. Qed.

Lemma listedLedger_app a ts1 ts2 :
  listedLedger a (ts1 ++ ts2) = listedLedger a ts1 + listedLedger a ts2.
Proof.
  unfold listedLedger. induction ts1 as [|t ts1 IH]; cbn; [done|]. rewrite IH. lia.
Qed.

Lemma listedLedger_reverse a ts : listedLedger a (reverse ts) = listedLedger a ts.
Proof.
  induction ts as [|t ts IH]; [done|].
  rewrite reverse_cons, listedLedger_app, IH. unfold listedLedger. cbn [foldr]. lia.
Qed.

Lemma listedLedger_items a hit :
  Forall hexData (default [] (log (entries hit))) →
  listedLedger a (itemsOf hexToBase58 hit)
  = ledger a (transfersOf (default [] (log (entries hit)))).
Proof.
  unfold itemsOf, transfersOf. generalize (default [] (log (entries hit))).
  intros logs Hok. induction Hok as [|l logs Hl Hlogs IH]; [done|].
  cbn [omap list_omap]. destruct (isTransferLog l) eqn:Htr.
  - destruct (Hl Htr) as [n Hn]. rewrite (decodeUint256_amount _ n Hn).
    rewrite filter_cons_True by done. cbn [fmap option_fmap option_map list_fmap].
    unfold listedLedger, ledger in *. cbn [foldr]. rewrite IH. f_equal.
    unfold listedDelta, delta, listedAmount, logAmount, transferItem.
    cbn [TransferItem.value TransferItem.from TransferItem.to sender recipient amount].
    by rewrite parseInt_toString, Hn.
  - by rewrite filter_cons_False by (by rewrite Htr).
Qed.

Lemma listedLedger_results a results :
  Forall hexData (allLogs (entries <$> results)) →
  listedLedger a (results ≫= itemsOf hexToBase58)
  = ledger a (transfersOf (allLogs (entries <$> results))).
Proof.
  induction results as [|hit results IH]; intros Hok; [done|].
  unfold allLogs in *. cbn [fmap list_fmap mbind list_bind] in *.
  apply Forall_app in Hok as [Hhit Hok].
  rewrite listedLedger_app, listedLedger_items, IH by done.
  unfold transfersOf. by rewrite filter_app, fmap_app, ledger_app.
Qed.

(** X8. Whenever the holders endpoint answers on a reply of the node,
    the transfers endpoint answers on it too, and the balance listed for
    a holder is the sum of the listed amounts sent to that address less
    the sum of those sent from it, which is positive. *)
Theorem holders_match_transfers results decimals toBase58 hresp :
  tokenHolders (entries <$> results) decimals toBase58 = Some hresp →
  ∃ tresp, tokenTransfers results hexToBase58 = Rpc.Reply tresp ∧
    ∀ hd, hd ∈ holders hresp →
      balance hd = toString (listedLedger (address hd) (transfers tresp)) ∧
      0 < listedLedger (address hd) (transfers tresp).
Proof.
  intros Hholders. unfold tokenHolders in Hholders.
  rewrite scanResults_allLogs in Hholders.
  destruct (scanLogs [] (allLogs (entries <$> results))) as [b|] eqn:Hscan; [|done].
  pose proof (scanLogs_hex _ _ _ Hscan) as Hhex.
  destruct (scanLogs_ledger _ [] Hhex) as (b' & Hb' & Hnd & Hget).
  rewrite Hscan in Hb'. injection Hb' as <-.
  specialize (Hnd (NoDup_nil_2 : NoDup ([] : Balances).*1)).
  cbn in Hholders. injection Hholders as <-.
  unfold tokenTransfers.
  rewrite scanHits_run, reply_bind_eq
    by (eapply Forall_impl; [exact Hhex | apply hexData_decodable]).
  eexists. split; [done|]. cbn [transfers holders app].
  intros hd ([k v] & -> & Hin)%list_elem_of_fmap. cbn [address balance fst snd].
  rewrite sortHolders_perm in Hin. apply list_elem_of_filter in Hin as [Hv Hin].
  apply (bal_entry b k v Hnd) in Hin as [_ Hkv]. cbn in Hv.
  rewrite Hget in Hkv. cbn [bal_get] in Hkv.
  rewrite listedLedger_reverse, listedLedger_results by done.
  destruct (String.eqb k ZERO_ADDRESS); [lia|].
  rewrite Z.add_0_l in Hkv. rewrite Hkv. done.
Qed.

End TransfersFacts.

(** ** The list of the tokens *)
Section TokenFacts.
Import JS Server Explorer.
Context (node : Node) (utf8 : list Byte.byte → string).

Lemma setOf_facts (l : list string) : ∀ seen,
  NoDup seen →
  let out := foldl (λ (seen : list string) x,
                      if bool_decide (x ∈ seen) then seen else seen ++ [x]) seen l in
  NoDup out ∧ (∀ x, x ∈ out ↔ x ∈ seen ∨ x ∈ l) ∧
  (length out ≤ length seen + length l)%nat.
Proof.
  induction l as [|x l IH]; intros seen Hnd; cbn [foldl].
  - split_and!; [done | | cbn; lia].
    intros x. split; [by left | by intros [?|?%elem_of_nil]].
  - case_bool_decide as Hx.
    + destruct (IH seen Hnd) as (Hnd' & Hin & Hlen). split_and!; [done | | cbn; lia].
      intros y. rewrite Hin, elem_of_cons. split.
      * intros [?|?]; [by left | by right; right].
      * intros [?|[->|?]]; [by left | by left | by right].
    + destruct (IH (seen ++ [x])) as (Hnd' & Hin & Hlen).
      { apply NoDup_app. split_and!; [done | | apply NoDup_singleton].
        by intros y Hy ->%list_elem_of_singleton. }
      split_and!; [done | |].
      * intros y. rewrite Hin, elem_of_app, list_elem_of_singleton, elem_of_cons. tauto.
      * rewrite length_app in Hlen. cbn in *. lia.
Qed.

Lemma length_omap_le {A B} (f : A → option B) l : (length (omap f l) ≤ length l)%nat.
Proof. induction l as [|x l IH]; cbn; [done|]. destruct (f x); cbn; lia. Qed.

Lemma tokenEntry_address addr t :
  tokenEntry node utf8 addr = Rpc.Reply t → TokenEntry.address t = addr.
Proof.
  unfold tokenEntry. rewrite !reply_bind_eq.
  repeat (match goal with
          | |- context [match ?m with Rpc.Reply _ => _ | Rpc.Failure => _ end] =>
              destruct m; [rewrite ?reply_bind_eq | done]
          end).
  by intros [= <-].
Qed.

(** X9. [GET /api/tokens] lists no contract address twice. The tokens
    it lists are those of the contract addresses of the reply whose four
    calls and decodings go through and whose name is not empty, while
    [totalTokens] also counts those with an empty name: it is at least the
    length of the list and at most the number of results. *)
Theorem listTokens_distinct results :
  let resp := listTokens node utf8 results in
  NoDup (TokenEntry.address <$> tokens resp) ∧
  (∀ t, t ∈ tokens resp ↔
     TokenEntry.address t ∈ contractAddress <$> results ∧
     tokenEntry node utf8 (TokenEntry.address t) = Rpc.Reply t ∧
     TokenEntry.name t ≠ "") ∧
  Z.of_nat (length (tokens resp)) ≤ totalTokens resp ≤ Z.of_nat (length results).
Proof.
  intros resp. subst resp. unfold listTokens. cbn [tokens totalTokens].
  destruct (setOf_facts (contractAddress <$> results) [] (NoDup_nil_2))
    as (Hnd & Hin & Hlen).
  fold (setOf (contractAddress <$> results)) in Hnd, Hin, Hlen.
  set (addrs := setOf (contractAddress <$> results)) in *.
  assert (∀ t, t ∈ omap id (tokenOrNull node utf8 <$> addrs) ↔
               TokenEntry.address t ∈ addrs ∧
               tokenEntry node utf8 (TokenEntry.address t) = Rpc.Reply t) as Hmem.
  { intros t. rewrite list_elem_of_omap. split.
    - intros (o & (a & -> & Ha)%list_elem_of_fmap & Hid). cbn in Hid.
      unfold tokenOrNull in Hid.
      destruct (tokenEntry node utf8 a) as [t'|] eqn:Ht; [|done]. injection Hid as ->.
      rewrite (tokenEntry_address a t Ht). done.
    - intros [Ha Ht]. exists (Some t). split; [|done].
      apply list_elem_of_fmap. exists (TokenEntry.address t). split; [|done].
      unfold tokenOrNull. by rewrite Ht. }
  split_and!.
  - assert (∀ l, NoDup l →
              NoDup (TokenEntry.address <$> omap id (tokenOrNull node utf8 <$> l))) as Hnd'.
    { clear. intros l Hl. induction Hl as [|a l Ha Hl IH]; [constructor|].
      cbn [fmap list_fmap omap list_omap]. unfold tokenOrNull at 1.
      destruct (tokenEntry node utf8 a) as [t|] eqn:Ht; [|done].
      cbn [id fmap list_fmap]. constructor; [|done].
      rewrite (tokenEntry_address a t Ht).
      intros (t' & Heq & Hin)%list_elem_of_fmap.
      apply list_elem_of_omap in Hin as (o & (a' & -> & Ha')%list_elem_of_fmap & Hid).
      cbn in Hid. unfold tokenOrNull in Hid.
      destruct (tokenEntry node utf8 a') as [t''|] eqn:Ht'; [|done]. injection Hid as ->.
      rewrite (tokenEntry_address a' t' Ht') in Heq. by subst. }
    eapply sublist_NoDup; [apply (Hnd' addrs Hnd)|].
    apply fmap_sublist, sublist_filter.
  - intros t. rewrite list_elem_of_filter, Hmem, Hin.
    split.
    + intros (Hname & [?%elem_of_nil|Ha] & Ht); [done|]. split_and!; [done..|].
      by destruct (TokenEntry.name t).
    + intros (Ha & Ht & Hname). split_and!; [|by right|done].
      by destruct (TokenEntry.name t).
  - apply Nat2Z.inj_le, length_filter.
  - apply Nat2Z.inj_le.
    etrans; [apply length_omap_le|]. rewrite length_fmap.
    etrans; [exact Hlen|]. rewrite length_fmap. cbn. lia.
Qed.

End TokenFacts.

(** ** More on the indexer *)
Section IndexerMore.
Context {Num : Type} `{!JsNumber Num} (node : Rpc.Node Num).
Import Indexer.

Abbreviation M := (Indexer.M (Num := Num)).
Abbreviation World := (Indexer.World (Num := Num)).

Lemma cursor_set (n : JS.num) (s : Db.Store) :
  getLastIndexedBlock (Db.setIndexerState "last_block" (num_toString n) s) = n.
Proof.
  unfold getLastIndexedBlock, Db.getIndexerState. cbn. rewrite lookup_insert_eq.
  destruct n as [z|]; [apply parseInt_toString | done].
Qed.

(** X10. [setLastIndexedBlock n] followed by [getLastIndexedBlock]
    gives [n] back, for every integer the engine holds exactly and for
    NaN; the write touches the key [last_block] of the state table only,
    and calls no node. *)
Theorem cursor_round_trip (n : JS.num) (w : World) :
  match n with
  | JS.Int z => -9007199254740991 ≤ z ≤ 9007199254740991
  | JS.NaN => True
  end →
  let w' := (setLastIndexedBlock n w).2 in
  getLastIndexedBlock (store w') = n ∧
  store w' = Db.setIndexerState "last_block" (num_toString n) (store w) ∧
  calls w' = calls w ∧ pending w' = pending w.
Proof.
  intros _. cbn. split_and!; try done. apply cursor_set.
Qed.

Lemma sync_step_idle_eq (w : World) c h :
  getLastIndexedBlock (store w) = JS.Int c →
  Rpc.getBlockCount node = Rpc.Reply h → h ≤ c →
  sync_step node w =
    (Idle, {| store := store w; calls := calls w ++ [Rpc.GetBlockCount];
              pending := pending w |}).
Proof.
  intros Hcur Hcount Hle. unfold sync_step.
  rewrite bind_eq. unfold await. rewrite Hcount, bind_eq.
  cbn [read_store store]. rewrite Hcur. cbn [num_ge].
  by rewrite (proj2 (Z.leb_le h c)).
Qed.

(** X11. A turn of [sync] that finds the chain no higher than the
    cursor asks the node for the block count only and leaves the store as
    it is; a turn whose block count request fails ends in the error
    branch, also with the store as it is. *)
Theorem sync_step_idle (w : World) :
  (∀ c h, getLastIndexedBlock (store w) = JS.Int c →
          Rpc.getBlockCount node = Rpc.Reply h → h ≤ c →
     sync_step node w =
       (Idle, {| store := store w; calls := calls w ++ [Rpc.GetBlockCount];
                 pending := pending w |})) ∧
  (Rpc.getBlockCount node = Rpc.Failure →
     sync_step node w =
       (Backoff RpcError,
        {| store := store w; calls := calls w ++ [Rpc.GetBlockCount];
           pending := pending w |})).
Proof.
  split; [apply sync_step_idle_eq|].
  intros Hfail. unfold sync_step. rewrite bind_eq. unfold await. by rewrite Hfail.
Qed.

(** X12. Once the text stored under [last_block] parses to NaN, a
    turn of [sync] fetches no block and writes the text NaN back, so no
    number of turns fetches a block or restores a numeric cursor. *)
Theorem sync_step_nan (w : World) h :
  getLastIndexedBlock (store w) = JS.NaN →
  Rpc.getBlockCount node = Rpc.Reply h →
  sync_step node w =
    (Indexed JS.NaN,
     {| store := Db.setIndexerState "last_block" "NaN" (store w);
        calls := calls w ++ [Rpc.GetBlockCount];
        pending := pending w |}) ∧
  ∀ n, getLastIndexedBlock (store (sync_turns node n w)) = JS.NaN ∧
       fetched (calls (sync_turns node n w)) = fetched (calls w).
Proof.
  intros Hcur Hcount.
  assert (∀ w0 : World, getLastIndexedBlock (store w0) = JS.NaN →
            sync_step node w0 =
              (Indexed JS.NaN,
               {| store := Db.setIndexerState "last_block" "NaN" (store w0);
                  calls := calls w0 ++ [Rpc.GetBlockCount];
                  pending := pending w0 |})) as Hstep.
  { intros w0 Hw0. unfold sync_step. rewrite bind_eq. unfold await.
    rewrite Hcount, bind_eq. cbn [read_store store]. rewrite Hw0.
    cbn [num_ge num_succ batch_end heights for_each num_toString]. reflexivity. }
  split; [by apply Hstep|].
  intros n. revert w Hcur. induction n as [|n IH]; intros w Hcur; [done|].
  cbn [sync_turns]. rewrite (Hstep w Hcur). cbn [snd].
  destruct (IH {| store := Db.setIndexerState "last_block" "NaN" (store w);
                  calls := calls w ++ [Rpc.GetBlockCount];
                  pending := pending w |}) as [Hc Hf]; [apply (cursor_set JS.NaN)|].
  split; [done|]. rewrite Hf. cbn [calls]. rewrite fetched_app. cbn. by rewrite app_nil_r.
Qed.

(** Rows that a batch neither writes nor removes for their hash. *)
Lemma batchCommitted_untouched hs : ∀ (s : Db.Store) k,
  k ∉ hs →
  (∀ x bx r, x ∈ hs → Rpc.getBlock node x = Rpc.Reply (Some bx) →
     Db.blocks s !! k = Some r → Db.Blocks.hash r ≠ Rpc.Block.hash bx) →
  Db.blocks (batchCommitted node hs s) !! k = Db.blocks s !! k.
Proof.
  induction hs as [|x hs IH]; intros s k Hk Hhash; [done|].
  rewrite batchCommitted_cons.
  apply not_elem_of_cons in Hk as [Hne Hk].
  assert (Db.blocks (blockStep node s x) !! k = Db.blocks s !! k) as Hstep.
  { unfold blockStep. destruct (Rpc.getBlock node x) as [[bx|]|] eqn:Hbx; [|done..].
    cbn. rewrite lookup_insert_ne by done.
    destruct (Db.blocks s !! k) as [r|] eqn:Hrow.
    - apply map_lookup_filter_Some. split; [done|]. cbn.
      apply (Hhash x bx r); [by left | done | done].
    - apply map_lookup_filter_None. by left. }
  rewrite IH; [done | done |].
  intros y byy r Hy Hby Hrow. rewrite Hstep in Hrow.
  apply (Hhash y byy r); [by right | done | done].
Qed.

(** Turn after turn on a consistent chain that replies for every height
    above the cursor. [lo] is the first height of the chain that the
    turns work on. *)
Lemma sync_turns_catch_up lo h :
  Rpc.getBlockCount node = Rpc.Reply h →
  chain_consistent node lo h →
  ∀ (n : nat) (w : World) c,
    getLastIndexedBlock (store w) = JS.Int c → lo - 1 ≤ c → c ≤ h →
    (∀ k, c < k ≤ h → Rpc.getBlock node k ≠ Rpc.Failure) →
    hashes_fresh node (store w) lo h →
    (∀ k b, lo ≤ k ≤ c → Rpc.getBlock node k = Rpc.Reply (Some b) →
       Db.blocks (store w) !! k = Some (blockRow k b)) →
    let w' := sync_turns node n w in
    let reached := Z.min (c + batchSize * Z.of_nat n) h in
    getLastIndexedBlock (store w') = JS.Int reached ∧
    fetched (calls w') = fetched (calls w) ++ seqZ (c + 1) (reached - c) ∧
    (∀ k b, lo ≤ k ≤ reached → Rpc.getBlock node k = Rpc.Reply (Some b) →
       Db.blocks (store w') !! k = Some (blockRow k b)).
Proof.
  intros Hcount Hchain n.
  induction n as [|n IH]; intros w c Hcur Hlo Hle Hok Hfresh Hrows.
  - cbn [sync_turns]. replace (Z.min (c + batchSize * Z.of_nat 0) h) with c by lia.
    rewrite Z.sub_diag. cbn. by rewrite app_nil_r.
  - cbn [sync_turns]. cbv zeta. destruct (decide (c < h)) as [Hlt|Hge].
    + set (e := Z.min (c + 1 + batchSize - 1) h).
      assert (c < e ≤ h) as He by (subst e; unfold batchSize; lia).
      destruct (sync_step_indexed node w c h lo h Hcur Hcount Hlt)
        as (w1 & cs & -> & Hcalls & Hfetched & Hcur1 & Hstore & Hfresh1);
        fold e; try done; try lia.
      { intros k Hk. apply Hok. lia. }
      fold e in Hcalls, Hfetched, Hcur1, Hstore. cbn [snd].
      assert (∀ k b, lo ≤ k ≤ e → Rpc.getBlock node k = Rpc.Reply (Some b) →
                Db.blocks (store w1) !! k = Some (blockRow k b)) as Hrows1.
      { intros k b Hk Hb. rewrite Hstore. cbn [Db.blocks Db.setIndexerState].
        destruct (decide (c < k)) as [Hnew|Hold].
        - eapply (batchCommitted_block node lo h); [|done| |done].
          + intros j Hj%elem_of_seqZ. lia.
          + apply elem_of_seqZ. lia.
        - rewrite batchCommitted_untouched.
          + apply Hrows; [lia | done].
          + intros Hin%elem_of_seqZ. lia.
          + intros x bx r Hx%elem_of_seqZ Hbx Hrow Hhash.
            rewrite (Hrows k b) in Hrow by (done || lia). injection Hrow as <-.
            destruct (Hchain k b ltac:(lia) Hb) as [_ Hdistinct].
            specialize (Hdistinct x bx ltac:(lia) Hbx (eq_sym Hhash)). lia. }
      destruct (IH w1 e Hcur1) as (Hc & Hf & Hr);
        [lia | lia | intros k Hk; apply Hok; lia | done | done |].
      replace (Z.min (c + batchSize * Z.of_nat (S n)) h)
        with (Z.min (e + batchSize * Z.of_nat n) h)
        by (subst e; unfold batchSize; lia).
      split; [exact Hc|]. split; [|exact Hr]. rewrite Hf, Hcalls.
      change (calls w ++ Rpc.GetBlockCount :: cs)
        with (calls w ++ [Rpc.GetBlockCount] ++ cs).
      rewrite !fetched_app, Hfetched. cbn [fetched omap list_omap app].
      rewrite <- app_assoc. f_equal.
      set (r := Z.min (e + batchSize * Z.of_nat n) h).
      assert (e ≤ r) as Hr' by (subst r; unfold batchSize; lia).
      replace (r - c) with ((e - c) + (r - e)) by lia.
      rewrite (seqZ_app (c + 1) (e - c) (r - e)) by lia.
      f_equal; f_equal; lia.
    + assert (c = h) as -> by lia.
      rewrite (sync_step_idle_eq w h h Hcur Hcount) by lia. cbn [snd].
      match goal with |- context [sync_turns node n ?w1] =>
        destruct (IH w1 h Hcur) as (Hc & Hf & Hr);
          [lia | lia | intros k Hk; lia | done | done |]
      end.
      replace (Z.min (h + batchSize * Z.of_nat (S n)) h) with h
        by (unfold batchSize; lia).
      replace (Z.min (h + batchSize * Z.of_nat n) h) with h in Hc, Hf, Hr
        by (unfold batchSize; lia).
      split; [exact Hc|]. split; [|exact Hr]. rewrite Hf. cbn [calls].
      rewrite fetched_app. cbn. by rewrite app_nil_r.
Qed.

(** X13. On a consistent chain that replies for every height above the
    cursor, with blocks that the foreign keys of the store accept, [n]
    turns of [sync] move the cursor from [c] to [min (c + 10 n) h],
    where [h] is the block count, fetch exactly the heights in between,
    each once and in ascending order, and leave the Block row of every
    block of these heights in the store (for heights the engine counts
    exactly). *)
Theorem sync_catches_up (n : nat) (w : World) c h :
  Rpc.getBlockCount node = Rpc.Reply h → h ≤ 9007199254740991 →
  getLastIndexedBlock (store w) = JS.Int c → -9007199254740991 ≤ c → c ≤ h →
  (∀ k, c < k ≤ h → Rpc.getBlock node k ≠ Rpc.Failure) →
  chain_consistent node (c + 1) h →
  hashes_fresh node (store w) (c + 1) h →
  let w' := sync_turns node n w in
  let reached := Z.min (c + batchSize * Z.of_nat n) h in
  getLastIndexedBlock (store w') = JS.Int reached ∧
  fetched (calls w') = fetched (calls w) ++ seqZ (c + 1) (reached - c) ∧
  (∀ k b, c < k ≤ reached → Rpc.getBlock node k = Rpc.Reply (Some b) →
     Db.blocks (store w') !! k = Some (blockRow k b)).
Proof.
  intros Hcount _ Hcur _ Hle Hok Hchain Hfresh w' reached.
  destruct (sync_turns_catch_up (c + 1) h Hcount Hchain n w c Hcur
              ltac:(lia) Hle Hok Hfresh) as (Hc & Hf & Hr).
  { intros k b Hk. lia. }
  split; [exact Hc|]. split; [exact Hf|].
  intros k b Hk. apply Hr. lia.
Qed.

(** *** What the work on a receipt writes *)

Lemma keeps_probe I {A} c (r : Rpc.reply A) d : keeps I (probe c r d : M A).
Proof. apply keeps_try_catch; [apply keeps_await | intros _; apply keeps_ret]. Qed.

Section LogWrites.
Context (I : Db.Store → Prop).
Hypothesis Hlog : ∀ r s, I s → I (Db.insertLog r s).
Hypothesis Htoken : ∀ r s, I s → I (Db.insertToken r s).
Hypothesis Htransfer : ∀ r s, I s → I (Db.insertTransfer r s).

Lemma keeps_detectToken address : keeps I (detectToken node address).
Proof.
  unfold detectToken. apply keeps_bind; [apply keeps_read_store | intros s].
  destruct (Db.getToken _ s); [apply keeps_ret|].
  apply keeps_try_catch; [|intros _; apply keeps_ret].
  do 4 (apply keeps_bind; [apply keeps_probe | intros ?]).
  apply keeps_bind; [apply keeps_run; auto | intros _; apply keeps_ret].
Qed.

Lemma keeps_indexLog txid log block i : keeps I (indexLog node txid log block i).
Proof.
  unfold indexLog. apply keeps_bind; [apply keeps_statement; auto | intros _].
  destruct (default [] (Rpc.Log.topics log)) as [|t0 [|t1 [|t2 rest]]];
    try apply keeps_ret.
  destruct (String.eqb t0 TRANSFER_TOPIC); [|apply keeps_ret].
  apply keeps_bind; [destruct (Rpc.Log.address log); [apply keeps_ret | apply keeps_throw]|].
  intros tokenAddress. apply keeps_bind; [apply keeps_detectToken | intros _].
  apply keeps_statement; auto.
Qed.

Lemma keeps_indexReceiptWith fetch txid block :
  keeps I fetch → keeps I (indexReceiptWith node fetch txid block).
Proof.
  intros Hfetch.
  unfold indexReceiptWith. apply keeps_try_catch; [|intros _; apply keeps_ret].
  apply keeps_bind; [apply Hfetch | intros [receipts|]]; [|apply keeps_ret].
  apply keeps_for_each. intros _ receipt. apply keeps_bind.
  - destruct (Rpc.Receipt.log receipt); [|apply keeps_ret].
    apply keeps_for_each. intros j log. apply keeps_indexLog.
  - intros _. destruct (JS.or_null _); [|apply keeps_ret].
    apply keeps_bind; [apply keeps_detectToken | intros _; apply keeps_ret].
Qed.

Lemma keeps_settle_all (l : list (Deferred (Num := Num))) (w0 : World) :
  I (store w0) → I (store (foldl (λ w d, resume node d w) w0 l)).
Proof.
  revert w0. induction l as [|d l IH]; intros w0 HI; [done|].
  cbn [foldl]. apply IH. unfold resume.
  by apply keeps_indexReceiptWith; [apply keeps_promised|].
Qed.

End LogWrites.

Lemma extends_logs_refl s : extends_logs s s.
Proof. by split_and!. Qed.

Lemma extends_logs_insertLog s r s' :
  extends_logs s s' → extends_logs s (Db.insertLog r s').
Proof.
  intros (? & ? & ? & ? & ? & ?). split_and!; try done.
  cbn. by apply prefix_app_r.
Qed.

Lemma extends_logs_insertToken s r s' :
  extends_logs s s' → extends_logs s (Db.insertToken r s').
Proof.
  intros (? & ? & ? & ? & ? & Hk). split_and!; try done.
  cbn. intros k Hin. rewrite lookup_insert. case_decide; [done | by apply Hk].
Qed.

Lemma extends_logs_insertTransfer s r s' :
  extends_logs s s' → extends_logs s (Db.insertTransfer r s').
Proof.
  intros (? & ? & ? & ? & ? & ?). split_and!; try done.
  cbn. by apply prefix_app_r.
Qed.

(** The awaited [indexReceipt] is its request followed by the rest. *)
Lemma indexReceipt_resumed txid block (w : World) :
  indexReceipt node txid block w =
  (Return tt,
   resume node {| d_txid := txid; d_block := block |}
     (request (Rpc.GetTransactionReceipt txid) w).2).
Proof.
  unfold indexReceipt, resume, indexReceiptWith, try_catch. rewrite !bind_eq.
  unfold await, promised. cbn [request snd d_txid d_block].
  destruct (Rpc.getTransactionReceipt node txid) as [receipts|]; [|done].
  match goal with |- context [match ?m ?w1 with _ => _ end] =>
    destruct (m w1) as [[[]|e] w']
  end; done.
Qed.

Lemma indexReceipt_request_only txid block (w : World) :
  Rpc.getTransactionReceipt node txid = Rpc.Failure ∨
  Rpc.getTransactionReceipt node txid = Rpc.Reply None →
  indexReceipt node txid block w =
    (Return tt, {| store := store w;
                   calls := calls w ++ [Rpc.GetTransactionReceipt txid];
                   pending := pending w |}).
Proof.
  intros Hreply. unfold indexReceipt, indexReceiptWith, try_catch.
  rewrite bind_eq. unfold await. by destruct Hreply as [-> | ->].
Qed.

(** X14. [indexReceipt] never throws. When the receipt request
    fails or the node has no receipt it leaves the store as it is; in
    every case, and also when the deferred receipts are settled later,
    the blocks, the transactions and the cursor stay as they are, the
    event logs and the token transfers only grow at the end, and no token
    row is removed. *)
Theorem indexReceipt_swallows txid block (w : World) :
  (∃ w', indexReceipt node txid block w = (Return tt, w')) ∧
  (Rpc.getTransactionReceipt node txid = Rpc.Failure ∨
   Rpc.getTransactionReceipt node txid = Rpc.Reply None →
   indexReceipt node txid block w =
     (Return tt, {| store := store w;
                    calls := calls w ++ [Rpc.GetTransactionReceipt txid];
                    pending := pending w |})) ∧
  extends_logs (store w) (store (indexReceipt node txid block w).2) ∧
  extends_logs (store w) (store (settle node w)).
Proof.
  split_and!.
  - rewrite indexReceipt_resumed. by eexists.
  - apply indexReceipt_request_only.
  - apply (keeps_indexReceiptWith (extends_logs (store w)));
      [apply extends_logs_insertLog | apply extends_logs_insertToken
      | apply extends_logs_insertTransfer | apply keeps_await | apply extends_logs_refl].
  - unfold settle.
    apply (keeps_settle_all (extends_logs (store w)));
      [apply extends_logs_insertLog | apply extends_logs_insertToken
      | apply extends_logs_insertTransfer | apply extends_logs_refl].
Qed.

(** *** Indexing a block again *)

(** What [indexBlock] leaves in the store depends on the store alone:
    the rows of the block when its statements pass, and else what was
    there. *)
Lemma indexBlock_store height (w : World) :
  store (indexBlock node height w).2 =
  match Rpc.getBlock node height with
  | Rpc.Reply (Some block) =>
      if blockAccepted height block (store w)
      then blockCommitted height block (store w) else store w
  | _ => store w
  end.
Proof.
  destruct (Rpc.getBlock node height) as [[block|]|] eqn:Hf.
  - destruct (blockAccepted height block (store w)) eqn:Hok.
    + by rewrite (indexBlock_committed node height block).
    + by rewrite (indexBlock_refused node height block).
  - by rewrite indexBlock_gap.
  - by rewrite indexBlock_failure.
Qed.

(** A block that passed passes again, on the store it left. *)
Lemma blockAccepted_again height block (s : Db.Store) :
  blockAccepted height block s = true →
  blockAccepted height block (blockCommitted height block s) = true.
Proof.
  intros [_ Htxs]%andb_true_iff. unfold blockAccepted. apply andb_true_iff. split.
  - apply bool_decide_eq_true. intros k r Hrow Hhash Hne.
    apply blocks_committed in Hrow as [[? _]|(_ & _ & Hother)]; [done|].
    by destruct Hother.
  - replace (Db.blocks (Db.insertBlock (blockRow height block)
                          (blockCommitted height block s)))
      with (Db.blocks (Db.insertBlock (blockRow height block) s)); [done|].
    symmetry. apply (insertBlock_idemp (blockRow height block) s).
Qed.

Lemma blockCommitted_again height block (s : Db.Store) :
  blockCommitted height block (blockCommitted height block s)
  = blockCommitted height block s.
Proof.
  unfold blockCommitted at 1 3. f_equal.
  - apply (insertBlock_idemp (blockRow height block) s).
  - apply txsInserted_idemp.
Qed.

(** X15. Indexing a height a second time leaves every table as the
    first time left it, in the columns that the indexer writes (the store
    stamps the rows it replaces with a new [created_at]); [indexBlock]
    itself changes no event log, token, token transfer or cursor. *)
Theorem indexBlock_twice height (w : World) :
  let once := (indexBlock node height w).2 in
  let twice := (indexBlock node height once).2 in
  store twice = store once ∧
  Db.event_logs (store once) = Db.event_logs (store w) ∧
  Db.tokens (store once) = Db.tokens (store w) ∧
  Db.token_transfers (store once) = Db.token_transfers (store w) ∧
  Db.indexer_state (store once) = Db.indexer_state (store w).
Proof.
  intros once twice. subst twice.
  rewrite (indexBlock_store height once). subst once.
  rewrite (indexBlock_store height w).
  destruct (Rpc.getBlock node height) as [[block|]|]; [|done..].
  destruct (blockAccepted height block (store w)) eqn:Hok.
  - rewrite blockAccepted_again by done. split; [apply blockCommitted_again|done].
  - by rewrite Hok.
Qed.

(** *** [detectToken], once per address *)

(** X16. After [detectToken a] the token table has a row under the
    lower-cased address, and [detectToken] of any spelling of that address
    returns that row with no call to the node and no write. *)
Theorem detectToken_once a b (w : World) :
  JS.toLowerCase b = JS.toLowerCase a →
  let w1 := (detectToken node a w).2 in
  ∃ row, Db.getToken (JS.toLowerCase a) (store w1) = Some row ∧
         detectToken node b w1 = (Return (Existing row), w1).
Proof.
  intros Hab w1. subst w1.
  destruct (detectToken_returns node a w) as (d & w1 & -> & _ & _ & _ & _ & _ & _ & [row Hrow] & _).
  cbn [snd]. exists row. split; [done|].
  apply detectToken_existing. by rewrite Hab.
Qed.

(** *** The contract fields of a transaction row *)

(** X17. The contract address of a transaction row comes from the
    last output of type [create] and its contract data from the last
    output of type [call] (absent and ["0x"] when there is none, or when
    that output has none). *)
Theorem contractScan_last_wins (tx : Rpc.Tx.t Num) :
  let outs := default [] (Rpc.Tx.vout tx) in
  (contractScan tx).1 =
    match last (filter (λ v, voutType v = Some "create") outs) with
    | Some v => JS.or_null (Rpc.Vout.scriptPubKey v ≫= Rpc.ScriptPubKey.address)
    | None => None
    end ∧
  (contractScan tx).2 =
    match last (filter (λ v, voutType v = Some "call") outs) with
    | Some v => JS.or_default (Rpc.Vout.scriptPubKey v ≫= Rpc.ScriptPubKey.hex) "0x"
    | None => "0x"
    end.
Proof.
  intros outs. unfold contractScan. fold outs. generalize outs. clear outs.
  intros outs. induction outs as [|v outs [IH1 IH2]] using rev_ind; [done|].
  rewrite foldl_app, !filter_app. cbn [foldl].
  unfold contractStep at 1 3. unfold voutType at 1 3.
  destruct (Rpc.Vout.scriptPubKey v) as [spk|] eqn:Hspk; cbn [mbind option_bind].
  2:{ rewrite !filter_cons_False, !filter_nil, !app_nil_r; [done | | ];
        unfold voutType; by rewrite Hspk. }
  destruct (Rpc.ScriptPubKey.type spk) as [ty|] eqn:Hty.
  2:{ rewrite !filter_cons_False, !filter_nil, !app_nil_r; [done | | ];
        unfold voutType; by rewrite Hspk; cbn; rewrite Hty. }
  destruct (String.eqb_spec ty "create") as [->|Hcreate].
  - rewrite (filter_cons_True _ v) by (unfold voutType; rewrite Hspk; cbn; by rewrite Hty).
    rewrite (filter_cons_False _ v) by (unfold voutType; rewrite Hspk; cbn; by rewrite Hty).
    rewrite !filter_nil, app_nil_r, last_snoc. cbn [fst snd]. by rewrite Hspk.
  - destruct (String.eqb_spec ty "call") as [->|Hcall].
    + rewrite (filter_cons_False _ v) by (unfold voutType; rewrite Hspk; cbn; by rewrite Hty).
      rewrite (filter_cons_True _ v) by (unfold voutType; rewrite Hspk; cbn; by rewrite Hty).
      rewrite !filter_nil, app_nil_r, last_snoc. cbn [fst snd]. by rewrite Hspk.
    + rewrite !filter_cons_False, !filter_nil, !app_nil_r; [done | | ];
        unfold voutType; rewrite Hspk; cbn; rewrite Hty; congruence.
Qed.

(** *** The rows [indexLog] writes *)

Lemma isTransferEvent_topics log :
  isTransferEvent log = true →
  ∃ topic1 topic2 rest,
    Rpc.Log.topics log = Some (TRANSFER_TOPIC :: topic1 :: topic2 :: rest).
Proof.
  unfold isTransferEvent.
  destruct (Rpc.Log.topics log) as [[|t0 [|t1 [|t2 rest]]]|]; try done.
  cbn. intros ->%String.eqb_eq. by exists t1, t2, rest.
Qed.

(** X18. [indexLog] needs the Transaction row of its transaction: without
    it the first statement fails on the foreign key, [indexLog] throws and
    nothing is written. With it, [indexLog] appends exactly one row to
    the event logs, whatever follows; it throws (a TypeError) exactly for
    a Transfer log without an address, and otherwise returns; for a log
    that is no Transfer with three topics it does nothing else. *)
Theorem indexLog_event_row txid log block i (w : World) :
  let out := indexLog node txid log block i w in
  (Db.transactions (store w) !! txid = None → out = (Throw SqliteError, w)) ∧
  (is_Some (Db.transactions (store w) !! txid) →
     Db.event_logs (store out.2)
       = Db.event_logs (store w) ++ [eventRow txid log block i] ∧
     (out.1 = Throw TypeError ↔
        isTransferEvent log = true ∧ Rpc.Log.address log = None) ∧
     (out.1 = Return tt ∨ out.1 = Throw TypeError) ∧
     (isTransferEvent log = false →
        out = (Return tt,
               {| store := Db.insertLog (eventRow txid log block i) (store w);
                  calls := calls w; pending := pending w |}))).
Proof.
  intros out. subst out. split; [apply indexLog_refused|]. intros Htx.
  destruct (isTransferEvent log) eqn:Htr.
  2:{ rewrite indexLog_other by done. cbn. split_and!; try done; [|by left].
      split; [done | by intros [? _]]. }
  destruct (Rpc.Log.address log) as [a|] eqn:Haddr.
  2:{ rewrite indexLog_no_address by done. cbn. split_and!; try done; by right. }
  destruct (isTransferEvent_topics log Htr) as (topic1 & topic2 & rest & Htopics).
  destruct (indexLog_transfer node txid log block i a topic1 topic2 rest w
              Htx Htopics Haddr) as (-> & _ & _ & Hlogs & _).
  cbn. split_and!; try done; [|by left].
  split; [done | by intros [_ ?]].
Qed.

(** X19. For a Transfer log with an address and two topics of at
    least 40 characters, in a store that holds the row of its
    transaction, [indexLog] appends one transfer row: the lower-cased
    token address, [0x] and the last 40 characters of each of the two
    topics, lower-cased, the data of the log as they are (none when the
    log has none), and the height and time of the block; the token has a
    row afterwards. *)
Theorem indexLog_transfer_row txid log block i a topic1 topic2 rest (w : World) :
  is_Some (Db.transactions (store w) !! txid) →
  Rpc.Log.topics log = Some (TRANSFER_TOPIC :: topic1 :: topic2 :: rest) →
  Rpc.Log.address log = Some a →
  40 ≤ JS.strlen topic1 → 40 ≤ JS.strlen topic2 →
  let out := indexLog node txid log block i w in
  out.1 = Return tt ∧
  Db.token_transfers (store out.2) =
    Db.token_transfers (store w) ++
    [ {| Db.TokenTransfers.tx_hash := txid;
         Db.TokenTransfers.log_index := i;
         Db.TokenTransfers.token_address := JS.toLowerCase a;
         Db.TokenTransfers.from_address :=
           "0x" +:+ JS.toLowerCase (Server.decodeAddress (Some topic1));
         Db.TokenTransfers.to_address :=
           "0x" +:+ JS.toLowerCase (Server.decodeAddress (Some topic2));
         Db.TokenTransfers.value := Rpc.Log.data log;
         Db.TokenTransfers.block_height := Rpc.Block.height block;
         Db.TokenTransfers.timestamp := Rpc.Block.time block |} ] ∧
  is_Some (Db.tokens (store out.2) !! JS.toLowerCase a).
Proof.
  intros Htx Htopics Haddr Hlen1 Hlen2 out. subst out.
  assert (∀ t, 40 ≤ JS.strlen t → Server.decodeAddress (Some t) = JS.slice_from t (-40))
    as Hdecode.
  { intros t Ht. unfold Server.decodeAddress.
    assert (JS.or_null (Some t) = Some t) as ->.
    { destruct t; [|done]. unfold JS.strlen in Ht. cbn in Ht. lia. }
    by rewrite (proj2 (Z.ltb_ge _ _)). }
  rewrite !Hdecode by done.
  destruct (indexLog_transfer node txid log block i a topic1 topic2 rest w
              Htx Htopics Haddr) as (-> & Hsome & Htt & _ & _).
  cbn [fst snd store Db.insertTransfer Db.token_transfers Db.tokens].
  rewrite Htt. split_and!; done.
Qed.

End IndexerMore.

(** ** The endpoints of the backend *)
Section ApiFacts.
Import JS Api.

(** *** Decimal text *)

Lemma fixedDigits_dec k x c : c ∈ Server.fixedDigits k x → is_Some (dec_digit c).
Proof.
  revert x. induction k as [|k IH]; intros x; cbn; [by intros ?%elem_of_nil|].
  rewrite elem_of_app, list_elem_of_singleton. intros [Hc| ->]; [by eapply IH|].
  rewrite dec_digit_char by (by apply N.mod_lt). done.
Qed.

(** The text of a natural number: digits, and one at least. *)
Lemma toString_digits x :
  ∃ c l, toString (Z.of_N x) = of_chars (c :: l) ∧
         Forall (λ c, is_Some (dec_digit c)) (c :: l).
Proof.
  destruct (digit_count x) as (K & HK & Hlt & Hge).
  rewrite (toString_fixed K) by done.
  destruct (Server.fixedDigits K x) as [|c l] eqn:Hl.
  { apply (f_equal length) in Hl. rewrite length_fixedDigits in Hl. cbn in Hl. lia. }
  exists c, l. split; [done|]. rewrite <- Hl. apply Forall_forall.
  intros c'. apply fixedDigits_dec.
Qed.

Lemma dec_digit_plain c :
  is_Some (dec_digit c) →
  Ascii.is_space c = false ∧ lower_char c = c ∧ c ≠ "x"%char ∧ c ≠ "w"%char.
Proof. intros [d Hc]. by destruct c as [[] [] [] [] [] [] [] []]. Qed.

Lemma skip_space_digits c l :
  is_Some (dec_digit c) → skip_space (of_chars (c :: l)) = of_chars (c :: l).
Proof. intros Hc. cbn. by destruct (dec_digit_plain c Hc) as [-> _]. Qed.

Lemma toLowerCase_digits l :
  Forall (λ c, is_Some (dec_digit c)) l → toLowerCase (of_chars l) = of_chars l.
Proof.
  induction 1 as [|c l Hc Hl IH]; [done|]. cbn. unfold of_chars in IH. rewrite IH.
  by destruct (dec_digit_plain c Hc) as (_ & -> & _).
Qed.

Lemma trim_digits c l :
  Forall (λ c, is_Some (dec_digit c)) (c :: l) → trim (of_chars (c :: l)) = of_chars (c :: l).
Proof.
  intros Hall. unfold trim.
  rewrite skip_space_digits by (by apply Forall_cons in Hall as [? _]).
  rewrite chars_of_chars.
  destruct (reverse (c :: l)) as [|c' l'] eqn:Hrev.
  { apply (f_equal length) in Hrev. rewrite length_reverse in Hrev. done. }
  rewrite skip_space_digits.
  - by rewrite chars_of_chars, <- Hrev, reverse_involutive.
  - rewrite Forall_forall in Hall. apply Hall, elem_of_reverse. rewrite Hrev. by left.
Qed.

Lemma is_digits_digits c l :
  Forall (λ c, is_Some (dec_digit c)) (c :: l) → is_digits (of_chars (c :: l)) = true.
Proof.
  intros Hall. unfold is_digits. rewrite chars_of_chars. cbn [of_chars string_of_list_ascii truthy andb].
  apply forallb_forall. intros c' Hc'%list_elem_of_In. apply bool_decide_eq_true.
  rewrite Forall_forall in Hall. by apply Hall.
Qed.

Lemma startsWith_digits c l :
  Forall (λ c, is_Some (dec_digit c)) (c :: l) →
  startsWith "0x" (of_chars (c :: l)) = false ∧ startsWith "w" (of_chars (c :: l)) = false.
Proof.
  intros [Hc Hl]%Forall_cons. unfold startsWith.
  cbn [of_chars string_of_list_ascii String.prefix]. split.
  - destruct (ascii_dec "0" c); [|done]. destruct l as [|c' l]; [done|].
    cbn [of_chars string_of_list_ascii String.prefix].
    apply Forall_cons in Hl as [Hc' _]. destruct (dec_digit_plain c' Hc') as (_ & _ & Hx & _).
    by destruct (ascii_dec "x" c').
  - destruct (dec_digit_plain c Hc) as (_ & _ & _ & Hw). by destruct (ascii_dec "w" c).
Qed.

(** *** [GET /search] *)

Lemma getSearch_digits (s : Db.Store) h :
  0 ≤ h →
  getSearch (Some (toString h)) s
  = Json (match Db.getBlock h s with
          | Some block => [BlockItem block]
          | None => []
          end).
Proof.
  intros Hh. unfold getSearch.
  pose proof (parseInt_toString h) as Hparse.
  destruct (toString_digits (Z.to_N h)) as (c & l & Htext & Hall).
  rewrite Z2N.id in Htext by lia. rewrite Htext in *.
  assert (or_null (Some (of_chars (c :: l))) = Some (of_chars (c :: l))) as -> by done.
  rewrite trim_digits, toLowerCase_digits, is_digits_digits, Hparse by done.
  destruct (startsWith_digits c l Hall) as [-> ->]. cbn [andb orb].
  by destruct (Db.getBlock h s).
Qed.

Lemma prefix_0x query :
  startsWith "0x" query = true → ∃ r, query = String "0" (String "x" r).
Proof.
  unfold startsWith. destruct query as [|c1 [|c2 r]]; cbn [String.prefix]; [done| |].
  - by destruct (ascii_dec "0" c1).
  - destruct (ascii_dec "0" c1) as [<-|]; [|done].
    destruct (ascii_dec "x" c2) as [<-|]; [|done]. by exists r.
Qed.

(** X20. [GET /search] refuses a missing or empty query with status
    400; for the decimal text of a height it answers with the stored
    block of that height, or with no result; for a query that, trimmed and
    lower-cased, is [0x] and 40 more characters it answers with that
    address and, when the address has a token row, the token. *)
Theorem getSearch_classes (s : Db.Store) :
  getSearch None s = Error 400 "Query required" ∧
  getSearch (Some "") s = Error 400 "Query required" ∧
  (∀ h, 0 ≤ h ≤ 9007199254740991 →
     getSearch (Some (toString h)) s
     = Json (match Db.getBlock h s with
             | Some block => [BlockItem block]
             | None => []
             end)) ∧
  (∀ q, let query := toLowerCase (trim q) in
     startsWith "0x" query = true → strlen query = 42 →
     getSearch (Some q) s
     = Json (AddressItem query ::
             match Db.getToken query s with
             | Some token => [TokenItem token]
             | None => []
             end)).
Proof.
  split_and!; [done | done | intros h [Hh _]; by apply getSearch_digits |].
  intros q query Hprefix Hlen. unfold getSearch.
  assert (or_null (Some q) = Some q) as ->.
  { destruct q; [|done]. subst query. cbn in Hprefix. done. }
  fold query. rewrite Hprefix, Hlen. cbn [andb orb Z.eqb Pos.eqb].
  destruct (prefix_0x query Hprefix) as [r Hq].
  assert (is_digits query = false) as ->.
  { rewrite Hq. unfold is_digits. cbn. by rewrite andb_false_r. }
  cbn [app]. by destruct (Db.getToken query s).
Qed.

(** *** [GET /blocks] *)

#[local] Existing Instance Db.higher_dec.

#[local] Instance higher_transitive : Transitive Db.higher.
Proof. intros a b c. unfold Db.higher. lia. Qed.

#[local] Instance higher_total : Total Db.higher.
Proof. intros a b. unfold Db.higher. lia. Qed.

Lemma sql_limit_fmap {A B} (f : A → B) limit offset l :
  Db.sql_limit limit offset (f <$> l) = f <$> Db.sql_limit limit offset l.
Proof.
  unfold Db.sql_limit. rewrite <- fmap_drop. destruct (limit <? 0); [done|].
  by rewrite fmap_take.
Qed.

Lemma higher_strict (l : list (Z * Db.Blocks.row)) :
  StronglySorted Db.higher l → NoDup l.*1 →
  StronglySorted (λ a b : Z * Db.Blocks.row, b.1 < a.1) l.
Proof.
  induction 1 as [|a l Hl IH Ha]; intros Hnd; [constructor|].
  rewrite fmap_cons in Hnd. apply NoDup_cons in Hnd as [Hnotin Hnd].
  constructor; [exact (IH Hnd)|].
  rewrite Forall_forall in Ha |- *. intros b Hb. specialize (Ha b Hb).
  unfold Db.higher in Ha. destruct (decide (b.1 = a.1)) as [Heq|Hne]; [|lia].
  destruct Hnotin. rewrite <- Heq. by apply list_elem_of_fmap_2.
Qed.

(** The blocks by descending height: each stored block once, a higher
    one before a lower one. *)
Lemma blocksDescending_sorted (s : Db.Store) :
  StronglySorted (λ a b : Z * Db.Blocks.row, b.1 < a.1) (Db.blocksDescending s) ∧
  (∀ k r, (k, r) ∈ Db.blocksDescending s ↔ Db.blocks s !! k = Some r) ∧
  length (Db.blocksDescending s) = size (Db.blocks s).
Proof.
  unfold Db.blocksDescending.
  pose proof (merge_sort_Permutation Db.higher (map_to_list (Db.blocks s))) as Hperm.
  split_and!.
  - apply higher_strict; [apply StronglySorted_merge_sort; apply _|].
    rewrite Hperm. apply NoDup_fst_map_to_list.
  - intros k r. by rewrite Hperm, elem_of_map_to_list.
  - by rewrite Hperm, length_map_to_list.
Qed.

Lemma pageLimit_range limit : pageLimit limit ≤ 100 ∧ pageLimit limit ≠ 0.
Proof.
  unfold pageLimit, or_num. destruct (parseInt_opt limit) as [[|p|p]|]; lia.
Qed.

(** X21. [GET /blocks] reads at most 100 rows, 25 when no limit or the
    limit 0 is given. Its answer is the highest stored blocks in
    descending order of height, with no block left out above one that is
    listed; a negative limit lists all the stored blocks. *)
Theorem getBlocks_latest limit (s : Db.Store) :
  let n := pageLimit limit in
  -9007199254740991 ≤ n →
  n ≤ 100 ∧ n ≠ 0 ∧
  (limit = None → n = 25) ∧
  (∀ k, limit = Some (toString k) → n = if k =? 0 then 25 else Z.min k 100) ∧
  ∃ page, getBlocks limit s = Json page.*2 ∧
    StronglySorted (λ a b : Z * Db.Blocks.row, b.1 < a.1) page ∧
    (∀ k r, (k, r) ∈ page → Db.blocks s !! k = Some r) ∧
    (∀ k r k' r', (k, r) ∈ page → Db.blocks s !! k' = Some r' → k < k' →
       (k', r') ∈ page) ∧
    length page = if n <? 0 then size (Db.blocks s)
                  else (Z.to_nat n `min` size (Db.blocks s))%nat.
Proof.
  intros n _. destruct (pageLimit_range limit) as [Hle Hne].
  split_and!; [done | done | by intros -> | |].
  { intros k ->. subst n. unfold pageLimit, parseInt_opt. cbn [default from_option id].
    rewrite parseInt_toString. by destruct k. }
  destruct (blocksDescending_sorted s) as (Hsorted & Hmem & Hlen).
  exists (Db.sql_limit n 0 (Db.blocksDescending s)). split.
  { unfold getBlocks, Db.getLatestBlocks. by rewrite sql_limit_fmap. }
  unfold Db.sql_limit. change (Z.to_nat 0) with 0%nat. rewrite drop_0.
  destruct (n <? 0); [by split_and!; [| intros k r ?%Hmem | intros k r k' r' _ ?%Hmem _ |]|].
  revert Hsorted Hmem Hlen. generalize (Db.blocksDescending s). intros l Hsorted Hmem Hlen.
  rewrite <- (take_drop (Z.to_nat n) l) in Hsorted, Hmem.
  split_and!.
  - by apply StronglySorted_app_1_l in Hsorted.
  - intros k r Hin. apply Hmem, elem_of_app. by left.
  - intros k r k' r' Hin Hstored Hlt.
    apply Hmem, elem_of_app in Hstored as [?|Hdrop]; [done|].
    pose proof (StronglySorted_app_1_elem_of _ _ _ _ _ Hsorted Hin Hdrop) as Hord.
    cbn in Hord. lia.
  - by rewrite length_take, Hlen.
Qed.

(** *** [POST /contract/verify] and [GET /contract/:address] *)

Lemma toLowerCase_truthy a : truthy (toLowerCase a) = truthy a.
Proof. by destruct a. Qed.

Lemma formatAddress_Some a : a ≠ "" → formatAddress (Some a) = Some (toLowerCase a).
Proof. intros Ha. unfold formatAddress. cbn. rewrite toLowerCase_truthy. by destruct a. Qed.

(** X22. [POST /contract/verify] with an address, a source and an
    ABI stores the contract under the lower-cased address, with the
    defaults for the fields left out, and [GET /contract/:address] then
    finds it under every spelling of the address, while the answer for
    every other address is as before; without one of the three fields the
    request is refused with status 400 and nothing is stored. *)
Theorem verified_contract_is_found now body contracts :
  let outcome := postContractVerify now body contracts in
  (∀ a src abi_,
     address body = Some a → a ≠ "" →
     sourceCode body = Some src → src ≠ "" →
     abi_truthy (abi body) = Some abi_ →
     let row :=
       {| Db.Contracts.address := toLowerCase a;
          Db.Contracts.name := or_default (name body) "Unknown";
          Db.Contracts.source_code := src;
          Db.Contracts.abi := abi_text abi_;
          Db.Contracts.compiler_version := or_default (compilerVersion body) "unknown";
          Db.Contracts.optimization := if optimization body then 1 else 0;
          Db.Contracts.constructor_args := or_default (constructorArgs body) "";
          Db.Contracts.verified_at := now |} in
     outcome.1 = Json "Contract verified" ∧
     (∀ b, toLowerCase b = toLowerCase a → getContract b outcome.2 = Json row) ∧
     (∀ b, toLowerCase b ≠ toLowerCase a →
        getContract b outcome.2 = getContract b contracts)) ∧
  (or_null (address body) = None ∨ or_null (sourceCode body) = None
   ∨ abi_truthy (abi body) = None →
   outcome = (Error 400 "Missing required fields", contracts)).
Proof.
  intros outcome. subst outcome. split.
  - intros a src abi_ Ha Hane Hsrc Hsrcne Habi row. unfold postContractVerify.
    rewrite Ha, Hsrc, Habi.
    assert (or_null (Some a) = Some a) as -> by (by destruct a).
    assert (or_null (Some src) = Some src) as -> by (by destruct src).
    rewrite formatAddress_Some by done. cbn [fst snd]. split; [done|].
    fold row. unfold getContract, Db.getContract, Db.insertContract.
    cbn [Db.Contracts.address row]. split.
    + intros b Hb.
      assert (b ≠ "") as Hbne.
      { intros ->. destruct a; [done|]. discriminate Hb. }
      rewrite formatAddress_Some by done. cbn [mbind option_bind].
      by rewrite Hb, lookup_insert_eq.
    + intros b Hb. destruct (decide (b = "")) as [->|Hbne]; [done|].
      rewrite formatAddress_Some by done. cbn [mbind option_bind].
      by rewrite lookup_insert_ne.
  - unfold postContractVerify. intros [->|[->| ->]]; [done | |].
    + by destruct (or_null (address body)).
    + by destruct (or_null (address body)), (or_null (sourceCode body)).
Qed.

End ApiFacts.

(** ** From the indexer to the search *)
Section Found.
Context {Num : Type} `{!JsNumber Num} (node : Rpc.Node Num).
Import Indexer.

(** X23. A block the indexer has stored is found: after [indexBlock]
    of a height for which the node has a block, reported under that
    height and with a hash that the store holds under no other height, the
    store has the row of that block under the height, and [GET /search]
    for the decimal text of the height answers with exactly that block. *)
Theorem indexed_block_is_found height block (w : Indexer.World (Num := Num)) :
  Rpc.getBlock node height = Rpc.Reply (Some block) →
  Rpc.Block.height block = height →
  (∀ k r, Db.blocks (store w) !! k = Some r →
          Db.Blocks.hash r = Rpc.Block.hash block → k = height) →
  0 ≤ height ≤ 9007199254740991 →
  let s' := store (indexBlock node height w).2 in
  Db.getBlock height s' = Some (blockRow height block) ∧
  Api.getSearch (Some (JS.toString height)) s'
  = Api.Json [Api.BlockItem (blockRow height block)].
Proof.
  intros Hf Hheight Hfresh [Hh _] s'.
  assert (Db.getBlock height s' = Some (blockRow height block)) as Hrow.
  { unfold Db.getBlock. subst s'.
    rewrite (indexBlock_committed node height block)
      by (done || by apply blockAccepted_consistent).
    cbn. by rewrite lookup_insert_eq. }
  split; [done|]. rewrite getSearch_digits by done. by rewrite Hrow.
Qed.

End Found.

(** ** The properties above on the sample replies *)

Lemma formatTokenAmount_quotient_witness :
  Server.formatTokenAmount "150000000" 8 = "1.5".
Proof.
  exact (formatTokenAmount_quotient 1 50000000 8 ltac:(lia) eq_refl).
Defined.

Lemma decodeUint256_decimal_witness :
  Server.decodeUint256
    (Some "00000000000000000000000000000000000000000000000000000000000003e8")
  = Some "1000".
Proof.
  destruct decodeUint256_decimal as (_ & _ & _ & Hword).
  exact (Hword 64%nat 1000%N ltac:(lia) eq_refl).
Defined.

Lemma decodeAddress_low_bytes_witness :
  JS.strlen Scenario.alice = 40 ∧
  Server.decodeAddress (Some (Scenario.padded Scenario.alice)) = Scenario.alice ∧
  Server.decodeAddress (Some (Explorer.balanceOfData Scenario.alice)) = Scenario.alice.
Proof.
  destruct decodeAddress_low_bytes as (_ & _ & Hlow & Hpad).
  split; [reflexivity|]. split.
  - exact (Hlow "000000000000000000000000" Scenario.alice eq_refl).
  - exact (proj1 (proj2 (Hpad Scenario.alice eq_refl))).
Defined.

Lemma decodeString_abi_witness :
  Explorer.decodeString Samples.ascii_text
    (Some (Explorer.abiString (list_byte_of_string "WTX"))) = "WTX".
Proof.
  destruct (decodeString_abi Samples.ascii_text) as (_ & _ & Hstring).
  exact (Hstring (list_byte_of_string "WTX") eq_refl).
Defined.

Lemma getBlocks_newest_witness :
  Explorer.getblockcount Samples.explorerNode = Rpc.Reply 3 ∧
  Explorer.getBlocks Samples.explorerNode
  = Rpc.Reply {| Explorer.count := 3;
                 Explorer.blocks :=
                   (λ h, Explorer.summary (Samples.blockAt h)) <$> [3; 2; 1] |}.
Proof.
  split; [reflexivity|].
  destruct (getBlocks_newest Samples.explorerNode Samples.blockAt 3 eq_refl
              ltac:(lia)) as (Hrun & _).
  apply Hrun. intros h Hh. exists (JS.toString h).
  assert (h = 1 ∨ h = 2 ∨ h = 3) as [-> | [-> | ->]] by lia;
    split; reflexivity.
Defined.

Lemma getToken_decodes_witness :
  ∃ info, Explorer.getToken Samples.explorerNode Samples.ascii_text "cc"
          = Rpc.Reply info ∧
    Explorer.TokenInfo.name info = "Wattx Token" ∧
    Explorer.TokenInfo.symbol info = "WTX" ∧
    Explorer.TokenInfo.decimals info = JS.Int 8 ∧
    Explorer.TokenInfo.totalSupply info = "150000000" ∧
    Explorer.TokenInfo.totalSupplyFormatted info = "1.5".
Proof.
  destruct (getToken_decodes Samples.explorerNode Samples.ascii_text "cc"
              (list_byte_of_string "Wattx Token") (list_byte_of_string "WTX")
              8 150000000 eq_refl eq_refl eq_refl eq_refl eq_refl eq_refl
              ltac:(lia) ltac:(lia) eq_refl)
    as (info & Hrun & _ & Hname & Hsymbol & Hdecimals & Hsupply & Hformatted).
  exists info. split; [exact Hrun|].
  split; [exact Hname|]. split; [exact Hsymbol|]. split; [exact Hdecimals|].
  split; [exact Hsupply | exact Hformatted].
Defined.

Lemma sample_hits_decodable :
  Forall Explorer.decodable
    (Server.allLogs (Explorer.entries <$> Samples.searchHits)).
Proof.
  repeat (apply Forall_cons; split;
          [first [ intros _; eexists; vm_compute; reflexivity
                 | intros Htr; vm_compute in Htr; discriminate Htr ] |]).
  apply Forall_nil_2.
Defined.

Lemma tokenTransfers_newest_first_witness :
  Forall Explorer.decodable
    (Server.allLogs (Explorer.entries <$> Samples.searchHits)) ∧
  ∃ resp, Explorer.tokenTransfers Samples.searchHits id = Rpc.Reply resp ∧
    Explorer.totalTransfers resp = 3 ∧
    Explorer.TransferItem.value <$> Explorer.transfers resp = ["10"; "30"; "100"] ∧
    Explorer.TransferItem.txid <$> Explorer.transfers resp = ["t9"; "t7"; "t7"].
Proof.
  split; [exact sample_hits_decodable|].
  destruct (tokenTransfers_newest_first id Samples.searchHits sample_hits_decodable)
    as (resp & Hrun & _).
  exists resp. split; [exact Hrun|].
  assert (Explorer.tokenTransfers Samples.searchHits id = Rpc.Reply resp) as Hval
    by exact Hrun.
  vm_compute in Hval. injection Hval as <-.
  split; [reflexivity|]. split; reflexivity.
Defined.

Lemma holders_match_transfers_witness :
  ∃ hresp tresp,
    Server.tokenHolders (Explorer.entries <$> Samples.searchHits) 0 id = Some hresp ∧
    Explorer.tokenTransfers Samples.searchHits id = Rpc.Reply tresp ∧
    Server.balance <$> Server.holders hresp = ["70"; "20"] ∧
    ∀ hd, hd ∈ Server.holders hresp →
      Server.balance hd
      = JS.toString (Explorer.listedLedger (Server.address hd)
                       (Explorer.transfers tresp)).
Proof.
  destruct (Server.tokenHolders (Explorer.entries <$> Samples.searchHits) 0 id)
    as [hresp|] eqn:Hholders; [|vm_compute in Hholders; discriminate Hholders].
  destruct (holders_match_transfers id Samples.searchHits 0 id hresp Hholders)
    as (tresp & Hrun & Hall).
  exists hresp, tresp. split; [reflexivity|]. split; [exact Hrun|].
  split; [vm_compute in Hholders; injection Hholders as <-; reflexivity|].
  intros hd Hhd. exact (proj1 (Hall hd Hhd)).
Defined.

Lemma sync_step_idle_witness :
  Indexer.getLastIndexedBlock (Indexer.store Samples.synced25) = JS.Int 25 ∧
  Indexer.sync_step (Scenario.node 25 []) Samples.synced25
  = (Indexer.Idle,
     {| Indexer.store := Indexer.store Samples.synced25;
        Indexer.calls := Indexer.calls Samples.synced25 ++ [Rpc.GetBlockCount];
        Indexer.pending := Indexer.pending Samples.synced25 |}).
Proof.
  assert (Indexer.getLastIndexedBlock (Indexer.store Samples.synced25) = JS.Int 25)
    as Hcursor by (vm_compute; reflexivity).
  split; [exact Hcursor|].
  destruct (sync_step_idle (Scenario.node 25 []) Samples.synced25) as [Hidle _].
  exact (Hidle 25 25 Hcursor eq_refl ltac:(lia)).
Defined.

Lemma sync_step_nan_witness :
  Indexer.getLastIndexedBlock (Indexer.store Samples.strayWorld) = JS.NaN ∧
  ∀ n,
    Indexer.getLastIndexedBlock
      (Indexer.store (Indexer.sync_turns (Scenario.node 25 []) n Samples.strayWorld))
    = JS.NaN ∧
    Indexer.fetched
      (Indexer.calls (Indexer.sync_turns (Scenario.node 25 []) n Samples.strayWorld))
    = [].
Proof.
  split; [reflexivity|].
  exact (proj2 (sync_step_nan (Scenario.node 25 []) Samples.strayWorld 25
                  eq_refl eq_refl)).
Defined.

Lemma sync_catches_up_witness :
  Indexer.getLastIndexedBlock (Indexer.store Samples.synced25) = JS.Int 25 ∧
  Indexer.fetched (Indexer.calls Samples.synced25) = seqZ 0 26 ∧
  ∀ k b, -1 < k ≤ 25 → Rpc.getBlock (Scenario.node 25 []) k = Rpc.Reply (Some b) →
    Db.blocks (Indexer.store Samples.synced25) !! k = Some (Indexer.blockRow k b).
Proof.
  exact (sync_catches_up (Scenario.node 25 []) 3 Scenario.world0 (-1) 25
           eq_refl ltac:(lia) eq_refl ltac:(lia) ltac:(lia)
           (λ k Hk, node_replies 25 k ltac:(lia))
           (scenario_chain 25 [] _ _) (empty_store_fresh 25 [] _ _)).
Defined.

Lemma indexReceipt_swallows_witness :
  Rpc.getTransactionReceipt (Scenario.node 7 []) "t2" = Rpc.Reply None ∧
  Indexer.indexReceipt (Scenario.node 7 []) "t2" Scenario.block7 Scenario.world0
  = (Indexer.Return tt,
     {| Indexer.store := Db.empty;
        Indexer.calls := [Rpc.GetTransactionReceipt "t2"];
        Indexer.pending := [] |}).
Proof.
  split; [reflexivity|].
  destruct (indexReceipt_swallows (Scenario.node 7 []) "t2" Scenario.block7
              Scenario.world0) as (_ & Hnone & _).
  exact (Hnone (or_intror eq_refl)).
Defined.

Lemma detectToken_once_witness :
  ∃ row,
    Db.getToken (JS.toLowerCase Scenario.tokenContract)
      (Indexer.store
         (Indexer.detectToken (Scenario.node 7 []) Scenario.tokenContract
            Scenario.world0).2) = Some row ∧
    Indexer.detectToken (Scenario.node 7 [])
      "0xcccccccccccccccccccccccccccccccccccccccc"
      (Indexer.detectToken (Scenario.node 7 []) Scenario.tokenContract
         Scenario.world0).2
    = (Indexer.Return (Indexer.Existing row),
       (Indexer.detectToken (Scenario.node 7 []) Scenario.tokenContract
          Scenario.world0).2).
Proof.
  exact (detectToken_once (Scenario.node 7 []) Scenario.tokenContract
           "0xcccccccccccccccccccccccccccccccccccccccc" Scenario.world0 eq_refl).
Defined.

Lemma indexLog_event_row_witness :
  Db.transactions (Indexer.store Scenario.world0) !! "t1" = None ∧
  Indexer.indexLog (Scenario.node 7 []) "t1" Samples.approvalLog Scenario.block7 0
    Scenario.world0 = (Indexer.Throw Indexer.SqliteError, Scenario.world0) ∧
  Indexer.isTransferEvent Samples.approvalLog = false ∧
  Indexer.indexLog (Scenario.node 7 []) "t1" Samples.approvalLog Scenario.block7 0
    Scenario.committed7
  = (Indexer.Return tt,
     {| Indexer.store :=
          Db.insertLog (Indexer.eventRow "t1" Samples.approvalLog Scenario.block7 0)
            (Indexer.store Scenario.committed7);
        Indexer.calls := Indexer.calls Scenario.committed7;
        Indexer.pending := Indexer.pending Scenario.committed7 |}).
Proof.
  split; [reflexivity|]. split.
  - destruct (indexLog_event_row (Scenario.node 7 []) "t1" Samples.approvalLog
                Scenario.block7 0 Scenario.world0) as (Hrefused & _).
    exact (Hrefused eq_refl).
  - split; [reflexivity|].
    destruct (indexLog_event_row (Scenario.node 7 []) "t1" Samples.approvalLog
                Scenario.block7 0 Scenario.committed7) as (_ & Hstored).
    destruct (Hstored ltac:(vm_compute; eexists; reflexivity))
      as (_ & _ & _ & Hother).
    exact (Hother eq_refl).
Defined.

Lemma indexLog_transfer_row_witness :
  (Indexer.indexLog (Scenario.node 7 []) "t1" Scenario.transferLog Scenario.block7 0
     Scenario.committed7).1 = Indexer.Return tt ∧
  Db.token_transfers
    (Indexer.store
       (Indexer.indexLog (Scenario.node 7 []) "t1" Scenario.transferLog
          Scenario.block7 0 Scenario.committed7).2)
  = Db.token_transfers (Indexer.store Scenario.committed7) ++
    [ {| Db.TokenTransfers.tx_hash := "t1";
         Db.TokenTransfers.log_index := 0;
         Db.TokenTransfers.token_address := "0xcccccccccccccccccccccccccccccccccccccccc";
         Db.TokenTransfers.from_address := "0xaaaaaaaaaaaaaaaaaaaaaaaaaaaaaaaaaaaaaaaa";
         Db.TokenTransfers.to_address := "0xbbbbbbbbbbbbbbbbbbbbbbbbbbbbbbbbbbbbbbbb";
         Db.TokenTransfers.value := Some Scenario.data1000;
         Db.TokenTransfers.block_height := 7;
         Db.TokenTransfers.timestamp := 1700000007 |} ].
Proof.
  destruct (indexLog_transfer_row (Scenario.node 7 []) "t1" Scenario.transferLog
              Scenario.block7 0 Scenario.tokenContract
              "0x000000000000000000000000aaaaaaaaaaaaaaaaaaaaaaaaaaaaaaaaaaaaaaaa"
              "0x000000000000000000000000bbbbbbbbbbbbbbbbbbbbbbbbbbbbbbbbbbbbbbbb"
              [] Scenario.committed7 ltac:(vm_compute; eexists; reflexivity)
              eq_refl eq_refl ltac:(vm_compute; discriminate)
              ltac:(vm_compute; discriminate))
    as (Hreturn & Hrows & _).
  split; [exact Hreturn | exact Hrows].
Defined.

Lemma getBlocks_latest_witness :
  Api.pageLimit (Some "2") = 2 ∧
  ∃ page : list (Z * Db.Blocks.row),
    Api.getBlocks (Some "2") (Indexer.store Samples.synced25) = Api.Json page.*2 ∧
    Db.Blocks.height <$> page.*2 = [25; 24].
Proof.
  split; [reflexivity|].
  destruct (getBlocks_latest (Some "2") (Indexer.store Samples.synced25)
              ltac:(vm_compute; discriminate))
    as (_ & _ & _ & _ & page & Hpage & _).
  exists page. split; [exact Hpage|].
  assert (Api.getBlocks (Some "2") (Indexer.store Samples.synced25)
          = Api.Json page.*2) as Hval by exact Hpage.
  vm_compute in Hval. injection Hval as Hval.
  apply (f_equal (fmap Db.Blocks.height)) in Hval. symmetry. exact Hval.
Defined.

Lemma getSearch_classes_witness :
  Api.getSearch (Some "7") (Indexer.store Scenario.indexed7)
  = Api.Json [Api.BlockItem (Indexer.blockRow 7 Scenario.block7)] ∧
  Api.getSearch (Some " 0xCCCCCCCCCCCCCCCCCCCCCCCCCCCCCCCCCCCCCCCC")
    (Indexer.store Scenario.world0)
  = Api.Json [Api.AddressItem "0xcccccccccccccccccccccccccccccccccccccccc"].
Proof.
  split.
  - destruct (getSearch_classes (Indexer.store Scenario.indexed7))
      as (_ & _ & Hheight & _).
    exact (Hheight 7 ltac:(lia)).
  - destruct (getSearch_classes (Indexer.store Scenario.world0))
      as (_ & _ & _ & Haddress).
    exact (Haddress " 0xCCCCCCCCCCCCCCCCCCCCCCCCCCCCCCCCCCCCCCCC" eq_refl eq_refl).
Defined.

Lemma verified_contract_is_found_witness :
  (Api.postContractVerify 1700000000 Samples.verifyBody ∅).1
  = Api.Json "Contract verified" ∧
  Api.getContract "0xcccccccccccccccccccccccccccccccccccccccc"
    (Api.postContractVerify 1700000000 Samples.verifyBody ∅).2
  = Api.Json
      {| Db.Contracts.address := "0xcccccccccccccccccccccccccccccccccccccccc";
         Db.Contracts.name := "Unknown";
         Db.Contracts.source_code := "contract Token {}";
         Db.Contracts.abi := "[]";
         Db.Contracts.compiler_version := "unknown";
         Db.Contracts.optimization := 1;
         Db.Contracts.constructor_args := "";
         Db.Contracts.verified_at := 1700000000 |}.
Proof.
  destruct (verified_contract_is_found 1700000000 Samples.verifyBody ∅)
    as [Hstored _].
  destruct (Hstored Scenario.tokenContract "contract Token {}" (Api.AbiValue "[]")
              eq_refl ltac:(discriminate) eq_refl ltac:(discriminate) eq_refl)
    as (Hanswer & Hfound & _).
  split; [exact Hanswer|].
  exact (Hfound "0xcccccccccccccccccccccccccccccccccccccccc" eq_refl).
Defined.

Lemma indexed_block_is_found_witness :
  Rpc.getBlock (Scenario.node 7 []) 7 = Rpc.Reply (Some Scenario.block7) ∧
  Db.getBlock 7 (Indexer.store Scenario.committed7)
  = Some (Indexer.blockRow 7 Scenario.block7) ∧
  Api.getSearch (Some "7") (Indexer.store Scenario.committed7)
  = Api.Json [Api.BlockItem (Indexer.blockRow 7 Scenario.block7)].
Proof.
  split; [reflexivity|].
  refine (indexed_block_is_found (Scenario.node 7 []) 7 Scenario.block7
            Scenario.world0 eq_refl eq_refl _ ltac:(lia)).
  intros k r Hrow. cbn in Hrow. by rewrite lookup_empty in Hrow.
Defined.

Lemma cursor_round_trip_witness :
  Indexer.getLastIndexedBlock
    (Indexer.store (Indexer.setLastIndexedBlock (JS.Int 42) Scenario.world0).2)
  = JS.Int 42.
Proof.
  exact (proj1 (cursor_round_trip (JS.Int 42) Scenario.world0 ltac:(cbn; lia))).
Defined.
